(** * baikal: the Model orchestrator (src/baikal/core/model.py)

    A shallow embedding of [Model]: graph assembly ([_build_graph]),
    required-step resolution ([_get_required_steps]), data normalisation
    ([_normalize_given_data], [_normalize_list], [_normalize_dict]) and the
    execution loops of [fit] and [predict] with [_compute_step].

    Python objects compared by identity ([Data], [Step]) carry an identity
    token; steps live in a store indexed by that token, and a [Data] refers
    to its producing step through it. *)

From stdpp Require Import gmap strings list.

Set Warnings "-clear-no-such-hyp,-level-tolerance".

(** ** Data slots and steps *)

(** A [Data] instance: [data_id] is the identity of the instance, [data_step]
    the identity of the step that produces it ([output.step]). *)
Record Data := mkData {
  data_id : nat;
  data_name : string;
  data_step : nat
}.

#[global] Instance Data_eq_dec : EqDecision Data.
Proof. solve_decision. Defined.

#[global] Instance Data_countable : Countable Data.
Proof.
  refine (inj_countable' (λ d, (data_id d, data_name d, data_step d))
                         (λ t, mkData t.1.1 t.1.2 t.2) _).
  by intros [].
Defined.

(** What the orchestrator reads of a step: [name], [inputs], [outputs] and the
    three [hasattr] probes. *)
Record Step := mkStep {
  step_name : string;
  step_inputs : list Data;
  step_outputs : list Data;
  has_fit : bool;
  has_predict : bool;
  has_transform : bool
}.

(** ** Exceptions and warnings *)

Inductive error :=
  | DuplicateStepName (names : list string)  (* RuntimeError, model.py:55 *)
  | CyclicGraph                              (* raised by topological_sort *)
  | MissingInput (names : list string)       (* ValueError, model.py:107 *)
  | ArityMismatch (expected got : nat)       (* ValueError, model.py:162 *)
  | UnknownDataName (name : string)          (* ValueError, model.py:176 *)
  | BadKeyType                               (* ValueError, model.py:134,147 *)
  | UncomputableStep (name : string)         (* TypeError, model.py:235 *)
  | KeyError (d : Data)                      (* a failed [cache[i]] lookup *)
  | RecursionError                           (* the interpreter's recursion limit *)
  | StepRaised (msg : string).               (* raised by a step's own operation *)

(** [warnings.warn(..., RuntimeWarning)] of model.py:96, by the input's name. *)
Inductive warning :=
  | UnusedInput (name : string).

Inductive result (A : Type) :=
  | Ok (a : A)
  | Err (e : error).
Arguments Ok {A} a.
Arguments Err {A} e.

Definition rbind {A B} (c : result A) (k : A → result B) : result B :=
  match c with
  | Ok a => k a
  | Err e => Err e
  end.

Notation "'let*' x ':=' c 'in' k" := (rbind c (λ x, k))
  (at level 10, x pattern, c at level 100, k at level 200).

(** A [for] loop whose body may raise: the accumulator is the loop's state. *)
Fixpoint for_each {A S} (body : S → A → result S) (l : list A) (s : S) : result S :=
  match l with
  | [] => Ok s
  | x :: l' => let* s' := body s x in for_each body l' s'
  end.

(** ** Python dictionaries

    Insertion ordered, keys unique: assigning to a present key replaces the
    value in place, assigning to a new key appends. *)
Section pydict.
Context {K V : Type} `{EqDecision K}.

Definition pydict := list (K * V).

Fixpoint dict_get (d : list (K * V)) (k : K) : option V :=
  match d with
  | [] => None
  | (k', v) :: d' => if decide (k' = k) then Some v else dict_get d' k
  end.

Fixpoint dict_set (k : K) (v : V) (d : list (K * V)) : list (K * V) :=
  match d with
  | [] => [(k, v)]
  | (k', v') :: d' =>
      if decide (k' = k) then (k, v) :: d' else (k', v') :: dict_set k v d'
  end.

Definition dict_keys (d : list (K * V)) : list K := d.*1.

Definition dict_items (d : list (K * V)) : list (K * V) := d.

(** [dict(pairs)] *)
Definition dict_of (pairs : list (K * V)) : list (K * V) :=
  fold_left (λ d kv, dict_set kv.1 kv.2 d) pairs [].

End pydict.

(** ** The directed graph *)

(** Modelled from the spec: [baikal.core.digraph.DiGraph] is not among the
    sources.  The spec (section 6) asks of it: add node (idempotent per node
    identity), add edge, iterate nodes (stable), in-degree of a node, and a
    topological order that fails with a cycle-detected error if none exists.
    Nodes are kept in insertion order; the order is computed by repeatedly
    taking the first remaining node none of whose predecessors remains. *)
Module DiGraph.

Record t := mk {
  nodes : list nat;
  edges : list (nat * nat)
}.

Definition empty : t := mk [] [].

Definition add_node (n : nat) (g : t) : t :=
  if decide (n ∈ nodes g) then g else mk (nodes g ++ [n]) (edges g).

Definition add_edge (u v : nat) (g : t) : t :=
  if decide ((u, v) ∈ edges g) then g else mk (nodes g) (edges g ++ [(u, v)]).

Definition predecessors (g : t) (n : nat) : list nat :=
  (filter (λ e, e.2 = n) (edges g)).*1.

Definition in_degree (g : t) (n : nat) : nat := length (predecessors g n).

(** [n] can be emitted: no edge into it starts at a remaining node. *)
Definition ready (es : list (nat * nat)) (rem : list nat) (n : nat) : Prop :=
  Forall (λ e, e.2 = n → e.1 ∉ rem) es.

#[global] Instance ready_dec es rem n : Decision (ready es rem n).
Proof. unfold ready. apply _. Defined.

Fixpoint sort_from (fuel : nat) (es : list (nat * nat)) (rem : list nat)
  : result (list nat) :=
  match rem, fuel with
  | [], _ => Ok []
  | _, 0 => Err CyclicGraph
  | _, S fuel' =>
      match list_find (ready es rem) rem with
      | None => Err CyclicGraph
      | Some (_, n) =>
          let* rest := sort_from fuel' es (filter (λ x, x ≠ n) rem) in
          Ok (n :: rest)
      end
  end.

Definition topological_sort (g : t) : result (list nat) :=
  sort_from (length (nodes g)) (edges g) (nodes g).

End DiGraph.

(** ** Graph assembly and required-step resolution *)

Section Resolver.

(** The step store: the step instance behind each identity. *)
Variable steps : nat → Step.

(** [collect_steps_from] of [_build_graph] (model.py:31-35).  [depth] is the
    number of nested calls the interpreter still allows. *)
Fixpoint collect_steps_from (depth : nat) (graph : DiGraph.t) (output : Data)
  : result DiGraph.t :=
  match depth with
  | 0 => Err RecursionError
  | S depth' =>
      let parent_step := data_step output in
      let graph := DiGraph.add_node parent_step graph in
      for_each (collect_steps_from depth') (step_inputs (steps parent_step)) graph
  end.

(** model.py:41-43 *)
Definition add_step_edges (graph : DiGraph.t) (step : nat) : DiGraph.t :=
  fold_left (λ g input, DiGraph.add_edge (data_step input) step g)
            (step_inputs (steps step)) graph.

Definition add_edges (graph : DiGraph.t) : DiGraph.t :=
  fold_left add_step_edges (DiGraph.nodes graph) graph.

(** model.py:46-51 *)
Definition count_name (seen_names : list (string * nat)) (name : string)
  : list (string * nat) :=
  match dict_get seen_names name with
  | None => dict_set name 1 seen_names
  | Some count => dict_set name (count + 1) seen_names
  end.

Definition count_names (names : list string) : list (string * nat) :=
  fold_left count_name names [].

(** model.py:52 *)
Definition duplicated_names (seen_names : list (string * nat)) : list string :=
  (filter (λ item, 1 < item.2) (dict_items seen_names)).*1.

Definition node_names (graph : DiGraph.t) : list string :=
  (λ step, step_name (steps step)) <$> DiGraph.nodes graph.

Definition build_graph (depth : nat) (outputs : list Data) : result DiGraph.t :=
  let* graph := for_each (collect_steps_from depth) outputs DiGraph.empty in
  let graph := add_edges graph in
  match duplicated_names (count_names (node_names graph)) with
  | [] => Ok graph
  | dups => Err (DuplicateStepName dups)
  end.

(** [backtrack] of [_get_required_steps] (model.py:74-88).  [inputs_found] is
    the enclosing function's list, threaded through; [all_required_steps] is
    the enclosing function's set, which does not change during one call. *)
Fixpoint backtrack (depth : nat) (inputs : list Data)
    (all_required_steps : gset nat) (inputs_found : list Data) (output : Data)
  : result (gset nat * list Data) :=
  match depth with
  | 0 => Err RecursionError
  | S depth' =>
      if decide (output ∈ inputs) then Ok (∅, inputs_found ++ [output])
      else
        let parent_step := data_step output in
        if decide (parent_step ∈ all_required_steps) then Ok (∅, inputs_found)
        else
          for_each
            (λ '(required_steps, found) input,
               let* (more, found') :=
                 backtrack depth' inputs all_required_steps found input in
               Ok (required_steps ∪ more, found'))
            (step_inputs (steps parent_step))
            ({[parent_step]}, inputs_found)
  end.

(** model.py:90-91 *)
Definition backtrack_all (depth : nat) (inputs outputs : list Data)
  : result (gset nat * list Data) :=
  for_each
    (λ '(all_required_steps, found) output,
       let* (more, found') :=
         backtrack depth inputs all_required_steps found output in
       Ok (all_required_steps ∪ more, found'))
    outputs (∅, []).

(** model.py:94-98 *)
Definition unused_warnings (inputs inputs_found : list Data) : list warning :=
  (λ input, UnusedInput (data_name input))
    <$> filter (λ input, input ∉ inputs_found) inputs.

(** model.py:101-104.  A Python set is iterated in an order the language
    leaves open; [elements] fixes one. *)
Definition missing_inputs (graph : DiGraph.t) (all_required_steps : gset nat)
  : list Data :=
  flat_map (λ step, step_outputs (steps step))
    (filter (λ step, DiGraph.in_degree graph step = 0)
            (elements all_required_steps)).

(** [_get_required_steps] (model.py:62-110): the warnings emitted, and the
    list returned or the exception raised. *)
Definition get_required_steps (depth : nat) (graph : DiGraph.t)
    (inputs outputs : list Data) : list warning * result (list nat) :=
  match DiGraph.topological_sort graph with
  | Err e => ([], Err e)
  | Ok all_steps_sorted =>
      match backtrack_all depth inputs outputs with
      | Err e => ([], Err e)
      | Ok (all_required_steps, inputs_found) =>
          let warns := unused_warnings inputs inputs_found in
          match missing_inputs graph all_required_steps with
          | [] => (warns,
                   Ok (filter (λ step, step ∈ all_required_steps) all_steps_sorted))
          | missing => (warns, Err (MissingInput (data_name <$> missing)))
          end
      end
  end.

(** What [__init__] stores (model.py:21-24). *)
Record Model := mkModel {
  model_inputs : list Data;
  model_outputs : list Data;
  model_graph : DiGraph.t;
  model_steps : list nat
}.

(** [Model.__init__] (model.py:12-24), on arguments that are lists of [Data]. *)
Definition Model_init (depth : nat) (inputs outputs : list Data)
  : list warning * result Model :=
  match build_graph depth outputs with
  | Err e => ([], Err e)
  | Ok graph =>
      let '(warns, r) := get_required_steps depth graph inputs outputs in
      (warns, let* steps := r in Ok (mkModel inputs outputs graph steps))
  end.

End Resolver.

(** ** Values and caller-supplied data *)

(** A Python value as the orchestrator tells them apart: [None], a list, or
    anything else (an array-like payload). *)
#[warnings="-register-all"]
Inductive value (A : Type) :=
  | VNone
  | VArray (a : A)
  | VList (l : list (value A)).
Arguments VNone {A}.
Arguments VArray {A} a.
Arguments VList {A} l.

(** Modelled from the spec: [baikal.core.utils.listify] is not among the
    sources.  Positional data is "a single value or an ordered sequence of
    values" (spec 4.3) and an operation yields "one value or a
    positionally-ordered sequence of values" (spec 6): a list stays as it is,
    any other value becomes the list holding it. *)
Definition listify {A} (x : value A) : list (value A) :=
  match x with
  | VList l => l
  | _ => [x]
  end.

(** The key of a caller's dictionary: a [Data], a [str], or something else. *)
Inductive key :=
  | KData (d : Data)
  | KStr (s : string)
  | KOther.

(** [given_data]: a [dict], or anything else. *)
Inductive given (A : Type) :=
  | GivenDict (items : list (key * value A))
  | GivenValue (v : value A).
Arguments GivenDict {A} items.
Arguments GivenValue {A} v.

(** The [outputs] argument of [predict]: [None] or a value that [listify]
    turns into a list of keys. *)
Definition is_none {A} (x : value A) : bool :=
  match x with
  | VNone => true
  | _ => false
  end.

(** What a step's own operation does: it returns or it raises. *)
Inductive op_outcome (R : Type) :=
  | Returned (r : R)
  | Raised (msg : string).
Arguments Returned {R} r.
Arguments Raised {R} msg.

(** A call of a step's method, with its positional arguments. *)
Inductive event (A : Type) :=
  | CallFit (step : nat) (args : list (value A))
  | CallPredict (step : nat) (args : list (value A))
  | CallTransform (step : nat) (args : list (value A)).
Arguments CallFit {A} step args.
Arguments CallPredict {A} step args.
Arguments CallTransform {A} step args.

(** ** Normalisation (model.py:112-176) *)

Section Normalize.
Context {A : Type}.
Variable steps : nat → Step.

(** [_get_data] (model.py:169-176) *)
Definition get_data (m : Model) (name : string) : result Data :=
  match
    list_find (λ output, data_name output = name)
      (flat_map (λ step, step_outputs (steps step)) (DiGraph.nodes (model_graph m)))
  with
  | Some (_, output) => Ok output
  | None => Err (UnknownDataName name)
  end.

Definition resolve_key (m : Model) (k : key) : result Data :=
  match k with
  | KData d => Ok d
  | KStr name => get_data m name
  | KOther => Err BadKeyType
  end.

(** [_normalize_dict] (model.py:139-150) *)
Definition normalize_dict (m : Model) (data_dict : list (key * value A))
  : result (list (Data * value A)) :=
  for_each
    (λ data_dict_norm item,
       let* k := resolve_key m item.1 in
       Ok (dict_set k item.2 data_dict_norm))
    data_dict [].

(** [_normalize_list] (model.py:152-167) *)
Definition normalize_list (data_list : value A) (dataobjs : list Data)
    (expand_none : bool) : result (list (Data * value A)) :=
  let data_list := listify data_list in
  let data_list :=
    match data_list with
    | [x] => if is_none x && expand_none
             then replicate (length dataobjs) VNone else data_list
    | _ => data_list
    end in
  if decide (length data_list ≠ length dataobjs)
  then Err (ArityMismatch (length dataobjs) (length data_list))
  else Ok (dict_of (zip dataobjs data_list)).

(** [_normalize_given_data] (model.py:112-120) *)
Definition normalize_given_data (m : Model) (given_data : given A) (kind : string)
  : result (list (Data * value A)) :=
  match given_data with
  | GivenDict items => normalize_dict m items
  | GivenValue v =>
      let dataobjs :=
        if decide (kind = "input") then model_inputs m else model_outputs m in
      let expand_none := bool_decide (kind = "target") in
      normalize_list v dataobjs expand_none
  end.

(** [_normalize_required_outputs] (model.py:122-137); [None] when the caller
    passed no [outputs], else the keys of the listified argument. *)
Definition normalize_required_outputs (m : Model) (outputs : option (list key))
  : result (list Data) :=
  match outputs with
  | None => Ok (model_outputs m)
  | Some outputs =>
      for_each
        (λ outputs_norm output,
           let* output := resolve_key m output in
           Ok (outputs_norm ++ [output]))
        outputs []
  end.

End Normalize.

(** ** Execution (model.py:178-237) *)

Section Execution.
Context {A W : Type}.

(** The step store, and the steps' own operations on the state [W] they
    keep between calls. *)
Variable steps : nat → Step.
Variable fit_op : nat → list (value A) → W → W * op_outcome unit.
Variable predict_op : nat → list (value A) → W → W * op_outcome (value A).
Variable transform_op : nat → list (value A) → W → W * op_outcome (value A).

(** What a call leaves behind beside its result: the steps' state, the
    method calls made so far, the warnings emitted so far. *)
Record state := mkState {
  world : W;
  trace : list (event A);
  warned : list warning
}.

Definition M (R : Type) : Type := state → state * result R.

Definition ret {R} (r : R) : M R := λ s, (s, Ok r).

Definition bind {R R'} (c : M R) (k : R → M R') : M R' :=
  λ s, match c s with
       | (s', Ok r) => k r s'
       | (s', Err e) => (s', Err e)
       end.

Notation "x <- c ;; k" := (bind c (λ x, k))
  (at level 100, c at next level, right associativity).

Definition lift {R} (r : result R) : M R := λ s, (s, r).

Definition raise {R} (e : error) : M R := lift (Err e).

Definition warn {R} (wr : list warning * result R) : M R :=
  λ s, (mkState (world s) (trace s) (warned s ++ wr.1), wr.2).

Definition call {R} (ev : event A) (op : W → W * op_outcome R) : M R :=
  λ s, let '(w, o) := op (world s) in
       (mkState w (trace s ++ [ev]) (warned s),
        match o with
        | Returned r => Ok r
        | Raised msg => Err (StepRaised msg)
        end).

Fixpoint for_eachM {X S} (body : S → X → M S) (l : list X) (s : S) : M S :=
  match l with
  | [] => ret s
  | x :: l' => s' <- body s x ;; for_eachM body l' s'
  end.

(** [cache.update(pairs)] *)
Definition cache_update (cache : gmap Data (value A)) (pairs : list (Data * value A))
  : gmap Data (value A) :=
  fold_left (λ c kv, <[kv.1 := kv.2]> c) pairs cache.

(** [[cache[i] for i in step.inputs]] *)
Definition gather (cache : gmap Data (value A)) (slots : list Data)
  : result (list (value A)) :=
  for_each
    (λ Xs i, match cache !! i with
             | Some x => Ok (Xs ++ [x])
             | None => Err (KeyError i)
             end)
    slots [].

(** [_compute_step] (model.py:224-237) *)
Definition compute_step (step : nat) (Xs : list (value A))
    (cache : gmap Data (value A)) : M (gmap Data (value A)) :=
  output_data <-
    (if has_predict (steps step) then call (CallPredict step Xs) (predict_op step Xs)
     else if has_transform (steps step)
          then call (CallTransform step Xs) (transform_op step Xs)
          else raise (UncomputableStep (step_name (steps step)))) ;;
  ret (cache_update cache (zip (step_outputs (steps step)) (listify output_data))).

(** model.py:198 *)
Definition gather_targets (target_data : list (Data * value A)) (outputs : list Data)
  : list (value A) :=
  omap (λ o, match dict_get target_data o with
             | Some y => if is_none y then None else Some y
             | None => None
             end) outputs.

(** The body of the loop of [fit] (model.py:193-202) *)
Definition fit_step (target_data : list (Data * value A))
    (cache : gmap Data (value A)) (step : nat) : M (gmap Data (value A)) :=
  Xs <- lift (gather cache (step_inputs (steps step))) ;;
  _ <- (if has_fit (steps step)
        then let ys := gather_targets target_data (step_outputs (steps step)) in
             call (CallFit step (Xs ++ ys)) (fit_op step (Xs ++ ys))
        else ret ()) ;;
  compute_step step Xs cache.

(** [fit] (model.py:178-202) *)
Definition fit (depth : nat) (m : Model) (input_data target_data : given A) : M unit :=
  input_data <- lift (normalize_given_data steps m input_data "input") ;;
  target_data <- lift (normalize_given_data steps m target_data "target") ;;
  steps_ <- warn (get_required_steps steps depth (model_graph m)
                    (dict_keys input_data) (dict_keys target_data)) ;;
  let cache := cache_update ∅ (dict_items input_data) in
  _ <- for_eachM (fit_step target_data) steps_ cache ;;
  ret ().

(** The body of the loop of [predict] (model.py:213-215) *)
Definition predict_step (cache : gmap Data (value A)) (step : nat)
  : M (gmap Data (value A)) :=
  Xs <- lift (gather cache (step_inputs (steps step))) ;;
  compute_step step Xs cache.

(** [predict] (model.py:204-221) *)
Definition predict (depth : nat) (m : Model) (input_data : given A)
    (outputs : option (list key)) : M (value A) :=
  input_data <- lift (normalize_given_data steps m input_data "input") ;;
  outputs <- lift (normalize_required_outputs steps m outputs) ;;
  steps_ <- warn (get_required_steps steps depth (model_graph m)
                    (dict_keys input_data) outputs) ;;
  let cache := cache_update ∅ (dict_items input_data) in
  cache <- for_eachM predict_step steps_ cache ;;
  output_data <- lift (gather cache outputs) ;;
  match output_data with
  | [x] => ret x
  | _ => ret (VList output_data)
  end.

End Execution.

(** ** The vocabulary of the statements *)

(** [u] stands before [v] in [l]. *)
Definition before {A} (u v : A) (l : list A) : Prop :=
  ∃ l1 l2 l3, l = l1 ++ u :: l2 ++ v :: l3.

Module DiGraphRel.

(** An edge between two nodes of the graph, and a cycle of such edges. *)
Definition edge (g : DiGraph.t) (u v : nat) : Prop :=
  (u, v) ∈ DiGraph.edges g ∧ u ∈ DiGraph.nodes g ∧ v ∈ DiGraph.nodes g.

Definition cyclic (g : DiGraph.t) : Prop := ∃ n, tc (edge g) n n.

End DiGraphRel.

Section Relations.
Variable steps : nat → Step.

(** Step [p] produces a slot that step [s] consumes. *)
Definition feeds (p s : nat) : Prop :=
  ∃ i, i ∈ step_inputs (steps s) ∧ data_step i = p.

(** The steps the collection walk can arrive at from [outputs]. *)
Definition reachable (outputs : list Data) (s : nat) : Prop :=
  ∃ o, o ∈ outputs ∧ rtc (flip feeds) (data_step o) s.

(** The step structure is cyclic at [s]. *)
Definition on_cycle (s : nat) : Prop := tc feeds s s.

(** The step structure is acyclic: producers rank below consumers. *)
Definition ranked (rank : nat → nat) : Prop :=
  ∀ s i, i ∈ step_inputs (steps s) → rank (data_step i) < rank s.

(** Every slot a step consumes is an output of the step that produces it. *)
Definition inputs_owned : Prop :=
  ∀ s i, i ∈ step_inputs (steps s) → i ∈ step_outputs (steps (data_step i)).

Definition owned (d : Data) : Prop := d ∈ step_outputs (steps (data_step d)).

(** One descent of the backtracking: from a slot that was not supplied to
    an input slot of its producing step. *)
Definition descends (inputs : list Data) (o i : Data) : Prop :=
  o ∉ inputs ∧ i ∈ step_inputs (steps (data_step o)).

(** The slots the backtracking from [outputs] arrives at. *)
Definition reached (inputs outputs : list Data) (d : Data) : Prop :=
  ∃ o, o ∈ outputs ∧ rtc (descends inputs) o d.

(** The steps that have to run: producers of reached slots not supplied. *)
Definition required (inputs outputs : list Data) (s : nat) : Prop :=
  ∃ d, reached inputs outputs d ∧ d ∉ inputs ∧ data_step d = s.

End Relations.

(** How often [name] occurs in [names]. *)
Definition occurrences (name : string) (names : list string) : nat :=
  length (filter (λ x, x = name) names).

(** *** Invariants of the two walks *)

Section Invariants.
Variable steps : nat → Step.
Variable inputs : list Data.
Implicit Types (R : gset nat) (F : list Data) (o d i : Data) (s : nat).

(** What a completed walk from the graph [g] leaves in [g']: the edges
    untouched, the old nodes kept, and every new node reachable from a start
    step, with the producers of all its inputs collected too. *)
Definition walked (start : nat → Prop) (g g' : DiGraph.t) : Prop :=
  DiGraph.edges g' = DiGraph.edges g ∧
  (NoDup (DiGraph.nodes g) → NoDup (DiGraph.nodes g')) ∧
  (∀ s, s ∈ DiGraph.nodes g → s ∈ DiGraph.nodes g') ∧
  (∀ s, s ∈ DiGraph.nodes g' → s ∈ DiGraph.nodes g ∨
     ((∃ s0, start s0 ∧ rtc (flip (feeds steps)) s0 s) ∧
      ∀ i, i ∈ step_inputs (steps s) → data_step i ∈ DiGraph.nodes g')).

(** Slot [d] is accounted for: found among the inputs, or its producer is
    in the set. *)
Definition covered R F d : Prop :=
  (d ∈ inputs ∧ d ∈ F) ∨ (d ∉ inputs ∧ data_step d ∈ R).

Definition closed R F s : Prop :=
  ∀ i, i ∈ step_inputs (steps s) → covered R F i.

(** What one call of [backtrack] on [o] returns. *)
Definition backtrack_post R0 F0 o R' F' : Prop :=
  (∃ F1, F' = F0 ++ F1 ∧ ∀ d, d ∈ F1 → d ∈ inputs ∧ rtc (descends steps inputs) o d) ∧
  (∀ s, s ∈ R' → ∃ d, rtc (descends steps inputs) o d ∧ d ∉ inputs ∧ data_step d = s) ∧
  (∀ s, s ∈ R' → closed (R0 ∪ R') F' s) ∧
  covered (R0 ∪ R') F' o.

(** The body of the loop over [parent_step.inputs] in [backtrack]. *)
Definition backtrack_body depth R0 :=
  (λ '(required_steps, found) input,
     let* (more, found') := backtrack steps depth inputs R0 found input in
     Ok (required_steps ∪ more, found')).

End Invariants.

(** *** Calls and their traces *)

Section CallVocabulary.
Context {A W : Type}.
Variable steps : nat → Step.
Variable predict_op : nat → list (value A) → W → W * op_outcome (value A).
Variable transform_op : nat → list (value A) → W → W * op_outcome (value A).

(** A computing operation yields at least one value for each output slot of
    its step. *)
Definition yields_all_outputs
    (op : nat → list (value A) → W → W * op_outcome (value A)) : Prop :=
  ∀ s Xs w w' y, op s Xs w = (w', Returned y) →
                 length (step_outputs (steps s)) ≤ length (listify y).

(** The computing method [_compute_step] calls on a step that has one. *)
Definition computing_call (s : nat) (Xs : list (value A)) : event A :=
  if has_predict (steps s) then CallPredict s Xs else CallTransform s Xs.

(** The output slot [o] has a target that is there and is not [None]. *)
Definition has_target (target_data : list (Data * value A)) (o : Data) : bool :=
  match dict_get target_data o with
  | Some y => negb (is_none y)
  | None => false
  end.

(** The targets for the slots [outputs], in their order, of those that
    have one. *)
Definition supplied_targets (target_data : list (Data * value A))
    (outputs : list Data) : list (value A) :=
  (λ o, default VNone (dict_get target_data o))
    <$> filter (λ o, has_target target_data o = true) outputs.

(** The part of [_compute_step] before the cache is touched: the call, and
    the pairs the cache is then updated with. *)
Definition compute_pairs (s : nat) (Xs : list (value A))
  : M (W := W) (list (Data * value A)) :=
  bind (if has_predict (steps s) then call (CallPredict s Xs) (predict_op s Xs)
        else if has_transform (steps s)
             then call (CallTransform s Xs) (transform_op s Xs)
             else raise (UncomputableStep (step_name (steps s))))
       (λ output_data, ret (zip (step_outputs (steps s)) (listify output_data))).

(** The method calls of one iteration of the loop of [fit] that completes:
    the training call if the step can train, then the computing call. *)
Definition step_calls (target_data : list (Data * value A)) (s : nat)
    (Xs : list (value A)) : list (event A) :=
  (if has_fit (steps s)
   then [CallFit s (Xs ++ supplied_targets target_data (step_outputs (steps s)))]
   else []) ++ [computing_call s Xs].

(** The steps computed in a trace, in order. *)
Definition computed_steps (t : list (event A)) : list nat :=
  omap (λ ev, match ev with
              | CallFit _ _ => None
              | CallPredict s _ | CallTransform s _ => Some s
              end) t.

(** Two caches that differ at most at the slot [u]. *)
Definition agree_off (u : Data) (cache cache' : gmap Data (value A)) : Prop :=
  ∀ k, k ≠ u → cache !! k = cache' !! k.

(** [listify(x)] is the list holding a single [None]. *)
Definition single_none (data_list : list (value A)) : bool :=
  match data_list with
  | [x] => is_none x
  | _ => false
  end.

End CallVocabulary.

Section LoopVocabulary.
Context {A W : Type}.
Variable steps : nat → Step.

(** A loop body that, run on a cache holding the inputs of its step, fails
    with no [KeyError] or returns a cache that has kept its slots and has
    gained the outputs of the step. *)
Definition keeps_cache
    (body : gmap Data (value A) → nat → M (A := A) (W := W) (gmap Data (value A)))
  : Prop :=
  ∀ cache s st st' r,
    (∀ i, i ∈ step_inputs (steps s) → is_Some (cache !! i)) →
    body cache s st = (st', r) →
    match r with
    | Ok cache' =>
        (∀ k, is_Some (cache !! k) → is_Some (cache' !! k)) ∧
        (∀ k, k ∈ step_outputs (steps s) → is_Some (cache' !! k))
    | Err e => ∀ d, e ≠ KeyError d
    end.

(** Two outcomes of a loop body that agree: the same error, or caches that
    differ at most at [u]. *)
Definition outcomes_agree (u : Data) (r r' : result (gmap Data (value A))) : Prop :=
  match r, r' with
  | Ok cache, Ok cache' => agree_off u cache cache'
  | Err e, Err e' => e = e'
  | _, _ => False
  end.

(** A loop body that reads the cache at the inputs of its step only, and
    the state at the steps' state and the calls only: on caches that differ
    at most at a slot [u] that is no input of the step it does the same, and
    it leaves the warnings alone. *)
Definition cache_blind
    (body : gmap Data (value A) → nat → M (A := A) (W := W) (gmap Data (value A)))
  : Prop :=
  ∀ u cache cache' s st st2,
    agree_off u cache cache' →
    (∀ i, i ∈ step_inputs (steps s) → i ≠ u) →
    world st = world st2 → trace st = trace st2 →
    world (body cache s st).1 = world (body cache' s st2).1 ∧
    trace (body cache s st).1 = trace (body cache' s st2).1 ∧
    warned (body cache s st).1 = warned st ∧
    outcomes_agree u (body cache s st).2 (body cache' s st2).2.

End LoopVocabulary.

(** *** Names, keys and runs *)

Section NameVocabulary.
Context {A : Type}.
Variable steps : nat → Step.

(** The output slots of the graph's nodes, in the order [_get_data] scans
    them: node by node, and within a node in the order of its outputs. *)
Definition graph_slots (m : Model) : list Data :=
  flat_map (λ step, step_outputs (steps step)) (DiGraph.nodes (model_graph m)).

(** The key [k] of a caller's dictionary or list is accepted. *)
Definition resolves (m : Model) (k : key) : Prop :=
  ∃ d, resolve_key steps m k = Ok d.

(** The key [k] stands for the slot [d]. *)
Definition stands_for (m : Model) (d : Data) (k : key) : bool :=
  match resolve_key steps m k with
  | Ok d' => bool_decide (d' = d)
  | Err _ => false
  end.

(** The values a caller's dictionary holds under keys that stand for [d],
    in the order of the dictionary. *)
Definition values_for (m : Model) (d : Data) (items : list (key * value A))
  : list (value A) :=
  (filter (λ item, stands_for m d item.1 = true) items).*2.

(** Why a key is refused: it is neither a slot nor a string, or it is a
    string that names no output slot of the graph. *)
Definition refused (m : Model) (k : key) (e : error) : Prop :=
  (k = KOther ∧ e = BadKeyType) ∨
  (∃ name, k = KStr name ∧ e = UnknownDataName name ∧
           ∀ d, d ∈ graph_slots m → data_name d ≠ name).

(** Two entries of caller's dictionaries that say the same: keys that
    resolve alike, and the same value. *)
Definition same_entry (m : Model) (item item' : key * value A) : Prop :=
  resolve_key steps m item.1 = resolve_key steps m item'.1 ∧ item.2 = item'.2.

(** Two keys that stand for one slot of the graph: the same key, or the
    slot and its name. *)
Inductive same_slot (m : Model) : key → key → Prop :=
  | same_key k : same_slot m k k
  | slot_then_name d :
      d ∈ graph_slots m → same_slot m (KData d) (KStr (data_name d))
  | name_then_slot d :
      d ∈ graph_slots m → same_slot m (KStr (data_name d)) (KData d).

(** Two data arguments that differ in the writing of keys only: the same
    positional data, or dictionaries whose entries, one by one, have keys
    for the same slot and the same value. *)
Definition same_data (m : Model) (data data' : given A) : Prop :=
  match data, data' with
  | GivenValue v, GivenValue v' => v = v'
  | GivenDict items, GivenDict items' =>
      Forall2 (λ item item', same_slot m item.1 item'.1 ∧ item.2 = item'.2)
              items items'
  | _, _ => False
  end.

(** Two [outputs] arguments that differ in the writing of keys only. *)
Definition same_outputs (m : Model) (outputs outputs' : option (list key)) : Prop :=
  match outputs, outputs' with
  | None, None => True
  | Some ks, Some ks' => Forall2 (same_slot m) ks ks'
  | _, _ => False
  end.

End NameVocabulary.

Section RunVocabulary.
Context {A W : Type}.
Variable steps : nat → Step.
Variable predict_op : nat → list (value A) → W → W * op_outcome (value A).
Variable transform_op : nat → list (value A) → W → W * op_outcome (value A).

(** The step has a method [_compute_step] can call. *)
Definition computable (s : nat) : bool :=
  has_predict (steps s) || has_transform (steps s).

(** The operation behind that method: [predict] if the step has it, else
    [transform]. *)
Definition computing_op (s : nat) : list (value A) → W → W * op_outcome (value A) :=
  if has_predict (steps s) then predict_op s else transform_op s.

(** What [predict] hands back for the values of the requested outputs
    (model.py:218-221). *)
Definition return_shape (output_data : list (value A)) : value A :=
  match output_data with
  | [x] => x
  | _ => VList output_data
  end.

(** An operation that leaves the steps' state as it found it. *)
Definition stateless (op : nat → list (value A) → W → W * op_outcome (value A)) : Prop :=
  ∀ s Xs w, (op s Xs w).1 = w.

End RunVocabulary.

(** ** Concrete step stores *)

(** The diamond of the spec's scenarios: A emits x; B and C consume x and
    emit y and z; D consumes y and z and emits w. *)
Module Diamond.

Definition x : Data := mkData 0 "x" 0.
Definition y : Data := mkData 1 "y" 1.
Definition z : Data := mkData 2 "z" 2.
Definition w : Data := mkData 3 "w" 3.

Definition steps (s : nat) : Step :=
  match s with
  | 0 => mkStep "A" [] [x] false false false
  | 1 => mkStep "B" [x] [y] true false true
  | 2 => mkStep "C" [x] [z] true true false
  | 3 => mkStep "D" [y; z] [w] true true false
  | _ => mkStep "" [] [] false false false
  end.

(** Every input's producer has a smaller identity. *)
Definition rank (s : nat) : nat := s.

Definition arr (v : value Z) : Z :=
  match v with
  | VArray a => a
  | _ => 0
  end.

(** B adds one, C doubles, D adds its two inputs; fitting is counted. *)
Definition predict_op (s : nat) (Xs : list (value Z)) (n : nat)
  : nat * op_outcome (value Z) :=
  match s with
  | 1 => (n, Returned (VArray (foldr Z.add 1%Z (arr <$> Xs))))
  | 2 => (n, Returned (VArray (foldr Z.add 0%Z (arr <$> Xs) * 2)%Z))
  | _ => (n, Returned (VArray (foldr Z.add 0%Z (arr <$> Xs))))
  end.

Definition fit_op (s : nat) (args : list (value Z)) (n : nat)
  : nat * op_outcome unit :=
  (S n, Returned ()).

Definition init : state (A := Z) (W := nat) := mkState 0 [] [].

(** The model with input x and output w, as [Model_init] builds it. *)
Definition model : Model :=
  mkModel [x] [w] (DiGraph.mk [3; 1; 0; 2] [(1, 3); (2, 3); (0, 1); (0, 2)]) [1; 2; 3].

End Diamond.

(** Two steps that consume each other's output. *)
Module Loop.

Definition a : Data := mkData 0 "a" 0.
Definition b : Data := mkData 1 "b" 1.

Definition steps (s : nat) : Step :=
  match s with
  | 0 => mkStep "P" [b] [a] false true false
  | 1 => mkStep "Q" [a] [b] false true false
  | _ => mkStep "" [] [] false false false
  end.

(** A graph with the two edges of that cycle. *)
Definition graph : DiGraph.t := DiGraph.mk [0; 1] [(0, 1); (1, 0)].
End Loop.

(** A step with two outputs whose operation yields one value. *)
Module Short.

Definition x : Data := mkData 0 "x" 0.
Definition y1 : Data := mkData 1 "y1" 1.
Definition y2 : Data := mkData 2 "y2" 1.
Definition z : Data := mkData 3 "z" 2.

Definition steps (s : nat) : Step :=
  match s with
  | 0 => mkStep "I" [] [x] false false false
  | 1 => mkStep "B" [x] [y1; y2] false true false
  | 2 => mkStep "C" [y2] [z] false true false
  | _ => mkStep "" [] [] false false false
  end.

Definition predict_op (s : nat) (Xs : list (value Z)) (n : nat)
  : nat * op_outcome (value Z) :=
  (n, Returned (VArray 1%Z)).

Definition model : Model :=
  mkModel [x] [z] (DiGraph.mk [2; 1; 0] [(1, 2); (0, 1)]) [1; 2].

End Short.

(** Two steps of the same name in a chain. *)
Module Twins.

Definition x : Data := mkData 0 "x" 0.
Definition y : Data := mkData 1 "y" 1.
Definition z : Data := mkData 2 "z" 2.

Definition steps (s : nat) : Step :=
  match s with
  | 0 => mkStep "in" [] [x] false false false
  | 1 => mkStep "S" [x] [y] false true false
  | 2 => mkStep "S" [y] [z] false true false
  | _ => mkStep "" [] [] false false false
  end.

End Twins.

(** * Properties *)

(** ** Order in a list *)

Section before.
Context {A : Type}.
Implicit Types (u v w : A) (l : list A).

Lemma before_cons x u v l : before u v l → before u v (x :: l).
Proof. intros (l1 & l2 & l3 & ->). by exists (x :: l1), l2, l3. Qed.

Lemma before_head u v l : v ∈ l → before u v (u :: l).
Proof.
  intros (l2 & l3 & ->)%list_elem_of_split. by exists [], l2, l3.
Qed.

Lemma before_elem_of u v l : before u v l → u ∈ l ∧ v ∈ l.
Proof. intros (l1 & l2 & l3 & ->). set_solver. Qed.

Lemma before_filter (P : A → Prop) `{!∀ x, Decision (P x)} u v l :
  P u → P v → before u v l → before u v (filter P l).
Proof.
  intros Hu Hv (l1 & l2 & l3 & ->).
  exists (filter P l1), (filter P l2), (filter P l3).
  rewrite filter_app, filter_cons_True, filter_app, filter_cons_True; done.
Qed.

Lemma before_irrefl u l : NoDup l → ¬ before u u l.
Proof.
  intros Hnd (l1 & l2 & l3 & ->).
  apply NoDup_app in Hnd as (_ & _ & Hnd).
  apply NoDup_cons in Hnd as [Hu _]. set_solver.
Qed.

Lemma NoDup_split_unique v (p q p' q' : list A) :
  NoDup (p ++ v :: q) → p ++ v :: q = p' ++ v :: q' → p = p' ∧ q = q'.
Proof.
  revert p'. induction p as [|a p IHp]; intros p' Hnd Heq; destruct p' as [|b p'];
    simpl in *.
  - by inversion Heq.
  - inversion Heq; subst. apply NoDup_cons in Hnd as [Hv _]. set_solver.
  - inversion Heq; subst. apply NoDup_cons in Hnd as [Hv _]. set_solver.
  - inversion Heq; subst. apply NoDup_cons in Hnd as [_ Hnd].
    by destruct (IHp p' Hnd) as [-> ->].
Qed.

Lemma before_trans u v w l :
  NoDup l → before u v l → before v w l → before u w l.
Proof.
  intros Hnd (l1 & l2 & l3 & ->) (k1 & k2 & k3 & Heq).
  assert (Heq' : (l1 ++ u :: l2) ++ v :: l3 = k1 ++ v :: k2 ++ w :: k3)
    by (by rewrite <-app_assoc).
  apply NoDup_split_unique in Heq' as [_ ->]; [|by rewrite <-app_assoc].
  exists l1, (l2 ++ v :: k2), k3. by rewrite <-!app_assoc.
Qed.

End before.

Module DiGraphFacts.
Import DiGraph DiGraphRel.

Lemma sort_from_cons fuel es a rem :
  sort_from (S fuel) es (a :: rem) =
  match list_find (ready es (a :: rem)) (a :: rem) with
  | None => Err CyclicGraph
  | Some (_, n) =>
      let* rest := sort_from fuel es (filter (λ x, x ≠ n) (a :: rem)) in
      Ok (n :: rest)
  end.
Proof. reflexivity. Qed.

Lemma sort_from_error fuel es rem e :
  sort_from fuel es rem = Err e → e = CyclicGraph.
Proof.
  revert rem. induction fuel as [|fuel IH]; intros [|a rem] H;
    try (simpl in H; congruence).
  rewrite sort_from_cons in H.
  destruct (list_find _ _) as [[i n]|]; [|congruence].
  destruct (sort_from fuel es _) eqn:Hrest; simpl in H; [congruence|].
  inversion H; subst. eauto.
Qed.

Lemma filter_ne_length (n : nat) (rem : list nat) :
  n ∈ rem → length (filter (λ x, x ≠ n) rem) < length rem.
Proof.
  induction 1 as [x l|x y l _ IH].
  - rewrite filter_cons_False by (intros ?; done). simpl.
    pose proof (length_filter (λ x0, x0 ≠ x) l). lia.
  - rewrite filter_cons. destruct (decide (y ≠ x)); simpl; lia.
Qed.

Lemma sort_from_sound fuel es rem l :
  length rem ≤ fuel →
  sort_from fuel es rem = Ok l →
  (∀ x, x ∈ l ↔ x ∈ rem) ∧ NoDup l ∧
  (∀ u v, (u, v) ∈ es → u ∈ rem → v ∈ l → before u v l).
Proof.
  assert (Hnil : ∀ l', Ok [] = Ok l' →
    (∀ x : nat, x ∈ l' ↔ x ∈ @nil nat) ∧ NoDup l' ∧
    (∀ u v, (u, v) ∈ es → u ∈ @nil nat → v ∈ l' → before u v l')).
  { intros l' [= <-]. split_and!; [done|constructor|set_solver]. }
  revert rem l. induction fuel as [|fuel IH]; intros [|a rem] l Hlen H;
    [by apply Hnil|simpl in Hlen; lia|by apply Hnil|].
  rewrite sort_from_cons in H.
  destruct (list_find _ _) as [[i n]|] eqn:Hfind; [|done].
  apply list_find_Some in Hfind as (Hin%list_elem_of_lookup_2 & Hready & _).
  destruct (sort_from fuel es _) as [rest|] eqn:Hrest; simplify_eq/=.
  apply IH in Hrest as (Hmem & Hnd & Hord).
  2:{ pose proof (filter_ne_length n (a :: rem) Hin). simpl in *. lia. }
  assert (Hrest_in : ∀ x, x ∈ rest ↔ x ∈ a :: rem ∧ x ≠ n).
  { intros x. rewrite Hmem, list_elem_of_filter. tauto. }
  split_and!.
  - intros x. rewrite elem_of_cons, Hrest_in.
    destruct (decide (x = n)) as [->|]; naive_solver.
  - constructor; [|done]. rewrite Hrest_in. naive_solver.
  - intros u v Huv Hu Hv.
    apply elem_of_cons in Hv as [->|Hv].
    { exfalso. unfold ready in Hready. rewrite Forall_forall in Hready.
      by apply (Hready _ Huv). }
    destruct (decide (u = n)) as [->|Hne].
    + by apply before_head.
    + apply before_cons, Hord; [done| |done].
      apply list_elem_of_filter. done.
Qed.
Lemma topological_sort_sound g l :
  topological_sort g = Ok l →
  (∀ x, x ∈ l ↔ x ∈ nodes g) ∧ NoDup l ∧
  (∀ u v, (u, v) ∈ edges g → u ∈ nodes g → v ∈ nodes g → before u v l).
Proof.
  intros H. apply sort_from_sound in H as (Hmem & Hnd & Hord); [|done].
  split_and!; [done..|]. intros u v Huv Hu Hv. apply Hord; [done..|].
  by apply Hmem.
Qed.

Lemma topological_sort_error g e :
  topological_sort g = Err e → e = CyclicGraph.
Proof. apply sort_from_error. Qed.

Lemma tc_edge_before g l u v :
  topological_sort g = Ok l → tc (edge g) u v → before u v l.
Proof.
  intros H. destruct (topological_sort_sound _ _ H) as (_ & Hnd & Hord).
  induction 1 as [u v (Huv & Hu & Hv)|u w v (Huw & Hu & Hw) _ IH].
  - by apply Hord.
  - eapply before_trans; [done| |done]. by apply Hord.
Qed.

Lemma topological_sort_cyclic g :
  cyclic g → topological_sort g = Err CyclicGraph.
Proof.
  intros [n Hn]. destruct (topological_sort g) as [l|e] eqn:H.
  - exfalso. destruct (topological_sort_sound _ _ H) as (_ & Hnd & _).
    eapply before_irrefl; [done|]. by eapply tc_edge_before.
  - by rewrite (topological_sort_error _ _ H).
Qed.

(** A non-empty list has an element of least rank. *)
Lemma least_rank (rank : nat → nat) (l : list nat) :
  l ≠ [] → ∃ n, n ∈ l ∧ ∀ m, m ∈ l → rank n ≤ rank m.
Proof.
  induction l as [|a l IH]; [done|intros _].
  destruct l as [|b l].
  { exists a. set_solver. }
  destruct IH as (n & Hn & Hmin); [done|].
  destruct (decide (rank a ≤ rank n)).
  - exists a. split; [set_solver|]. intros m [->|Hm]%elem_of_cons; [done|].
    specialize (Hmin m Hm). lia.
  - exists n. split; [set_solver|]. intros m [->|Hm]%elem_of_cons; [lia|].
    by apply Hmin.
Qed.

Lemma sort_from_complete (rank : nat → nat) fuel es rem :
  (∀ u v, (u, v) ∈ es → u ∈ rem → v ∈ rem → rank u < rank v) →
  length rem ≤ fuel →
  ∃ l, sort_from fuel es rem = Ok l.
Proof.
  revert rem. induction fuel as [|fuel IH]; intros [|a rem] Hrank Hlen;
    [by eexists|simpl in Hlen; lia|by eexists|].
  rewrite sort_from_cons.
  destruct (least_rank rank (a :: rem)) as (n & Hn & Hmin); [done|].
  assert (Hready : ready es (a :: rem) n).
  { apply Forall_forall. intros [u v] Huv ? Hu; simplify_eq/=.
    specialize (Hrank _ _ Huv Hu Hn). specialize (Hmin _ Hu). lia. }
  destruct (list_find_elem_of (ready es (a :: rem)) _ _ Hn Hready) as [[i n'] Hfind].
  rewrite Hfind.
  apply list_find_Some in Hfind as (Hin%list_elem_of_lookup_2 & _ & _).
  destruct (IH (filter (λ x, x ≠ n') (a :: rem))) as [rest ->].
  - intros u v Huv [_ Hu]%list_elem_of_filter [_ Hv]%list_elem_of_filter. eauto.
  - pose proof (filter_ne_length n' (a :: rem) Hin). simpl in *. lia.
  - by eexists.
Qed.

Lemma topological_sort_complete (rank : nat → nat) g :
  (∀ u v, (u, v) ∈ edges g → u ∈ nodes g → v ∈ nodes g → rank u < rank v) →
  ∃ l, topological_sort g = Ok l.
Proof. intros H. by eapply sort_from_complete. Qed.

End DiGraphFacts.

(** ** Loops and dictionaries *)

Section for_each_facts.
Context {A S : Type}.
Implicit Types (body : S → A → result S).

Lemma for_each_app body l1 l2 s :
  for_each body (l1 ++ l2) s = let* s' := for_each body l1 s in for_each body l2 s'.
Proof.
  revert s. induction l1 as [|x l1 IH]; intros s; simpl; [done|].
  destruct (body s x); simpl; [apply IH|done].
Qed.

(** An invariant of the state holds after the loop if every iteration keeps it. *)
Lemma for_each_invariant (I : list A → S → Prop) body l s s' :
  I [] s →
  (∀ done x s1 s2, I done s1 → x ∈ l → body s1 x = Ok s2 → I (done ++ [x]) s2) →
  for_each body l s = Ok s' → I l s'.
Proof.
  intros H0 Hstep. 
  assert (Hgen : ∀ rest done s, I done s → (∀ x, x ∈ rest → x ∈ l) →
            for_each body rest s = Ok s' → I (done ++ rest) s').
  { induction rest as [|x rest IH]; intros done s1 HI Hsub Hrun; simpl in Hrun.
    - rewrite app_nil_r. by simplify_eq.
    - destruct (body s1 x) as [s2|] eqn:Hb; simplify_eq/=.
      replace (done ++ x :: rest) with ((done ++ [x]) ++ rest)
        by (by rewrite <-app_assoc).
      eapply IH; [|set_solver|done]. eapply Hstep; [done|set_solver|done]. }
  intros Hrun. by apply (Hgen l [] s).
Qed.

End for_each_facts.

Section pydict_facts.
Context {K V : Type} `{EqDecision K}.
Implicit Types (d : list (K * V)) (k : K) (v : V).

Lemma dict_get_set d k v k' :
  dict_get (dict_set k v d) k' = if decide (k = k') then Some v else dict_get d k'.
Proof.
  induction d as [|[k0 v0] d IH]; csimpl.
  - by destruct (decide (k = k')).
  - destruct (decide (k0 = k)) as [->|Hne]; csimpl.
    + destruct (decide (k = k')); done.
    + destruct (decide (k0 = k')) as [->|]; csimpl.
      * by destruct (decide (k = k')); [simplify_eq|].
      * done.
Qed.

Lemma dict_get_None d k : dict_get d k = None ↔ k ∉ dict_keys d.
Proof.
  unfold dict_keys. induction d as [|[k0 v0] d IH]; csimpl.
  - set_solver.
  - destruct (decide (k0 = k)) as [->|]; [set_solver|].
    rewrite IH. set_solver.
Qed.

Lemma dict_get_Some_elem_of d k v : dict_get d k = Some v → (k, v) ∈ d.
Proof.
  induction d as [|[k0 v0] d IH]; csimpl; [done|].
  destruct (decide (k0 = k)) as [->|]; [intros [= ->]; left|right; auto].
Qed.

Lemma dict_get_elem_of d k v :
  NoDup (dict_keys d) → (k, v) ∈ d → dict_get d k = Some v.
Proof.
  unfold dict_keys. induction d as [|[k0 v0] d IH]; csimpl; [set_solver|].
  intros [Hk0 Hnd]%NoDup_cons [[= -> ->]|Hin]%elem_of_cons.
  - by destruct (decide (k0 = k0)).
  - destruct (decide (k0 = k)) as [->|]; [|by apply IH]. destruct Hk0.
    apply list_elem_of_fmap. by exists (k, v).
Qed.

Lemma dict_keys_set d k v :
  dict_keys (dict_set k v d) =
  if decide (k ∈ dict_keys d) then dict_keys d else dict_keys d ++ [k].
Proof.
  unfold dict_keys. induction d as [|[k0 v0] d IH]; csimpl.
  - destruct (decide (k ∈ [])); [set_solver|done].
  - destruct (decide (k0 = k)) as [->|Hne]; csimpl.
    + clear IH. case_decide; [done|set_solver].
    + rewrite IH. repeat case_decide; set_solver.
Qed.

Lemma dict_keys_set_elem_of d k v k' :
  k' ∈ dict_keys (dict_set k v d) ↔ k' = k ∨ k' ∈ dict_keys d.
Proof. rewrite dict_keys_set. case_decide; set_solver. Qed.

Lemma dict_keys_set_NoDup d k v :
  NoDup (dict_keys d) → NoDup (dict_keys (dict_set k v d)).
Proof.
  intros Hnd. rewrite dict_keys_set. case_decide; [done|].
  apply NoDup_app. split_and!; [done|set_solver|apply NoDup_singleton].
Qed.

Lemma dict_of_snoc (pairs : list (K * V)) k v :
  dict_of (pairs ++ [(k, v)]) = dict_set k v (dict_of pairs).
Proof. unfold dict_of. by rewrite fold_left_app. Qed.

Lemma dict_of_NoDup (pairs : list (K * V)) : NoDup (dict_keys (dict_of pairs)).
Proof.
  induction pairs as [|[k v] pairs IH] using rev_ind; [constructor|].
  rewrite dict_of_snoc. by apply dict_keys_set_NoDup.
Qed.

Lemma dict_of_keys_elem_of (pairs : list (K * V)) k :
  k ∈ dict_keys (dict_of pairs) ↔ k ∈ pairs.*1.
Proof.
  induction pairs as [|[k0 v] pairs IH] using rev_ind; [done|].
  rewrite dict_of_snoc, dict_keys_set_elem_of, IH, fmap_app. set_solver.
Qed.

(** With distinct keys, [dict(pairs)] is [pairs]. *)
Lemma dict_of_NoDup_id (pairs : list (K * V)) :
  NoDup pairs.*1 → dict_of pairs = pairs.
Proof.
  induction pairs as [|[k v] pairs IH] using rev_ind; [done|].
  rewrite fmap_app. intros (Hnd & Hk & _)%NoDup_app.
  rewrite dict_of_snoc, IH by done. clear IH.
  assert (Hk' : k ∉ pairs.*1) by (intros ?; eapply Hk; [done|set_solver]).
  clear Hk Hnd. induction pairs as [|[k0 v0] pairs IH]; csimpl; [done|].
  destruct (decide (k0 = k)); [set_solver|]. f_equal. apply IH. set_solver.
Qed.

End pydict_facts.

(** ** Graph assembly *)

Section Assembly.
Variable steps : nat → Step.
Import DiGraph.

Lemma add_node_nodes n g x : x ∈ nodes (add_node n g) ↔ x = n ∨ x ∈ nodes g.
Proof. unfold add_node. case_decide; simpl; set_solver. Qed.

Lemma add_node_edges n g : edges (add_node n g) = edges g.
Proof. unfold add_node. by case_decide. Qed.

Lemma add_node_NoDup n g : NoDup (nodes g) → NoDup (nodes (add_node n g)).
Proof.
  intros Hnd. unfold add_node. case_decide; simpl; [done|].
  apply NoDup_app. split_and!; [done|set_solver|apply NoDup_singleton].
Qed.

Lemma add_edge_nodes u v g : nodes (add_edge u v g) = nodes g.
Proof. unfold add_edge. by case_decide. Qed.

Lemma add_edge_edges u v g e : e ∈ edges (add_edge u v g) ↔ e = (u, v) ∨ e ∈ edges g.
Proof. unfold add_edge. case_decide; simpl; set_solver. Qed.

Lemma walked_refl start g : walked steps start g g.
Proof. split_and!; auto. Qed.

Lemma walked_trans (P Q R : nat → Prop) g1 g2 g3 :
  (∀ s, P s → R s) → (∀ s, Q s → R s) →
  walked steps P g1 g2 → walked steps Q g2 g3 → walked steps R g1 g3.
Proof.
  intros HP HQ (He1 & Hnd1 & Hsub1 & Hnew1) (He2 & Hnd2 & Hsub2 & Hnew2).
  split_and!; [congruence|auto|auto|].
  intros s Hs. destruct (Hnew2 s Hs) as [Hs2|[(s0 & Hs0 & Hreach) Hcl]].
  - destruct (Hnew1 s Hs2) as [?|[(s0 & Hs0 & Hreach) Hcl]]; [by left|right].
    split; [by eauto|]. intros i Hi. by apply Hsub2, Hcl.
  - right. split; [by eauto|done].
Qed.

Lemma collect_walked depth g o g' :
  collect_steps_from steps depth g o = Ok g' →
  walked steps (λ s, s = data_step o) g g' ∧ data_step o ∈ nodes g'.
Proof.
  revert g o g'. induction depth as [|depth IH]; intros g o g' H; [done|].
  simpl in H.
  set (p := data_step o) in *. set (g1 := add_node p g) in *.
  assert (Hloop : ∀ l g2 g3,
    for_each (collect_steps_from steps depth) l g2 = Ok g3 →
    walked steps (λ s, ∃ i, i ∈ l ∧ data_step i = s) g2 g3 ∧
    ∀ i, i ∈ l → data_step i ∈ nodes g3).
  { induction l as [|i l IHl]; intros g2 g3 Hl; simpl in Hl.
    - simplify_eq. split; [apply walked_refl|set_solver].
    - destruct (collect_steps_from steps depth g2 i) as [g2'|] eqn:Hi; simplify_eq/=.
      apply IH in Hi as [Hw1 Hin1]. apply IHl in Hl as [Hw2 Hin2].
      split.
      + eapply walked_trans; [| |exact Hw1|exact Hw2]; set_solver.
      + intros j [->|Hj]%elem_of_cons; [|auto].
        destruct Hw2 as (_ & _ & Hsub & _). auto. }
  apply Hloop in H as [(He & Hnd & Hsub & Hnew) Hin].
  split.
  - split_and!.
    + rewrite He. apply add_node_edges.
    + intros ?. by apply Hnd, add_node_NoDup.
    + intros s Hs. apply Hsub, add_node_nodes. by right.
    + intros s Hs. destruct (Hnew s Hs) as [[->|?]%add_node_nodes|[(s0 & (i & Hi & <-) & Hreach) Hcl]].
      * right. split; [by exists p|]. auto.
      * by left.
      * right. split; [|done]. exists p. split; [done|].
        eapply rtc_l; [|done]. by exists i.
  - apply Hsub, add_node_nodes. by left.
Qed.

Lemma collect_all_walked depth outputs g g' :
  for_each (collect_steps_from steps depth) outputs g = Ok g' →
  walked steps (λ s, ∃ o, o ∈ outputs ∧ data_step o = s) g g' ∧
  ∀ o, o ∈ outputs → data_step o ∈ nodes g'.
Proof.
  revert g g'. induction outputs as [|o l IHl]; intros g2 g3 Hl; simpl in Hl.
  - simplify_eq. split; [apply walked_refl|set_solver].
  - destruct (collect_steps_from steps depth g2 o) as [g2'|] eqn:Hi; simplify_eq/=.
    apply collect_walked in Hi as [Hw1 Hin1]. apply IHl in Hl as [Hw2 Hin2].
    split.
    + eapply walked_trans; [| |exact Hw1|exact Hw2]; set_solver.
    + intros j [->|Hj]%elem_of_cons; [|auto].
      destruct Hw2 as (_ & _ & Hsub & _). auto.
Qed.

(** The nodes collected from the empty graph are the reachable steps. *)
Lemma collect_nodes depth outputs g :
  for_each (collect_steps_from steps depth) outputs empty = Ok g →
  edges g = [] ∧ NoDup (nodes g) ∧ ∀ s, s ∈ nodes g ↔ reachable steps outputs s.
Proof.
  intros [(He & Hnd & _ & Hnew) Hin]%collect_all_walked.
  split_and!; [done|apply Hnd; constructor|].
  intros s. split.
  - intros Hs. destruct (Hnew s Hs) as [[]%elem_of_nil|[(s0 & (o & Ho & <-) & Hr) _]].
    by exists o.
  - intros (o & Ho & Hr). apply Hin in Ho. revert Ho.
    induction Hr as [|s1 s2 s3 (i & Hi & <-) _ IH]; [done|].
    intros Hs1. apply IH. destruct (Hnew _ Hs1) as [[]%elem_of_nil|[_ Hcl]]. auto.
Qed.

Lemma add_step_edges_spec g s :
  nodes (add_step_edges steps g s) = nodes g ∧
  ∀ u v, (u, v) ∈ edges (add_step_edges steps g s) ↔
         (u, v) ∈ edges g ∨ (v = s ∧ feeds steps u s).
Proof.
  unfold add_step_edges, feeds.
  generalize (step_inputs (steps s)) as l. intros l. revert g.
  induction l as [|i l IH] using rev_ind; intros g; simpl.
  - split; [done|]. intros u v. setoid_rewrite elem_of_nil. naive_solver.
  - rewrite fold_left_app. simpl. destruct (IH g) as [Hn He].
    split; [by rewrite add_edge_nodes|].
    intros u v. rewrite add_edge_edges, He.
    setoid_rewrite elem_of_app. setoid_rewrite list_elem_of_singleton.
    naive_solver.
Qed.

Lemma add_edges_fold l g :
  nodes (fold_left (add_step_edges steps) l g) = nodes g ∧
  ∀ u v, (u, v) ∈ edges (fold_left (add_step_edges steps) l g) ↔
         (u, v) ∈ edges g ∨ (v ∈ l ∧ feeds steps u v).
Proof.
  induction l as [|s l IH] using rev_ind; simpl.
  - split; [done|]. intros u v. rewrite elem_of_nil. naive_solver.
  - rewrite fold_left_app. simpl. destruct IH as [Hn He].
    destruct (add_step_edges_spec (fold_left (add_step_edges steps) l g) s) as [Hn' He'].
    split; [congruence|].
    intros u v. rewrite He', He.
    rewrite elem_of_app, list_elem_of_singleton. naive_solver.
Qed.

Lemma add_edges_spec g :
  nodes (add_edges steps g) = nodes g ∧
  ∀ u v, (u, v) ∈ edges (add_edges steps g) ↔
         (u, v) ∈ edges g ∨ (v ∈ nodes g ∧ feeds steps u v).
Proof. apply add_edges_fold. Qed.

End Assembly.

(** ** Counting names *)

Section Names.

Lemma occurrences_snoc name names x :
  occurrences name (names ++ [x]) =
  occurrences name names + (if decide (x = name) then 1 else 0).
Proof.
  unfold occurrences. rewrite filter_app, length_app. f_equal.
  rewrite filter_cons, filter_nil. by case_decide.
Qed.

Lemma count_names_snoc names x :
  count_names (names ++ [x]) = count_name (count_names names) x.
Proof. unfold count_names. by rewrite fold_left_app. Qed.

Lemma count_names_spec names :
  NoDup (dict_keys (count_names names)) ∧
  ∀ name, dict_get (count_names names) name =
          if decide (occurrences name names = 0) then None
          else Some (occurrences name names).
Proof.
  induction names as [|x names [IHnd IH]] using rev_ind.
  - split; [constructor|done].
  - rewrite count_names_snoc. unfold count_name. split.
    + destruct (dict_get _ x); by apply dict_keys_set_NoDup.
    + intros name. rewrite occurrences_snoc. pose proof (IH x) as Hx.
      destruct (dict_get (count_names names) x) as [c|] eqn:Hget;
        rewrite dict_get_set, IH; repeat case_decide; simplify_eq; try done; try lia.
      all: try (f_equal; lia).
Qed.

Lemma duplicated_names_spec names :
  NoDup (duplicated_names (count_names names)) ∧
  ∀ name, name ∈ duplicated_names (count_names names) ↔ 2 ≤ occurrences name names.
Proof.
  destruct (count_names_spec names) as [Hnd Hget].
  unfold duplicated_names, dict_items. split.
  - eapply sublist_NoDup; [exact Hnd|]. unfold dict_keys.
    apply fmap_sublist, sublist_filter.
  - intros name. rewrite list_elem_of_fmap. split.
    + intros ([n c] & -> & [Hc Hin]%list_elem_of_filter). simpl in *.
      apply dict_get_elem_of in Hin; [|done]. rewrite Hget in Hin.
      case_decide; simplify_eq. lia.
    + intros Hocc. exists (name, occurrences name names). split; [done|].
      apply list_elem_of_filter. split; [simpl; lia|].
      apply dict_get_Some_elem_of. rewrite Hget. case_decide; [lia|done].
Qed.

(** A name occurs twice among the names of distinct steps exactly when two
    of the steps carry it. *)
Lemma occurrences_fmap (f : nat → string) (l : list nat) name :
  NoDup l →
  2 ≤ occurrences name (f <$> l) ↔
  ∃ s1 s2, s1 ∈ l ∧ s2 ∈ l ∧ s1 ≠ s2 ∧ f s1 = name ∧ f s2 = name.
Proof.
  unfold occurrences.
  assert (Hone : ∀ l', 1 ≤ length (filter (λ x, x = name) (f <$> l')) ↔
                       ∃ s, s ∈ l' ∧ f s = name).
  { intros l'. induction l' as [|a l' IH]; csimpl.
    - split; [simpl; lia|]. intros (? & []%elem_of_nil & _).
    - rewrite filter_cons. case_decide; simpl.
      + split; [|lia]. intros _. exists a. split; [left|done].
      + rewrite IH. setoid_rewrite elem_of_cons. naive_solver. }
  induction l as [|a l IH]; intros Hnd; csimpl.
  - split; [simpl; lia|]. intros (? & ? & []%elem_of_nil & _).
  - apply NoDup_cons in Hnd as [Ha Hnd]. rewrite filter_cons.
    case_decide as Hfa; simpl.
    + rewrite <-Nat.succ_le_mono, Hone. split.
      * intros (s & Hs & Hfs). exists a, s.
        split_and!; [left|by right| |done..]. intros ->. done.
      * intros (s1 & s2 & [->|H1]%elem_of_cons & [->|H2]%elem_of_cons & Hne & H1' & H2');
          [done|by exists s2|by exists s1|by exists s1].
    + rewrite IH by done. split.
      * intros (s1 & s2 & H1 & H2 & Hrest). exists s1, s2.
        split_and!; [by right|by right|apply Hrest..].
      * intros (s1 & s2 & [->|H1]%elem_of_cons & [->|H2]%elem_of_cons & Hne & H1' & H2');
          try done. by exists s1, s2.
Qed.

End Names.

Section Build.
Variable steps : nat → Step.
Import DiGraph.

(** What [_build_graph] returns when it returns. *)
Lemma build_graph_Ok depth outputs g :
  build_graph steps depth outputs = Ok g →
  NoDup (nodes g) ∧
  (∀ s, s ∈ nodes g ↔ reachable steps outputs s) ∧
  (∀ u v, (u, v) ∈ edges g ↔ v ∈ nodes g ∧ feeds steps u v).
Proof.
  unfold build_graph. intros H.
  destruct (for_each _ outputs empty) as [g0|] eqn:Hwalk; simplify_eq/=.
  destruct (duplicated_names _); simplify_eq.
  apply collect_nodes in Hwalk as (He & Hnd & Hn).
  destruct (add_edges_spec steps g0) as [Hn' He'].
  rewrite Hn'. split_and!; [done..|].
  intros u v. rewrite He', He, elem_of_nil. naive_solver.
Qed.

(** In the graph of a model, the producers of a node's inputs are nodes. *)
Lemma build_graph_closed depth outputs g s p :
  build_graph steps depth outputs = Ok g →
  s ∈ nodes g → feeds steps p s → p ∈ nodes g.
Proof.
  intros (_ & Hn & _)%build_graph_Ok. rewrite !Hn.
  intros (o & Ho & Hr) Hp. exists o. split; [done|].
  eapply rtc_r; [done|]. done.
Qed.

(** With producers ranked below consumers, the walk ends within the depth
    the ranks allow. *)
Lemma collect_total rank depth g o :
  ranked steps rank → rank (data_step o) < depth →
  ∃ g', collect_steps_from steps depth g o = Ok g'.
Proof.
  intros Hrank. revert g o. induction depth as [|depth IH]; intros g o Ho; [lia|].
  simpl.
  assert (Hin : ∀ i, i ∈ step_inputs (steps (data_step o)) → rank (data_step i) < depth).
  { intros i Hi. specialize (Hrank _ _ Hi). lia. }
  revert Hin. generalize (add_node (data_step o) g) as g1.
  generalize (step_inputs (steps (data_step o))) as l.
  induction l as [|i l IHl]; intros g1 Hin; simpl; [by eexists|].
  destruct (IH g1 i) as [g2 ->]; [apply Hin; left|]. simpl.
  apply IHl. intros j Hj. apply Hin. by right.
Qed.

Lemma collect_all_total rank depth outputs g :
  ranked steps rank → (∀ o, o ∈ outputs → rank (data_step o) < depth) →
  ∃ g', for_each (collect_steps_from steps depth) outputs g = Ok g'.
Proof.
  intros Hrank. revert g. induction outputs as [|o l IHl]; intros g Hout; simpl;
    [by eexists|].
  destruct (collect_total rank depth g o) as [g2 ->]; [done|apply Hout; left|].
  simpl. apply IHl. intros j Hj. apply Hout. by right.
Qed.

Lemma collect_error depth g o e :
  collect_steps_from steps depth g o = Err e → e = RecursionError.
Proof.
  revert g o. induction depth as [|depth IH]; intros g o H; simpl in H; [congruence|].
  revert H. generalize (add_node (data_step o) g) as g1.
  generalize (step_inputs (steps (data_step o))) as l.
  induction l as [|i l IHl]; intros g1 H; simpl in H; [done|].
  destruct (collect_steps_from steps depth g1 i) eqn:Hi; simpl in H; [eauto|].
  simplify_eq. eauto.
Qed.

Lemma tc_last {X} (R : relation X) x z : tc R x z → ∃ y, rtc R x y ∧ R y z.
Proof.
  induction 1 as [x z Hxz|x y z Hxy _ (y' & Hyy' & Hy'z)].
  - by exists x.
  - exists y'. split; [by eapply rtc_l|done].
Qed.

(** On a cyclic step structure the walk exhausts every depth. *)
Lemma collect_on_cycle depth g o :
  on_cycle steps (data_step o) →
  collect_steps_from steps depth g o = Err RecursionError.
Proof.
  revert g o. induction depth as [|depth IH]; intros g o Hcyc; [done|].
  simpl.
  assert (∃ i, i ∈ step_inputs (steps (data_step o)) ∧ on_cycle steps (data_step i))
    as (i & Hi & Hicyc).
  { apply tc_last in Hcyc as (p & Hrtc & (i & Hi & <-)).
    exists i. split; [done|]. eapply tc_rtc_r; [|exact Hrtc].
    apply tc_once. by exists i. }
  revert Hi. generalize (add_node (data_step o) g) as g1.
  generalize (step_inputs (steps (data_step o))) as l.
  induction l as [|j l IHl]; intros g1 Hi; simpl; [by apply elem_of_nil in Hi|].
  destruct (collect_steps_from steps depth g1 j) as [g2|e] eqn:Hj; simpl.
  - apply elem_of_cons in Hi as [->|Hi]; [|by apply IHl].
    rewrite IH in Hj by done. done.
  - by rewrite (collect_error _ _ _ _ Hj).
Qed.

End Build.

(** ** Backtracking *)

Section Backtrack.
Variable steps : nat → Step.
Variable inputs : list Data.
Implicit Types (R : gset nat) (F : list Data) (o d i : Data) (s : nat).

Abbreviation desc := (descends steps inputs).

Lemma covered_mono R F R' F' d :
  R ⊆ R' → (∀ x, x ∈ F → x ∈ F') → covered inputs R F d → covered inputs R' F' d.
Proof. unfold covered. set_solver. Qed.

Lemma closed_mono R F R' F' s :
  R ⊆ R' → (∀ x, x ∈ F → x ∈ F') → closed steps inputs R F s → closed steps inputs R' F' s.
Proof. unfold closed. eauto using covered_mono. Qed.

Lemma backtrack_unfold depth R0 F0 o :
  backtrack steps (S depth) inputs R0 F0 o =
  if decide (o ∈ inputs) then Ok (∅, F0 ++ [o])
  else if decide (data_step o ∈ R0) then Ok (∅, F0)
  else for_each (backtrack_body steps inputs depth R0) (step_inputs (steps (data_step o)))
                ({[data_step o]}, F0).
Proof. reflexivity. Qed.

Lemma backtrack_loop_spec depth R0 :
  (∀ F0 o R' F', backtrack steps depth inputs R0 F0 o = Ok (R', F') →
                 backtrack_post steps inputs R0 F0 o R' F') →
  ∀ l acc Fa R' F',
    for_each (backtrack_body steps inputs depth R0) l (acc, Fa) = Ok (R', F') →
    acc ⊆ R' ∧
    (∃ F1, F' = Fa ++ F1 ∧ ∀ d, d ∈ F1 → d ∈ inputs ∧ ∃ i, i ∈ l ∧ rtc desc i d) ∧
    (∀ s, s ∈ R' → s ∈ acc ∨
       ∃ i d, i ∈ l ∧ rtc desc i d ∧ d ∉ inputs ∧ data_step d = s) ∧
    (∀ s, s ∈ R' → s ∈ acc ∨ closed steps inputs (R0 ∪ R') F' s) ∧
    (∀ i, i ∈ l → covered inputs (R0 ∪ R') F' i).
Proof.
  intros IH. induction l as [|i l IHl]; intros acc Fa R' F' H; simpl in H.
  - simplify_eq. split_and!; [done| |auto|auto|by intros ? ?%elem_of_nil].
    exists []. split; [by rewrite app_nil_r|by intros ? ?%elem_of_nil].
  - destruct (backtrack steps depth inputs R0 Fa i) as [[more F1]|] eqn:Hi;
      simplify_eq/=.
    apply IH in Hi as ((Fi & -> & HFi) & Hsound & Hclosed & Hcov).
    apply IHl in H as (Hsub & (Fl & -> & HFl) & Hsound' & Hclosed' & Hcov').
    assert (Hmore : R0 ∪ more ⊆ R0 ∪ R') by set_solver.
    assert (HF : ∀ x, x ∈ Fa ++ Fi → x ∈ (Fa ++ Fi) ++ Fl) by set_solver.
    split_and!.
    + set_solver.
    + exists (Fi ++ Fl). split; [by rewrite app_assoc|].
      intros d [Hd|Hd]%elem_of_app.
      * destruct (HFi d Hd). split; [done|]. exists i. split; [left|done].
      * destruct (HFl d Hd) as (? & j & ? & ?). split; [done|].
        exists j. split; [by right|done].
    + intros s Hs. destruct (Hsound' s Hs) as [[?|Hm]%elem_of_union|(j & d & ? & ?)].
      * by left.
      * right. destruct (Hsound s Hm) as (d & ? & ? & ?). exists i, d.
        split_and!; [left|done..].
      * right. exists j, d. split; [by right|done].
    + intros s Hs. destruct (Hclosed' s Hs) as [[?|Hm]%elem_of_union|?].
      * by left.
      * right. eapply closed_mono; [exact Hmore|exact HF|]. by apply Hclosed.
      * by right.
    + intros j [->|Hj]%elem_of_cons; [|by apply Hcov'].
      eapply covered_mono; [exact Hmore|exact HF|done].
Qed.

Lemma backtrack_spec depth R0 F0 o R' F' :
  backtrack steps depth inputs R0 F0 o = Ok (R', F') →
  backtrack_post steps inputs R0 F0 o R' F'.
Proof.
  revert F0 o R' F'. induction depth as [|depth IH]; intros F0 o R' F' H; [done|].
  rewrite backtrack_unfold in H.
  destruct (decide (o ∈ inputs)) as [Hin|Hin]; [|destruct (decide (data_step o ∈ R0)) as [Hp|Hp]].
  - simplify_eq. split_and!.
    + exists [o]. split; [done|]. by intros d ->%list_elem_of_singleton.
    + set_solver.
    + set_solver.
    + left. set_solver.
  - simplify_eq. split_and!.
    + exists []. split; [by rewrite app_nil_r|set_solver].
    + set_solver.
    + set_solver.
    + right. set_solver.
  - apply (backtrack_loop_spec _ _ (IH)) in H
      as (Hsub & (F1 & -> & HF1) & Hsound & Hclosed & Hcov).
    assert (Hdesc : ∀ i, i ∈ step_inputs (steps (data_step o)) → desc o i) by done.
    split_and!.
    + exists F1. split; [done|]. intros d Hd. destruct (HF1 d Hd) as (? & i & ? & ?).
      split; [done|]. eapply rtc_l; [by apply Hdesc|done].
    + intros s Hs. destruct (Hsound s Hs) as [->%elem_of_singleton|(i & d & ? & ? & ? & ?)].
      * by exists o.
      * exists d. split; [|done]. eapply rtc_l; [by apply Hdesc|done].
    + intros s Hs. destruct (Hclosed s Hs) as [->%elem_of_singleton|?]; [|done].
      intros i Hi. by apply Hcov.
    + right. split; [done|]. set_solver.
Qed.

Lemma backtrack_error depth R0 F0 o e :
  backtrack steps depth inputs R0 F0 o = Err e → e = RecursionError.
Proof.
  revert F0 o. induction depth as [|depth IH]; intros F0 o H; [by simplify_eq/=|].
  rewrite backtrack_unfold in H. repeat case_decide; try done.
  revert H. generalize ({[data_step o]} : gset nat) as acc.
  generalize (step_inputs (steps (data_step o))) as l. revert F0.
  intros F0 l. revert F0.
  induction l as [|i l IHl]; intros F0 acc H; simpl in H; [done|].
  destruct (backtrack steps depth inputs R0 F0 i) as [[more F1]|] eqn:Hi;
    simplify_eq/=; eauto.
Qed.

(** With producers ranked below consumers, [backtrack] returns within the
    depth the ranks allow. *)
Lemma backtrack_total rank depth R0 F0 o :
  ranked steps rank → rank (data_step o) < depth →
  ∃ r, backtrack steps depth inputs R0 F0 o = Ok r.
Proof.
  intros Hrank. revert F0 o. induction depth as [|depth IH]; intros F0 o Ho; [lia|].
  rewrite backtrack_unfold. repeat case_decide; [by eexists..|].
  assert (Hin : ∀ i, i ∈ step_inputs (steps (data_step o)) → rank (data_step i) < depth).
  { intros i Hi. specialize (Hrank _ _ Hi). lia. }
  revert Hin. generalize ({[data_step o]} : gset nat) as acc.
  generalize (step_inputs (steps (data_step o))) as l. intros l. revert F0.
  induction l as [|i l IHl]; intros F0 acc Hin; simpl; [by eexists|].
  destruct (IH F0 i) as [[more F1] ->]; [apply Hin; left|]. simpl.
  apply IHl. intros j Hj. apply Hin. by right.
Qed.

End Backtrack.

Section BacktrackAll.
Variable steps : nat → Step.
Implicit Types (inputs outputs : list Data) (R : gset nat) (F : list Data).

Lemma reached_mono inputs outputs outputs' d :
  (∀ o, o ∈ outputs → o ∈ outputs') →
  reached steps inputs outputs d → reached steps inputs outputs' d.
Proof. intros Hsub (o & Ho & Hr). exists o. auto. Qed.

Lemma required_mono inputs outputs outputs' s :
  (∀ o, o ∈ outputs → o ∈ outputs') →
  required steps inputs outputs s → required steps inputs outputs' s.
Proof. intros Hsub (d & Hd & ?). exists d. eauto using reached_mono. Qed.

Lemma backtrack_all_spec depth inputs outputs R F :
  backtrack_all steps depth inputs outputs = Ok (R, F) →
  (∀ s, s ∈ R ↔ required steps inputs outputs s) ∧
  (∀ d, d ∈ F ↔ reached steps inputs outputs d ∧ d ∈ inputs) ∧
  (∀ s, s ∈ R → closed steps inputs R F s).
Proof.
  intros H.
  pose (I := λ (seen : list Data) (st : gset nat * list Data),
    (∀ s, s ∈ st.1 → closed steps inputs st.1 st.2 s) ∧
    (∀ o, o ∈ seen → covered inputs st.1 st.2 o) ∧
    (∀ s, s ∈ st.1 → required steps inputs seen s) ∧
    (∀ d, d ∈ st.2 → d ∈ inputs ∧ reached steps inputs seen d)).
  assert (HI : I outputs (R, F)).
  { eapply (for_each_invariant I); [| |exact H].
    - unfold I. simpl. set_solver.
    - intros seen o [Ra Fa] [Ra' Fa'] (Hcl & Hcov & Hsound & Hfound) _ Hb.
      simpl in *.
      destruct (backtrack steps depth inputs Ra Fa o) as [[more F1]|] eqn:Ho;
        simplify_eq/=.
      apply backtrack_spec in Ho as ((Fn & -> & HFn) & Hs & Hc & Hco).
      assert (HF : ∀ x, x ∈ Fa → x ∈ Fa ++ Fn) by set_solver.
      assert (Hall : Ra ⊆ Ra ∪ more) by set_solver.
      split_and!; simpl.
      + intros s [Hs'|Hs']%elem_of_union; [|by apply Hc].
        eapply closed_mono; [exact Hall|exact HF|by apply Hcl].
      + intros o' [Ho'| ->%list_elem_of_singleton]%elem_of_app; [|done].
        eapply covered_mono; [exact Hall|exact HF|by apply Hcov].
      + intros s [Hs'|Hs']%elem_of_union.
        * eapply required_mono; [|by apply Hsound]. set_solver.
        * destruct (Hs s Hs') as (d & ? & ? & ?). exists d. split; [|done].
          exists o. split; [set_solver|done].
      + intros d [Hd|Hd]%elem_of_app.
        * destruct (Hfound d Hd). split; [done|].
          eapply reached_mono; [|done]. set_solver.
        * destruct (HFn d Hd). split; [done|]. exists o. split; [set_solver|done]. }
  destruct HI as (Hcl & Hcov & Hsound & Hfound). simpl in *.
  assert (Hcomplete : ∀ d, reached steps inputs outputs d → covered inputs R F d).
  { intros d (o & Ho & Hr). revert d Hr. apply rtc_ind_r; [auto|].
    intros d i Hr [Hno Hi] IH.
    destruct IH as [[? _]|[_ Hp]]; [done|]. by apply (Hcl _ Hp). }
  split_and!; [|  |done].
  - intros s. split; [by apply Hsound|].
    intros (d & Hd & Hno & <-). by destruct (Hcomplete d Hd) as [[? _]|[_ ?]].
  - intros d. split; [intros Hd; by destruct (Hfound d Hd)|].
    intros [Hd Hin]. by destruct (Hcomplete d Hd) as [[_ ?]|[? _]].
Qed.

Lemma backtrack_all_error depth inputs outputs e :
  backtrack_all steps depth inputs outputs = Err e → e = RecursionError.
Proof.
  unfold backtrack_all. generalize (∅ : gset nat, @nil Data) as st.
  induction outputs as [|o l IHl]; intros [Ra Fa] H; simpl in H; [done|].
  destruct (backtrack steps depth inputs Ra Fa o) as [[more F1]|] eqn:Ho;
    simplify_eq/=; eauto using backtrack_error.
Qed.

Lemma backtrack_all_total rank depth inputs outputs :
  ranked steps rank → (∀ o, o ∈ outputs → rank (data_step o) < depth) →
  ∃ r, backtrack_all steps depth inputs outputs = Ok r.
Proof.
  intros Hrank. unfold backtrack_all. generalize (∅ : gset nat, @nil Data) as st.
  induction outputs as [|o l IHl]; intros [Ra Fa] Hout; simpl; [by eexists|].
  destruct (backtrack_total steps inputs rank depth Ra Fa o) as [[more F1] ->];
    [done|apply Hout; left|].
  simpl. apply IHl. intros j Hj. apply Hout. by right.
Qed.

End BacktrackAll.

(** ** Required-step resolution *)

Lemma elem_of_flat_map {A B} (f : A → list B) (l : list A) (y : B) :
  y ∈ flat_map f l ↔ ∃ x, x ∈ l ∧ y ∈ f x.
Proof.
  induction l as [|a l IH]; simpl.
  - split; [by intros ?%elem_of_nil|by intros (? & ?%elem_of_nil & _)].
  - rewrite elem_of_app, IH. setoid_rewrite elem_of_cons. naive_solver.
Qed.

Section Resolution.
Variable steps : nat → Step.
Implicit Types (inputs outputs : list Data) (g : DiGraph.t).

Lemma get_required_steps_Ok depth g inputs outputs ws l :
  get_required_steps steps depth g inputs outputs = (ws, Ok l) →
  ∃ all_steps_sorted R F,
    DiGraph.topological_sort g = Ok all_steps_sorted ∧
    backtrack_all steps depth inputs outputs = Ok (R, F) ∧
    missing_inputs steps g R = [] ∧
    ws = unused_warnings inputs F ∧
    l = filter (λ s, s ∈ R) all_steps_sorted.
Proof.
  unfold get_required_steps. intros H.
  destruct (DiGraph.topological_sort g) as [sorted|]; [|by simplify_eq].
  destruct (backtrack_all steps depth inputs outputs) as [[R F]|]; [|by simplify_eq].
  destruct (missing_inputs steps g R) eqn:Hmiss; simplify_eq.
  by exists sorted, R, F.
Qed.

Lemma missing_inputs_elem_of g (R : gset nat) d :
  d ∈ missing_inputs steps g R ↔
  ∃ s, s ∈ R ∧ DiGraph.in_degree g s = 0 ∧ d ∈ step_outputs (steps s).
Proof.
  unfold missing_inputs. rewrite elem_of_flat_map.
  setoid_rewrite list_elem_of_filter. setoid_rewrite elem_of_elements.
  naive_solver.
Qed.

(** In the graph of a model a node with incoming edges only is a node. *)
Lemma in_degree_pos_node depth0 outs g s :
  build_graph steps depth0 outs = Ok g →
  DiGraph.in_degree g s ≠ 0 → s ∈ DiGraph.nodes g.
Proof.
  intros (_ & _ & He)%build_graph_Ok Hdeg.
  unfold DiGraph.in_degree, DiGraph.predecessors in Hdeg.
  rewrite length_fmap in Hdeg.
  destruct (filter _ (DiGraph.edges g)) as [|[u v] rest] eqn:Hf; [done|].
  assert (Huv : (u, v) ∈ filter (λ e, e.2 = s) (DiGraph.edges g))
    by (rewrite Hf; left).
  apply list_elem_of_filter in Huv as [Hv Huv]. simpl in Hv. subst v.
  by apply He in Huv as [? _].
Qed.

End Resolution.

Section Totality.
Variable steps : nat → Step.

(** On an acyclic step structure, within the recursion depth, the
    resolution on the graph of a model returns a list or raises
    MissingInput: neither the recursion limit nor a cycle is met. *)
Lemma get_required_steps_total rank depth0 outs g depth inputs outputs :
  ranked steps rank →
  build_graph steps depth0 outs = Ok g →
  (∀ o, o ∈ outputs → rank (data_step o) < depth) →
  ∃ ws r, get_required_steps steps depth g inputs outputs = (ws, r) ∧
          ((∃ l, r = Ok l) ∨ (∃ names, r = Err (MissingInput names))).
Proof.
  intros Hrank Hg Hdepth. unfold get_required_steps.
  destruct (build_graph_Ok _ _ _ _ Hg) as (_ & _ & He).
  destruct (DiGraphFacts.topological_sort_complete rank g) as [sorted ->].
  { intros u v [_ (i & Hi & <-)]%He _ _. by apply Hrank. }
  destruct (backtrack_all_total steps rank depth inputs outputs Hrank Hdepth)
    as [[R F] ->].
  destruct (missing_inputs steps g R); eauto 8.
Qed.

End Totality.

Section C1.
Variable steps : nat → Step.

(** The required steps of a model's graph in its topological order: they
    stand once each, each input of one of them is supplied or produced by
    another of them, and producers stand before consumers. *)
Lemma required_steps_in_order depth0 outs g depth inputs outputs sorted
    (R : gset nat) F :
  build_graph steps depth0 outs = Ok g →
  DiGraph.topological_sort g = Ok sorted →
  backtrack_all steps depth inputs outputs = Ok (R, F) →
  NoDup (filter (λ s, s ∈ R) sorted) ∧
  ∀ s i, s ∈ filter (λ s, s ∈ R) sorted → i ∈ step_inputs (steps s) →
    (i ∈ inputs ∨ data_step i ∈ filter (λ s, s ∈ R) sorted) ∧
    (data_step i ∈ filter (λ s, s ∈ R) sorted →
     before (data_step i) s (filter (λ s, s ∈ R) sorted)).
Proof.
  intros Hg Hsort Hbt.
  destruct (DiGraphFacts.topological_sort_sound _ _ Hsort) as (Hmem & Hnd & Hord).
  destruct (backtrack_all_spec _ _ _ _ _ _ Hbt) as (_ & _ & Hcl).
  destruct (build_graph_Ok _ _ _ _ Hg) as (_ & _ & He).
  split; [by apply NoDup_filter|].
  intros s i [Hs Hsn]%list_elem_of_filter Hi.
  assert (Hp : data_step i ∈ DiGraph.nodes g).
  { eapply build_graph_closed; [done|by apply Hmem|by exists i]. }
  split.
  - destruct (Hcl s Hs i Hi) as [[? _]|[_ ?]]; [by left|right].
    apply list_elem_of_filter. split; [done|by apply Hmem].
  - intros [Hpr _]%list_elem_of_filter.
    apply before_filter; [done..|]. apply Hord; [|done|by apply Hmem].
    apply He. split; [by apply Hmem|by exists i].
Qed.

(** C1: in the graph of a model, a successful resolution returns the
    required steps filtered out of the graph's topological order: the list
    is that order restricted to the steps that have to run, every input of a
    returned step is supplied or produced by a returned step, and a producer
    that is returned stands before its consumer. *)
Theorem resolve_topological_order depth0 outs g depth inputs outputs ws l :
  build_graph steps depth0 outs = Ok g →
  get_required_steps steps depth g inputs outputs = (ws, Ok l) →
  ∃ all_steps_sorted (R : gset nat),
    DiGraph.topological_sort g = Ok all_steps_sorted ∧
    (∀ s, s ∈ R ↔ required steps inputs outputs s) ∧
    l = filter (λ s, s ∈ R) all_steps_sorted ∧
    NoDup l ∧
    ∀ s i, s ∈ l → i ∈ step_inputs (steps s) →
      (i ∈ inputs ∨ data_step i ∈ l) ∧
      (data_step i ∈ l → before (data_step i) s l).
Proof.
  unfold get_required_steps. intros Hg Hres.
  destruct (DiGraph.topological_sort g) as [sorted|] eqn:Hsort; [|by simplify_eq].
  destruct (backtrack_all steps depth inputs outputs) as [[R F]|] eqn:Hbt;
    [|by simplify_eq].
  destruct (missing_inputs steps g R); simplify_eq.
  exists sorted, R.
  destruct (backtrack_all_spec _ _ _ _ _ _ Hbt) as (HR & _ & _).
  destruct (required_steps_in_order _ _ _ _ _ _ _ _ _ Hg Hsort Hbt) as [Hnd Hl].
  by split_and!.
Qed.

End C1.

Lemma resolve_topological_order_witness :
  ∃ all_steps_sorted (R : gset nat),
    DiGraph.topological_sort (DiGraph.mk [3; 1; 0; 2] [(1, 3); (2, 3); (0, 1); (0, 2)])
      = Ok all_steps_sorted ∧
    (∀ s, s ∈ R ↔ required Diamond.steps [Diamond.x] [Diamond.w] s) ∧
    [1; 2; 3] = filter (λ s, s ∈ R) all_steps_sorted ∧
    NoDup [1; 2; 3] ∧
    ∀ s i, s ∈ [1; 2; 3] → i ∈ step_inputs (Diamond.steps s) →
      (i ∈ [Diamond.x] ∨ data_step i ∈ [1; 2; 3]) ∧
      (data_step i ∈ [1; 2; 3] → before (data_step i) s [1; 2; 3]).
Proof.
  apply (resolve_topological_order Diamond.steps 10 [Diamond.w] _ 10 _ _ []).
  - vm_compute. reflexivity.
  - vm_compute. reflexivity.
Defined.

(** ** Calls that stop at resolution *)

Section Model_facts.
Variable steps : nat → Step.

Lemma Model_init_Ok depth0 ins outs ws0 m :
  Model_init steps depth0 ins outs = (ws0, Ok m) →
  model_inputs m = ins ∧ model_outputs m = outs ∧
  build_graph steps depth0 outs = Ok (model_graph m) ∧
  get_required_steps steps depth0 (model_graph m) ins outs = (ws0, Ok (model_steps m)).
Proof.
  unfold Model_init. intros H.
  destruct (build_graph steps depth0 outs) as [g|]; [|by simplify_eq].
  destruct (get_required_steps steps depth0 g ins outs) as [ws [l|]] eqn:Hr;
    simplify_eq/=. done.
Qed.

End Model_facts.

Section Calls.
Context {A W : Type}.
Variable steps : nat → Step.
Variable fit_op : nat → list (value A) → W → W * op_outcome unit.
Variable predict_op : nat → list (value A) → W → W * op_outcome (value A).
Variable transform_op : nat → list (value A) → W → W * op_outcome (value A).

Abbreviation predict' := (predict steps predict_op transform_op).
Abbreviation fit' := (fit steps fit_op predict_op transform_op).

(** A call whose resolution raises: the warnings of the resolution are
    emitted, no method of a step is called. *)
Lemma predict_resolution_error depth m input_data outs_arg N outputs ws e
    (st : state (A := A) (W := W)) :
  normalize_given_data steps m input_data "input" = Ok N →
  normalize_required_outputs steps m outs_arg = Ok outputs →
  get_required_steps steps depth (model_graph m) (dict_keys N) outputs = (ws, Err e) →
  predict' depth m input_data outs_arg st =
    (mkState (world st) (trace st) (warned st ++ ws), Err e).
Proof.
  intros HN Hout Hres. unfold predict, bind, lift, warn.
  rewrite HN, Hout, Hres. done.
Qed.

Lemma fit_resolution_error depth m input_data target_data N T ws e
    (st : state (A := A) (W := W)) :
  normalize_given_data steps m input_data "input" = Ok N →
  normalize_given_data steps m target_data "target" = Ok T →
  get_required_steps steps depth (model_graph m) (dict_keys N) (dict_keys T) = (ws, Err e) →
  fit' depth m input_data target_data st =
    (mkState (world st) (trace st) (warned st ++ ws), Err e).
Proof.
  intros HN HT Hres. unfold fit, bind, lift, warn.
  rewrite HN, HT, Hres. done.
Qed.

(** C2: in the graph of a model, when the backtracking arrives at a slot
    that was not supplied and whose producing step has in-degree zero, the
    resolution raises MissingInput; the one error names that slot, and
    altogether the output slots of every required step of in-degree zero;
    [predict] and [fit] then end with that error and have called no
    method of any step. *)
Theorem missing_input_is_fatal rank depth0 ins outs ws0 m depth inputs outputs o :
  ranked steps rank →
  Model_init steps depth0 ins outs = (ws0, Ok m) →
  (∀ o', o' ∈ outputs → rank (data_step o') < depth) →
  reached steps inputs outputs o → o ∉ inputs → owned steps o →
  DiGraph.in_degree (model_graph m) (data_step o) = 0 →
  ∃ ws names,
    get_required_steps steps depth (model_graph m) inputs outputs
      = (ws, Err (MissingInput names)) ∧
    data_name o ∈ names ∧
    (∀ n, n ∈ names ↔
       ∃ s d, required steps inputs outputs s ∧
              DiGraph.in_degree (model_graph m) s = 0 ∧
              d ∈ step_outputs (steps s) ∧ data_name d = n) ∧
    (∀ input_data outs_arg N (st : state (A := A) (W := W)),
       normalize_given_data steps m input_data "input" = Ok N →
       dict_keys N = inputs →
       normalize_required_outputs steps m outs_arg = Ok outputs →
       predict' depth m input_data outs_arg st =
         (mkState (world st) (trace st) (warned st ++ ws), Err (MissingInput names))) ∧
    (∀ input_data target_data N T (st : state (A := A) (W := W)),
       normalize_given_data steps m input_data "input" = Ok N →
       dict_keys N = inputs →
       normalize_given_data steps m target_data "target" = Ok T →
       dict_keys T = outputs →
       fit' depth m input_data target_data st =
         (mkState (world st) (trace st) (warned st ++ ws), Err (MissingInput names))).
Proof.
  intros Hrank (_ & _ & Hg & Hinit)%Model_init_Ok Hdepth Hreach Hno Hown Hdeg.
  apply get_required_steps_Ok in Hinit as (sorted & _ & _ & Hsort & _).
  destruct (backtrack_all_total steps rank depth inputs outputs Hrank Hdepth)
    as [[R F] Hbt].
  destruct (backtrack_all_spec _ _ _ _ _ _ Hbt) as (HR & _ & _).
  assert (Ho : o ∈ missing_inputs steps (model_graph m) R).
  { apply missing_inputs_elem_of. exists (data_step o). split_and!; [|done..].
    apply HR. by exists o. }
  assert (Hres : get_required_steps steps depth (model_graph m) inputs outputs =
    (unused_warnings inputs F,
     Err (MissingInput (data_name <$> missing_inputs steps (model_graph m) R)))).
  { unfold get_required_steps. rewrite Hsort, Hbt.
    destruct (missing_inputs steps (model_graph m) R); [by apply elem_of_nil in Ho|done]. }
  eexists _, _. split_and!; [exact Hres|..].
  - apply list_elem_of_fmap. by exists o.
  - intros n. rewrite list_elem_of_fmap. setoid_rewrite missing_inputs_elem_of.
    setoid_rewrite HR. naive_solver.
  - intros input_data outs_arg N st HN <- Hout.
    by eapply predict_resolution_error.
  - intros input_data target_data N T st HN <- HT <-.
    by eapply fit_resolution_error.
Qed.

End Calls.

(** ** Facts about the concrete stores *)

Section Examples.

Lemma Diamond_ranked : ranked Diamond.steps Diamond.rank.
Proof.
  intros s i Hi. unfold Diamond.rank.
  do 4 (destruct s as [|s]; [simpl in Hi; set_solver by (simpl; lia)|]).
  simpl in Hi. set_solver.
Qed.

Lemma Diamond_model_init :
  Model_init Diamond.steps 10 [Diamond.x] [Diamond.w] = ([], Ok Diamond.model).
Proof. vm_compute. reflexivity. Qed.

Lemma Loop_graph_cyclic : DiGraphRel.cyclic Loop.graph.
Proof.
  exists 0. apply tc_l with 1; [|apply tc_once]; unfold DiGraphRel.edge; simpl;
    split_and!; set_solver.
Qed.

End Examples.

Lemma missing_input_is_fatal_witness :
  ∃ ws names,
    get_required_steps Diamond.steps 10 (model_graph Diamond.model) [] [Diamond.w]
      = (ws, Err (MissingInput names)) ∧
    data_name Diamond.x ∈ names.
Proof.
  destruct (missing_input_is_fatal (A := Z) (W := nat) Diamond.steps
              Diamond.fit_op Diamond.predict_op Diamond.predict_op
              Diamond.rank 10 [Diamond.x] [Diamond.w] [] Diamond.model
              10 [] [Diamond.w] Diamond.x)
    as (ws & names & Hres & Hname & _).
  - exact Diamond_ranked.
  - exact Diamond_model_init.
  - intros o' ->%list_elem_of_singleton. simpl. unfold Diamond.rank. lia.
  - exists Diamond.w. split; [set_solver|].
    apply rtc_l with Diamond.y; [split; [set_solver|simpl; set_solver]|].
    apply rtc_once. split; [set_solver|simpl; set_solver].
  - set_solver.
  - unfold owned. simpl. set_solver.
  - reflexivity.
  - by exists ws, names.
Defined.

Section C3.
Context {A W : Type}.
Variable steps : nat → Step.
Variable fit_op : nat → list (value A) → W → W * op_outcome unit.
Variable predict_op : nat → list (value A) → W → W * op_outcome (value A).
Variable transform_op : nat → list (value A) → W → W * op_outcome (value A).

(** C3, as the code has it: when the graph handed to the resolution has a
    cycle, the resolution raises CyclicGraph at the topological-order
    request: whatever the recursion depth left, so before any backtracking,
    and before any warning; [predict] and [fit] on such a graph end with
    that error and have called no method of any step. *)
Theorem cyclic_graph_fails_first depth g inputs outputs :
  DiGraphRel.cyclic g →
  get_required_steps steps depth g inputs outputs = ([], Err CyclicGraph) ∧
  (∀ m input_data outs_arg N outs (st : state (A := A) (W := W)),
     model_graph m = g →
     normalize_given_data steps m input_data "input" = Ok N →
     normalize_required_outputs steps m outs_arg = Ok outs →
     predict steps predict_op transform_op depth m input_data outs_arg st =
       (mkState (world st) (trace st) (warned st ++ []), Err CyclicGraph)) ∧
  (∀ m input_data target_data N T (st : state (A := A) (W := W)),
     model_graph m = g →
     normalize_given_data steps m input_data "input" = Ok N →
     normalize_given_data steps m target_data "target" = Ok T →
     fit steps fit_op predict_op transform_op depth m input_data target_data st =
       (mkState (world st) (trace st) (warned st ++ []), Err CyclicGraph)).
Proof.
  intros Hcyc.
  assert (Hres : ∀ ins outs,
    get_required_steps steps depth g ins outs = ([], Err CyclicGraph)).
  { intros ins outs. unfold get_required_steps.
    by rewrite (DiGraphFacts.topological_sort_cyclic g Hcyc). }
  split_and!; [done|..].
  - intros m input_data outs_arg N outs st <- HN Hout.
    eapply predict_resolution_error; [done..|apply Hres].
  - intros m input_data target_data N T st <- HN HT.
    eapply fit_resolution_error; [done..|apply Hres].
Qed.

End C3.

Lemma cyclic_graph_fails_first_witness :
  get_required_steps Loop.steps 0 Loop.graph [] [Loop.b] = ([], Err CyclicGraph).
Proof.
  apply (cyclic_graph_fails_first (A := Z) (W := nat) Loop.steps
           Diamond.fit_op Diamond.predict_op Diamond.predict_op 0 Loop.graph [] [Loop.b]).
  exact Loop_graph_cyclic.
Defined.

(** C3, as the spec has it, fails: on a cyclic step structure the
    collection walk of the constructor has no end of its own; whatever the
    recursion limit, construction ends with RecursionError, and the
    topological-order request that raises CyclicGraph is never made. *)
Lemma cyclic_steps_exhaust_recursion :
  on_cycle Loop.steps (data_step Loop.b) ∧
  ∀ depth, Model_init Loop.steps depth [] [Loop.b] = ([], Err RecursionError).
Proof.
  assert (Hcyc : on_cycle Loop.steps (data_step Loop.b)).
  { apply tc_l with 0; [|apply tc_once]; [exists Loop.b|exists Loop.a];
      simpl; set_solver. }
  split; [done|]. intros depth.
  unfold Model_init, build_graph. simpl.
  by rewrite (collect_on_cycle Loop.steps depth DiGraph.empty Loop.b Hcyc).
Qed.

Section C4.
Variable steps : nat → Step.

(** C4: a call of [backtrack] on a slot that is among the available inputs
    records the slot as found and returns no step, at any recursion depth
    left (it descends nowhere).  Hence in the result of the whole traversal
    the producer of a supplied slot is required only on account of another
    slot, one that was reached and not supplied; and when every desired
    output is supplied, no step is required at all. *)
Theorem supplied_slot_stops_descent depth inputs (R : gset nat) F o :
  o ∈ inputs →
  backtrack steps (S depth) inputs R F o = Ok (∅, F ++ [o]) ∧
  (∀ i, ¬ descends steps inputs o i) ∧
  ∀ depth' outputs (R' : gset nat) F',
    backtrack_all steps depth' inputs outputs = Ok (R', F') →
    (o ∈ outputs → o ∈ F') ∧
    (data_step o ∈ R' →
       ∃ d, d ≠ o ∧ reached steps inputs outputs d ∧ d ∉ inputs ∧
            data_step d = data_step o) ∧
    ((∀ o', o' ∈ outputs → o' ∈ inputs) → R' = ∅).
Proof.
  intros Hin. split_and!.
  - rewrite backtrack_unfold. by rewrite decide_True.
  - by intros i [? _].
  - intros depth' outputs R' F' Hbt.
    destruct (backtrack_all_spec _ _ _ _ _ _ Hbt) as (HR & HF & _).
    split_and!.
    + intros Ho. apply HF. split; [|done]. by exists o.
    + intros (d & Hd & Hno & Heq)%HR. exists d. split_and!; [|done..].
      by intros ->.
    + intros Hall. apply set_eq. intros s. split; [|set_solver].
      intros (d & (o' & Ho' & Hr) & Hno & _)%HR. exfalso.
      destruct Hr as [|o' i d [Hno' _] _]; [by apply Hno, Hall|by apply Hno', Hall].
Qed.

End C4.

Lemma supplied_slot_stops_descent_witness :
  backtrack Diamond.steps 1 [Diamond.y; Diamond.z] ∅ [] Diamond.y = Ok (∅, [Diamond.y]).
Proof.
  apply (supplied_slot_stops_descent Diamond.steps 0 [Diamond.y; Diamond.z] ∅ [] Diamond.y).
  set_solver.
Defined.

(** ** The cache and the execution loops *)

Lemma before_cons_inv {X} (u v x : X) (l : list X) :
  before u v (x :: l) → (u = x ∧ v ∈ l) ∨ before u v l.
Proof.
  intros ([|y l1] & l2 & l3 & Heq); simplify_eq/=.
  - left. split; [done|]. set_solver.
  - right. by exists l1, l2, l3.
Qed.

Section Cache.
Context {A : Type}.
Implicit Types (cache : gmap Data (value A)) (pairs : list (Data * value A)).

Lemma cache_update_snoc cache pairs k v :
  cache_update cache (pairs ++ [(k, v)]) = <[k:=v]> (cache_update cache pairs).
Proof. unfold cache_update. by rewrite fold_left_app. Qed.

Lemma cache_update_ne cache pairs k :
  k ∉ pairs.*1 → cache_update cache pairs !! k = cache !! k.
Proof.
  induction pairs as [|[k' v] pairs IH] using rev_ind; [done|].
  rewrite fmap_app, cache_update_snoc. intros Hk.
  rewrite lookup_insert_ne by set_solver. apply IH. set_solver.
Qed.

Lemma cache_update_is_Some cache pairs k :
  is_Some (cache !! k) → is_Some (cache_update cache pairs !! k).
Proof.
  intros Hk. induction pairs as [|[k' v] pairs IH] using rev_ind; [done|].
  rewrite cache_update_snoc. destruct (decide (k' = k)) as [->|].
  - rewrite lookup_insert_eq. by eexists.
  - by rewrite lookup_insert_ne.
Qed.

Lemma cache_update_elem_of cache pairs k :
  k ∈ pairs.*1 → is_Some (cache_update cache pairs !! k).
Proof.
  induction pairs as [|[k' v] pairs IH] using rev_ind; [by intros ?%elem_of_nil|].
  rewrite fmap_app, cache_update_snoc. intros Hk.
  destruct (decide (k' = k)) as [->|].
  - rewrite lookup_insert_eq. by eexists.
  - rewrite lookup_insert_ne by done. apply IH. set_solver.
Qed.

(** Two caches that agree at [k] agree at [k] after the same update. *)
Lemma cache_update_agree cache cache' pairs k :
  cache !! k = cache' !! k →
  cache_update cache pairs !! k = cache_update cache' pairs !! k.
Proof.
  intros Hk. induction pairs as [|[k' v] pairs IH] using rev_ind; [done|].
  rewrite !cache_update_snoc. destruct (decide (k' = k)) as [->|].
  - by rewrite !lookup_insert_eq.
  - by rewrite !lookup_insert_ne.
Qed.

Lemma gather_acc cache slots (acc : list (value A)) :
  for_each (λ Xs i, match cache !! i with
                    | Some x => Ok (Xs ++ [x])
                    | None => Err (KeyError i)
                    end) slots acc =
  let* Xs := gather cache slots in Ok (acc ++ Xs).
Proof.
  unfold gather. revert acc. induction slots as [|i slots IH]; intros acc; simpl.
  - by rewrite app_nil_r.
  - destruct (cache !! i) as [x|]; simpl; [|done].
    rewrite (IH (acc ++ [x])), (IH [x]).
    destruct (for_each _ slots []); simpl; [|done]. by rewrite <-app_assoc.
Qed.

Lemma gather_cons cache i slots :
  gather cache (i :: slots) =
  match cache !! i with
  | Some x => let* Xs := gather cache slots in Ok (x :: Xs)
  | None => Err (KeyError i)
  end.
Proof.
  unfold gather at 1. simpl. destruct (cache !! i) as [x|]; simpl; [|done].
  apply gather_acc.
Qed.

Lemma gather_Ok cache slots :
  (∀ i, i ∈ slots → is_Some (cache !! i)) →
  ∃ Xs, gather cache slots = Ok Xs.
Proof.
  induction slots as [|i slots IH]; intros Hin; [by eexists|].
  rewrite gather_cons. destruct (Hin i) as [x ->]; [left|].
  destruct IH as [Xs ->]; [intros j Hj; apply Hin; by right|]. by eexists.
Qed.

Lemma gather_length cache slots Xs :
  gather cache slots = Ok Xs → length Xs = length slots.
Proof.
  revert Xs. induction slots as [|i slots IH]; intros Xs H.
  - by inversion H.
  - rewrite gather_cons in H. destruct (cache !! i); [|done].
    destruct (gather cache slots) as [Xs'|] eqn:Hg; simplify_eq/=.
    f_equal. by apply IH.
Qed.

Lemma gather_Err cache slots e :
  gather cache slots = Err e →
  ∃ d, e = KeyError d ∧ d ∈ slots ∧ cache !! d = None.
Proof.
  induction slots as [|i slots IH]; intros H; [by inversion H|].
  rewrite gather_cons in H. destruct (cache !! i) eqn:Hi.
  - destruct (gather cache slots) eqn:Hg; simplify_eq/=.
    destruct IH as (d & ? & ? & ?); [done|]. exists d. split_and!; [done|by right|done].
  - simplify_eq. exists i. split_and!; [done|left|done].
Qed.

Lemma gather_agree cache cache' slots :
  (∀ i, i ∈ slots → cache !! i = cache' !! i) →
  gather cache slots = gather cache' slots.
Proof.
  induction slots as [|i slots IH]; intros Hin; [done|].
  rewrite !gather_cons, <-(Hin i) by left. rewrite IH; [done|].
  intros j Hj. apply Hin. by right.
Qed.

End Cache.

Section pydict_cache.
Context {A : Type}.
Implicit Types (cache : gmap Data (value A)) (N : list (Data * value A)).

Lemma dict_get_app {K V} `{EqDecision K} (d1 d2 : list (K * V)) k :
  dict_get (d1 ++ d2) k =
  match dict_get d1 k with
  | Some v => Some v
  | None => dict_get d2 k
  end.
Proof.
  induction d1 as [|[k0 v0] d1 IH]; csimpl; [done|].
  by destruct (decide (k0 = k)).
Qed.

(** A cache filled from a dictionary holds what the dictionary holds. *)
Lemma cache_update_empty_lookup N k :
  NoDup (dict_keys N) → cache_update ∅ (dict_items N) !! k = dict_get N k.
Proof.
  unfold dict_keys, dict_items.
  induction N as [|[k' v] N IH] using rev_ind; [done|].
  rewrite fmap_app. intros (Hnd & Hk & _)%NoDup_app.
  rewrite cache_update_snoc, dict_get_app. csimpl.
  destruct (decide (k' = k)) as [->|Hne].
  - rewrite lookup_insert_eq.
    assert (Hnone : dict_get N k = None).
    { apply dict_get_None. intros Hin. eapply Hk; [done|]. left. }
    by rewrite Hnone.
  - rewrite lookup_insert_ne by done. rewrite IH by done.
    by destruct (dict_get N k).
Qed.

(** [cache.update(zip(slots, values))] on distinct slots: the slot at a
    position that has a value holds that value afterwards. *)
Lemma cache_update_zip_lookup cache (slots : list Data) (ys : list (value A)) j o y :
  NoDup slots → slots !! j = Some o → ys !! j = Some y →
  cache_update cache (zip slots ys) !! o = Some y.
Proof.
  revert cache ys j. induction slots as [|o' slots IH]; intros cache ys j Hnd Ho Hy;
    [done|].
  apply NoDup_cons in Hnd as [Ho' Hnd].
  destruct ys as [|y' ys]; [done|]. destruct j as [|j]; simplify_eq/=.
  - rewrite cache_update_ne.
    + apply lookup_insert_eq.
    + intros ([a b] & -> & Hin%elem_of_zip_l)%list_elem_of_fmap. by apply Ho'.
  - by eapply IH.
Qed.

End pydict_cache.

(** ** Execution *)

Section Steps.
Context {A W : Type}.
Variable steps : nat → Step.
Variable fit_op : nat → list (value A) → W → W * op_outcome unit.
Variable predict_op : nat → list (value A) → W → W * op_outcome (value A).
Variable transform_op : nat → list (value A) → W → W * op_outcome (value A).
Implicit Types (cache : gmap Data (value A)) (st : state (A := A) (W := W)).
Implicit Types (T : list (Data * value A)).

Abbreviation compute_step' := (compute_step steps predict_op transform_op).
Abbreviation compute_pairs' := (compute_pairs steps predict_op transform_op).
Abbreviation predict_step' := (predict_step steps predict_op transform_op).
Abbreviation fit_step' := (fit_step steps fit_op predict_op transform_op).

Lemma compute_step_eq s Xs cache st :
  compute_step' s Xs cache st =
  match compute_pairs' s Xs st with
  | (st', Ok p) => (st', Ok (cache_update cache p))
  | (st', Err e) => (st', Err e)
  end.
Proof.
  unfold compute_step, compute_pairs, bind.
  by destruct (_ st) as [st' [y|e]].
Qed.

Lemma compute_pairs_spec s Xs st st' r :
  compute_pairs' s Xs st = (st', r) →
  warned st' = warned st ∧
  (∀ p, r = Ok p → trace st' = trace st ++ [computing_call steps s Xs]) ∧
  (∀ e, r = Err e →
     (∀ d, e ≠ KeyError d) ∧
     (trace st' = trace st ∨ trace st' = trace st ++ [computing_call steps s Xs])) ∧
  (yields_all_outputs steps predict_op → yields_all_outputs steps transform_op →
   ∀ p, r = Ok p → p.*1 = step_outputs (steps s)).
Proof.
  unfold compute_pairs, computing_call, bind, call, raise, lift, ret.
  destruct (has_predict (steps s)); [|destruct (has_transform (steps s))].
  - destruct (predict_op s Xs (world st)) as [w' [y|msg]] eqn:Hop; intros Heq;
      simplify_eq; simpl; split_and!; try done.
    + intros Hp _ p [= <-]. apply fst_zip. by eapply Hp.
    + intros e [= <-]. split; [done|by right].
  - destruct (transform_op s Xs (world st)) as [w' [y|msg]] eqn:Hop; intros Heq;
      simplify_eq; simpl; split_and!; try done.
    + intros _ Ht p [= <-]. apply fst_zip. by eapply Ht.
    + intros e [= <-]. split; [done|by right].
  - intros Heq; simplify_eq. split_and!; try done.
    intros e [= <-]. split; [done|by left].
Qed.

(** [gather_targets] keeps, in order, the targets that are there and are
    not [None]. *)
Lemma gather_targets_supplied T outputs :
  gather_targets T outputs = supplied_targets T outputs.
Proof.
  unfold gather_targets, supplied_targets, has_target.
  induction outputs as [|o outputs IH]; [done|].
  csimpl. rewrite filter_cons. rewrite IH.
  destruct (dict_get T o) as [y|] eqn:Hy; simpl.
  - destruct (is_none y); simpl; [done|]. by rewrite Hy.
  - done.
Qed.

(** One iteration of the loop of [predict]. *)
Lemma predict_step_eq cache s st :
  predict_step' cache s st =
  match gather cache (step_inputs (steps s)) with
  | Ok Xs => compute_step' s Xs cache st
  | Err e => (st, Err e)
  end.
Proof.
  unfold predict_step, bind, lift. by destruct (gather _ _).
Qed.

(** One iteration of the loop of [fit]. *)
Lemma fit_step_eq T cache s st :
  fit_step' T cache s st =
  match gather cache (step_inputs (steps s)) with
  | Ok Xs =>
      if has_fit (steps s) then
        let args := Xs ++ gather_targets T (step_outputs (steps s)) in
        match fit_op s args (world st) with
        | (w, Returned _) =>
            compute_step' s Xs cache (mkState w (trace st ++ [CallFit s args]) (warned st))
        | (w, Raised msg) =>
            (mkState w (trace st ++ [CallFit s args]) (warned st), Err (StepRaised msg))
        end
      else compute_step' s Xs cache st
  | Err e => (st, Err e)
  end.
Proof.
  unfold fit_step, bind, lift, call, ret.
  destruct (gather _ _) as [Xs|]; [|done].
  destruct (has_fit (steps s)); [|done].
  by destruct (fit_op _ _ _) as [w [[]|msg]].
Qed.

End Steps.

Section Loops.
Context {A W : Type}.
Variable steps : nat → Step.
Variable fit_op : nat → list (value A) → W → W * op_outcome unit.
Variable predict_op : nat → list (value A) → W → W * op_outcome (value A).
Variable transform_op : nat → list (value A) → W → W * op_outcome (value A).
Implicit Types (cache : gmap Data (value A)) (st : state (A := A) (W := W)).
Implicit Types (T : list (Data * value A)).

Abbreviation compute_step' := (compute_step steps predict_op transform_op).
Abbreviation compute_pairs' := (compute_pairs steps predict_op transform_op).
Abbreviation predict_step' := (predict_step steps predict_op transform_op).
Abbreviation fit_step' := (fit_step steps fit_op predict_op transform_op).

Lemma for_eachM_cons {X S} (body : S → X → M (A := A) (W := W) S) x l s st :
  for_eachM body (x :: l) s st =
  match body s x st with
  | (st1, Ok s1) => for_eachM body l s1 st1
  | (st1, Err e) => (st1, Err e)
  end.
Proof. reflexivity. Qed.

Hypothesis predict_yields : yields_all_outputs steps predict_op.
Hypothesis transform_yields : yields_all_outputs steps transform_op.

Lemma compute_step_keeps s Xs cache st st' r :
  compute_step' s Xs cache st = (st', r) →
  match r with
  | Ok cache' =>
      (∀ k, is_Some (cache !! k) → is_Some (cache' !! k)) ∧
      (∀ k, k ∈ step_outputs (steps s) → is_Some (cache' !! k))
  | Err e => ∀ d, e ≠ KeyError d
  end.
Proof using predict_yields transform_yields.
  rewrite compute_step_eq.
  destruct (compute_pairs' s Xs st) as [st1 [p|e]] eqn:Hp; intros ?; simplify_eq.
  - apply compute_pairs_spec in Hp as (_ & _ & _ & Hfst).
    split; [intros k; apply cache_update_is_Some|].
    intros k Hk. apply cache_update_elem_of. by rewrite (Hfst predict_yields transform_yields p).
  - apply compute_pairs_spec in Hp as (_ & _ & He & _). by apply He.
Qed.

Lemma predict_step_keeps : keeps_cache steps predict_step'.
Proof using predict_yields transform_yields.
  intros cache s st st' r Hin. rewrite predict_step_eq.
  destruct (gather_Ok cache _ Hin) as [Xs ->]. apply compute_step_keeps.
Qed.

Lemma fit_step_keeps T : keeps_cache steps (fit_step' T).
Proof using predict_yields transform_yields.
  intros cache s st st' r Hin. rewrite fit_step_eq.
  destruct (gather_Ok cache _ Hin) as [Xs ->].
  destruct (has_fit (steps s)); [|apply compute_step_keeps]. cbv zeta.
  destruct (fit_op s _ (world st)) as [w [[]|msg]]; [apply compute_step_keeps|].
  intros ?; simplify_eq. done.
Qed.

End Loops.

Section LoopNoKeyError.
Context {A W : Type}.
Variable steps : nat → Step.
Variable body : gmap Data (value A) → nat → M (A := A) (W := W) (gmap Data (value A)).
Hypothesis body_keeps : keeps_cache steps body.

(** A loop over steps each of whose inputs is in the cache or is an output
    of an earlier step of the list raises no [KeyError]. *)
Lemma loop_no_KeyError l cache st d :
  NoDup l →
  (∀ s i, s ∈ l → i ∈ step_inputs (steps s) →
     is_Some (cache !! i) ∨ (before (data_step i) s l ∧ owned steps i)) →
  (for_eachM body l cache st).2 ≠ Err (KeyError d).
Proof using body_keeps.
  revert cache st. induction l as [|s l IH]; intros cache st Hnd Hready; [done|].
  apply NoDup_cons in Hnd as [Hs Hnd].
  rewrite for_eachM_cons.
  assert (Hin : ∀ i, i ∈ step_inputs (steps s) → is_Some (cache !! i)).
  { intros i Hi. destruct (Hready s i) as [?|[Hb _]]; [left|done..|].
    exfalso. apply before_cons_inv in Hb as [[_ ?]|[_ ?]%before_elem_of]; done. }
  destruct (body cache s st) as [st1 [cache1|e]] eqn:Hb;
    pose proof (body_keeps _ _ _ _ _ Hin Hb) as Hk; simpl in Hk.
  - destruct Hk as [Hkeep Hout]. apply IH; [done|].
    intros s' i Hs' Hi. destruct (Hready s' i) as [?|[Hbef Hown]]; [by right|done|auto|].
    apply before_cons_inv in Hbef as [[Heq _]|?]; [|by right].
    left. apply Hout. by rewrite <-Heq.
  - simpl. intros [= ->]. by eapply Hk.
Qed.

End LoopNoKeyError.

Section Traces.
Context {A W : Type}.
Variable steps : nat → Step.
Variable fit_op : nat → list (value A) → W → W * op_outcome unit.
Variable predict_op : nat → list (value A) → W → W * op_outcome (value A).
Variable transform_op : nat → list (value A) → W → W * op_outcome (value A).
Implicit Types (cache : gmap Data (value A)) (st : state (A := A) (W := W)).
Implicit Types (T : list (Data * value A)).

Abbreviation compute_step' := (compute_step steps predict_op transform_op).
Abbreviation compute_pairs' := (compute_pairs steps predict_op transform_op).
Abbreviation predict_step' := (predict_step steps predict_op transform_op).
Abbreviation fit_step' := (fit_step steps fit_op predict_op transform_op).
Abbreviation fit' := (fit steps fit_op predict_op transform_op).
Abbreviation predict' := (predict steps predict_op transform_op).

Lemma fit_eq depth m input_data target_data st :
  fit' depth m input_data target_data st =
  match normalize_given_data steps m input_data "input" with
  | Err e => (st, Err e)
  | Ok N =>
      match normalize_given_data steps m target_data "target" with
      | Err e => (st, Err e)
      | Ok T =>
          let st0 ws := mkState (world st) (trace st) (warned st ++ ws) in
          match get_required_steps steps depth (model_graph m)
                  (dict_keys N) (dict_keys T) with
          | (ws, Err e) => (st0 ws, Err e)
          | (ws, Ok l) =>
              match for_eachM (fit_step' T) l (cache_update ∅ (dict_items N)) (st0 ws) with
              | (st', Ok _) => (st', Ok ())
              | (st', Err e) => (st', Err e)
              end
          end
      end
  end.
Proof.
  unfold fit, bind, lift, warn, ret.
  destruct (normalize_given_data steps m input_data "input") as [N|]; [|done].
  destruct (normalize_given_data steps m target_data "target") as [T|]; [|done].
  destruct (get_required_steps _ _ _ _ _) as [ws [l|]]; simpl; [|done].
  by destruct (for_eachM _ _ _ _) as [st' [c|]].
Qed.

Lemma predict_eq depth m input_data outs_arg st :
  predict' depth m input_data outs_arg st =
  match normalize_given_data steps m input_data "input" with
  | Err e => (st, Err e)
  | Ok N =>
      match normalize_required_outputs steps m outs_arg with
      | Err e => (st, Err e)
      | Ok outputs =>
          let st0 ws := mkState (world st) (trace st) (warned st ++ ws) in
          match get_required_steps steps depth (model_graph m) (dict_keys N) outputs with
          | (ws, Err e) => (st0 ws, Err e)
          | (ws, Ok l) =>
              match for_eachM predict_step' l (cache_update ∅ (dict_items N)) (st0 ws) with
              | (st', Ok cache) =>
                  match gather cache outputs with
                  | Ok [x] => (st', Ok x)
                  | Ok output_data => (st', Ok (VList output_data))
                  | Err e => (st', Err e)
                  end
              | (st', Err e) => (st', Err e)
              end
          end
      end
  end.
Proof.
  unfold predict, bind, lift, warn, ret.
  destruct (normalize_given_data steps m input_data "input") as [N|]; [|done].
  destruct (normalize_required_outputs steps m outs_arg) as [outputs|]; [|done].
  destruct (get_required_steps _ _ _ _ _) as [ws [l|]]; simpl; [|done].
  destruct (for_eachM _ _ _ _) as [st' [c|]]; [|done].
  destruct (gather c outputs) as [[|x [|x' xs]]|]; done.
Qed.

Lemma compute_step_trace s Xs cache st st' r :
  compute_step' s Xs cache st = (st', r) →
  warned st' = warned st ∧
  (∀ cache', r = Ok cache' → trace st' = trace st ++ [computing_call steps s Xs]) ∧
  (trace st' = trace st ∨ trace st' = trace st ++ [computing_call steps s Xs]).
Proof.
  rewrite compute_step_eq.
  destruct (compute_pairs' s Xs st) as [st1 [p|e]] eqn:Hp; intros ?; simplify_eq;
    apply compute_pairs_spec in Hp as (Hw & Hok & Herr & _).
  - split_and!; [done|by intros; eapply Hok|right; by eapply Hok].
  - split_and!; [done|done|by eapply Herr].
Qed.

(** The calls of one iteration of the loop of [fit]. *)
Lemma fit_step_trace T cache s st st' r :
  fit_step' T cache s st = (st', r) →
  warned st' = warned st ∧
  ∃ t, trace st' = trace st ++ t ∧
    (∀ s' args, CallFit s' args ∈ t →
       s' = s ∧ has_fit (steps s) = true ∧
       ∃ Xs, length Xs = length (step_inputs (steps s)) ∧
             args = Xs ++ supplied_targets T (step_outputs (steps s))) ∧
    (∀ cache', r = Ok cache' →
       ∃ Xs, length Xs = length (step_inputs (steps s)) ∧
             t = step_calls steps T s Xs).
Proof.
  rewrite fit_step_eq.
  destruct (gather cache (step_inputs (steps s))) as [Xs|e] eqn:HXs.
  2:{ intros ?; simplify_eq. split; [done|]. exists [].
      rewrite app_nil_r. split_and!; [done|by intros ?? ?%elem_of_nil|done]. }
  apply gather_length in HXs. unfold step_calls.
  assert (Hcc : ∀ Ys, CallFit (A := A) s Ys ≠ computing_call steps s Xs).
  { intros Ys. unfold computing_call. by destruct (has_predict (steps s)). }
  assert (Hcc' : ∀ s' Ys, CallFit (A := A) s' Ys ≠ computing_call steps s Xs).
  { intros s' Ys. unfold computing_call. by destruct (has_predict (steps s)). }
  destruct (has_fit (steps s)) eqn:Hfit; cbv zeta.
  - rewrite gather_targets_supplied.
    destruct (fit_op s _ (world st)) as [w [[]|msg]].
    + intros Hc. apply compute_step_trace in Hc as (Hw & Hok & Hor). simpl in *.
      split; [done|]. destruct Hor as [Hor|Hor].
      * exists [CallFit s (Xs ++ supplied_targets T (step_outputs (steps s)))].
        split_and!; [done| |].
        -- intros s' args [= -> ->]%list_elem_of_singleton. eauto.
        -- intros cache' ->. specialize (Hok _ eq_refl). rewrite Hok in Hor.
           apply (f_equal length) in Hor. rewrite !length_app in Hor. simpl in Hor. lia.
      * exists ([CallFit s (Xs ++ supplied_targets T (step_outputs (steps s)))]
                  ++ [computing_call steps s Xs]).
        split_and!; [by rewrite Hor, <-app_assoc| |by eauto].
        intros s' args [[= -> ->]%list_elem_of_singleton|Hin%list_elem_of_singleton]%elem_of_app;
          [eauto|]. by destruct (Hcc' s' args).
    + intros ?; simplify_eq. split; [done|]. simpl.
      exists [CallFit s (Xs ++ supplied_targets T (step_outputs (steps s)))].
      split_and!; [done| |done].
      intros s' args [= -> ->]%list_elem_of_singleton. eauto.
  - intros Hc. apply compute_step_trace in Hc as (Hw & Hok & Hor).
    split; [done|]. destruct Hor as [Hor|Hor].
    + exists []. rewrite app_nil_r. split_and!; [done|by intros ?? ?%elem_of_nil|].
      intros cache' ->. specialize (Hok _ eq_refl). rewrite Hok in Hor.
      apply (f_equal length) in Hor. rewrite !length_app in Hor. simpl in Hor. lia.
    + exists [computing_call steps s Xs]. split_and!; [done| |by eauto].
      intros s' args Hin%list_elem_of_singleton. by destruct (Hcc' s' args).
Qed.

(** The calls of the whole loop of [fit]. *)
Lemma fit_loop_trace T l cache st st' r :
  for_eachM (fit_step' T) l cache st = (st', r) →
  warned st' = warned st ∧
  ∃ t, trace st' = trace st ++ t ∧
    (∀ s args, CallFit s args ∈ t →
       s ∈ l ∧ has_fit (steps s) = true ∧
       ∃ Xs, length Xs = length (step_inputs (steps s)) ∧
             args = Xs ++ supplied_targets T (step_outputs (steps s))) ∧
    (∀ cache', r = Ok cache' →
       ∃ Xss, Forall2 (λ s Xs, length Xs = length (step_inputs (steps s))) l Xss ∧
              t = concat (zip_with (step_calls steps T) l Xss)).
Proof.
  revert cache st. induction l as [|s l IH]; intros cache st.
  - intros [= <- <-]. split; [done|]. exists []. rewrite app_nil_r.
    split_and!; [done|by intros ?? ?%elem_of_nil|].
    intros _ _. exists []. split; [constructor|done].
  - rewrite for_eachM_cons.
    destruct (fit_step' T cache s st) as [st1 [cache1|e]] eqn:Hs;
      apply fit_step_trace in Hs as (Hw1 & t1 & Ht1 & Hfit1 & Hok1).
    + intros (Hw2 & t2 & Ht2 & Hfit2 & Hok2)%IH.
      split; [congruence|]. exists (t1 ++ t2).
      split_and!; [by rewrite Ht2, Ht1, app_assoc| |].
      * intros s' args [Hin|Hin]%elem_of_app.
        -- destruct (Hfit1 _ _ Hin) as (-> & ? & ?). split_and!; [left|done..].
        -- destruct (Hfit2 _ _ Hin) as (? & ? & ?). split_and!; [by right|done..].
      * intros cache' Hr. destruct (Hok1 _ eq_refl) as (Xs & HXs & ->).
        destruct (Hok2 _ Hr) as (Xss & HXss & ->).
        exists (Xs :: Xss). split; [by constructor|done].
    + intros ?; simplify_eq. split; [done|]. exists t1.
      split_and!; [done| |done].
      intros s' args Hin. destruct (Hfit1 _ _ Hin) as (-> & ? & ?).
      split_and!; [left|done..].
Qed.

Lemma computed_steps_app (t1 t2 : list (event A)) :
  computed_steps (t1 ++ t2) = computed_steps t1 ++ computed_steps t2.
Proof. apply omap_app. Qed.

Lemma computed_steps_step_calls T s Xs :
  computed_steps (step_calls steps T s Xs) = [s].
Proof.
  unfold step_calls, computing_call.
  rewrite computed_steps_app.
  by destruct (has_fit (steps s)), (has_predict (steps s)).
Qed.

Lemma computed_steps_loop T l Xss :
  length Xss = length l →
  computed_steps (concat (zip_with (step_calls steps T) l Xss)) = l.
Proof.
  revert Xss. induction l as [|s l IH]; intros [|Xs Xss] Hlen; simplify_eq/=; [done|].
  rewrite computed_steps_app, computed_steps_step_calls, IH; done.
Qed.

End Traces.

Section C5.
Context {A W : Type}.
Variable steps : nat → Step.
Variable fit_op : nat → list (value A) → W → W * op_outcome unit.
Variable predict_op : nat → list (value A) → W → W * op_outcome (value A).
Variable transform_op : nat → list (value A) → W → W * op_outcome (value A).

(** C5, as the code has it: provided every computing operation yields a
    value for each output slot of its step, after a successful resolution on
    the graph of a model no gathering of a step's inputs fails during the
    loop of [predict] or of [fit]: each input is a supplied slot or an
    output of a step earlier in the returned list. *)
Theorem step_inputs_are_cached depth0 ins outs ws0 m depth
    (N : list (Data * value A)) outputs ws l :
  inputs_owned steps →
  yields_all_outputs steps predict_op →
  yields_all_outputs steps transform_op →
  Model_init steps depth0 ins outs = (ws0, Ok m) →
  get_required_steps steps depth (model_graph m) (dict_keys N) outputs = (ws, Ok l) →
  ∀ T (st : state (A := A) (W := W)) d,
    (for_eachM (predict_step steps predict_op transform_op) l
       (cache_update ∅ (dict_items N)) st).2 ≠ Err (KeyError d) ∧
    (for_eachM (fit_step steps fit_op predict_op transform_op T) l
       (cache_update ∅ (dict_items N)) st).2 ≠ Err (KeyError d).
Proof.
  intros Hown Hp Ht (_ & _ & Hg & _)%Model_init_Ok Hres T st d.
  apply get_required_steps_Ok in Hres as (sorted & R & F & Hsort & Hbt & _ & _ & ->).
  destruct (required_steps_in_order _ _ _ _ _ _ _ _ _ _ Hg Hsort Hbt) as [Hnd Hl].
  set (l := filter (λ s, s ∈ R) sorted) in *.
  assert (Hready : ∀ s i, s ∈ l → i ∈ step_inputs (steps s) →
    is_Some (cache_update ∅ (dict_items N) !! i) ∨
    (before (data_step i) s l ∧ owned steps i)).
  { intros s i Hs Hi. destruct (Hl s i Hs Hi) as [[Hin|Hin] Hbef].
    - left. by apply cache_update_elem_of.
    - right. split; [auto|]. by eapply Hown. }
  split.
  - apply (loop_no_KeyError steps); [by apply predict_step_keeps|done..].
  - apply (loop_no_KeyError steps); [by apply fit_step_keeps|done..].
Qed.

End C5.

Lemma step_inputs_are_cached_witness :
  (for_eachM (predict_step Diamond.steps Diamond.predict_op Diamond.predict_op) [1; 2; 3]
     (cache_update ∅ (dict_items [(Diamond.x, VArray 5%Z)])) Diamond.init).2
  ≠ Err (KeyError Diamond.y).
Proof.
  apply (step_inputs_are_cached Diamond.steps Diamond.fit_op Diamond.predict_op
           Diamond.predict_op 10 [Diamond.x] [Diamond.w] [] Diamond.model 10
           [(Diamond.x, VArray 5%Z)] [Diamond.w] [] [1; 2; 3]).
  - intros s i Hi.
    do 4 (destruct s as [|s]; [simpl in Hi; set_solver by (simpl; set_solver)|]).
    simpl in Hi. set_solver.
  - intros s Xs n n' y. do 4 (destruct s as [|s]; [intros [= _ <-]; simpl; lia|]).
    intros [= _ <-]. simpl. lia.
  - intros s Xs n n' y. do 4 (destruct s as [|s]; [intros [= _ <-]; simpl; lia|]).
    intros [= _ <-]. simpl. lia.
  - vm_compute. reflexivity.
  - vm_compute. reflexivity.
  - exact [].
Defined.

(** C5, as the spec has it, fails: the resolution succeeds and the inputs
    of the second step are still not in the cache, because the first step
    yielded one value for its two outputs. *)
Lemma short_yield_breaks_gather :
  Model_init Short.steps 10 [Short.x] [Short.z] = ([], Ok Short.model) ∧
  get_required_steps Short.steps 10 (model_graph Short.model) [Short.x] [Short.z]
    = ([], Ok [1; 2]) ∧
  (predict Short.steps Short.predict_op Short.predict_op 10 Short.model
     (GivenDict [(KData Short.x, VArray 5%Z)]) None Diamond.init).2
    = Err (KeyError Short.y2).
Proof. split_and!; vm_compute; reflexivity. Qed.

(** ** Normalisation *)

Section NormalizeFacts.
Context {A : Type}.
Variable steps : nat → Step.
Implicit Types (m : Model) (N : list (Data * value A)).

Lemma normalize_dict_spec m (items : list (key * value A)) N :
  normalize_dict steps m items = Ok N →
  NoDup (dict_keys N) ∧
  ∀ d, d ∈ dict_keys N ↔ ∃ k v, (k, v) ∈ items ∧ resolve_key steps m k = Ok d.
Proof.
  unfold normalize_dict. intros H.
  pose (I := λ (seen : list (key * value A)) (N : list (Data * value A)),
    NoDup (dict_keys N) ∧
    ∀ d, d ∈ dict_keys N ↔ ∃ k v, (k, v) ∈ seen ∧ resolve_key steps m k = Ok d).
  apply (for_each_invariant I _ _ _ _) in H; [done| |].
  - split; [constructor|]. intros d. split; [by intros ?%elem_of_nil|].
    by intros (? & ? & ?%elem_of_nil & _).
  - intros seen [k v] N1 N2 [Hnd Hkeys] _ Hb. simpl in Hb.
    destruct (resolve_key steps m k) as [d0|] eqn:Hk; simplify_eq/=.
    split; [by apply dict_keys_set_NoDup|].
    intros d. rewrite dict_keys_set_elem_of, Hkeys. split.
    + intros [->|(k' & v' & Hin & Hr)].
      * exists k, v. split; [set_solver|done].
      * exists k', v'. split; [set_solver|done].
    + intros (k' & v' & [Hin|[= -> ->]%list_elem_of_singleton]%elem_of_app & Hr).
      * right. by exists k', v'.
      * left. congruence.
Qed.

Lemma normalize_list_spec (v : value A) dataobjs expand_none :
  normalize_list v dataobjs expand_none =
  if single_none (listify v) && expand_none
  then Ok (dict_of (zip dataobjs (replicate (length dataobjs) VNone)))
  else if decide (length (listify v) = length dataobjs)
       then Ok (dict_of (zip dataobjs (listify v)))
       else Err (ArityMismatch (length dataobjs) (length (listify v))).
Proof.
  unfold normalize_list, single_none.
  destruct (listify v) as [|x [|x' l]] eqn:Hl; simpl.
  - by repeat case_decide.
  - destruct (is_none x && expand_none); simpl.
    + rewrite length_replicate. by repeat case_decide.
    + by repeat case_decide.
  - by repeat case_decide.
Qed.

Lemma normalize_given_data_NoDup m (input_data : given A) kind N :
  normalize_given_data steps m input_data kind = Ok N → NoDup (dict_keys N).
Proof.
  destruct input_data as [items|v]; simpl.
  - by intros [? _]%normalize_dict_spec.
  - rewrite normalize_list_spec.
    destruct (_ && _); [intros [= <-]; apply dict_of_NoDup|].
    case_decide; [|done]. intros [= <-]; apply dict_of_NoDup.
Qed.

End NormalizeFacts.

Section C9.
Context {A : Type}.
Variable steps : nat → Step.

(** C9: positional data is zipped, in declaration order, against the
    declared inputs when the role is input and against the declared outputs
    otherwise; a count that differs from the number of declared slots is an
    ArityMismatch, with one exception: for the role target, a single None
    becomes one None per declared output.  With distinct slots the resulting
    dictionary has the slots as keys, in order, each mapped to the value at
    its position. *)
Theorem positional_data_is_zipped m (v : value A) (kind : string) :
  let dataobjs := if decide (kind = "input") then model_inputs m else model_outputs m in
  let data_list := listify v in
  let r := normalize_given_data steps m (GivenValue v) kind in
  (kind = "target" → single_none data_list = true →
     r = Ok (dict_of (zip dataobjs (replicate (length dataobjs) VNone)))) ∧
  (¬ (kind = "target" ∧ single_none data_list = true) →
     (length data_list ≠ length dataobjs →
        r = Err (ArityMismatch (length dataobjs) (length data_list))) ∧
     (length data_list = length dataobjs →
        r = Ok (dict_of (zip dataobjs data_list)))) ∧
  (∀ N, r = Ok N → NoDup dataobjs →
     dict_keys N = dataobjs ∧
     ∀ i d, dataobjs !! i = Some d →
       dict_get N d =
         if single_none data_list && bool_decide (kind = "target")
         then Some VNone else data_list !! i).
Proof.
  intros dataobjs data_list r.
  assert (Hr : r =
    if single_none data_list && bool_decide (kind = "target")
    then Ok (dict_of (zip dataobjs (replicate (length dataobjs) VNone)))
    else if decide (length data_list = length dataobjs)
         then Ok (dict_of (zip dataobjs data_list))
         else Err (ArityMismatch (length dataobjs) (length data_list))).
  { unfold r. simpl. apply normalize_list_spec. }
  split_and!.
  - intros Hk Hs. rewrite Hr, Hs, bool_decide_eq_true_2; done.
  - intros Hnot.
    assert (single_none data_list && bool_decide (kind = "target") = false) as Hf.
    { destruct (single_none data_list); [|done]. simpl.
      apply bool_decide_eq_false_2. intros ?. by apply Hnot. }
    rewrite Hr, Hf. split; intros ?; by case_decide.
  - intros N HN Hnd. rewrite Hr in HN.
    assert (Hzip : ∀ (vals : list (value A)), length vals = length dataobjs →
      dict_keys (dict_of (zip dataobjs vals)) = dataobjs ∧
      ∀ i d, dataobjs !! i = Some d → dict_get (dict_of (zip dataobjs vals)) d = vals !! i).
    { intros vals Hlen.
      assert (Hfst : (zip dataobjs vals).*1 = dataobjs) by (apply fst_zip; lia).
      rewrite dict_of_NoDup_id by (by rewrite Hfst).
      split; [done|]. intros i d Hi.
      destruct (lookup_lt_is_Some_2 vals i) as [y Hy].
      { rewrite Hlen. by eapply lookup_lt_Some. }
      rewrite Hy. apply dict_get_elem_of; [unfold dict_keys; by rewrite Hfst|].
      apply list_elem_of_lookup. exists i. apply lookup_zip_with_Some. eauto. }
    destruct (single_none data_list && bool_decide (kind = "target")).
    + simplify_eq. destruct (Hzip (replicate (length dataobjs) VNone)) as [Hk Hg];
        [by rewrite length_replicate|].
      split; [done|]. intros i d Hi. rewrite (Hg i d Hi).
      apply lookup_replicate_2. by eapply lookup_lt_Some.
    + case_decide; simplify_eq. by apply Hzip.
Qed.

End C9.

Section FitCalls.
Context {A W : Type}.
Variable steps : nat → Step.
Variable fit_op : nat → list (value A) → W → W * op_outcome unit.
Variable predict_op : nat → list (value A) → W → W * op_outcome (value A).
Variable transform_op : nat → list (value A) → W → W * op_outcome (value A).

Lemma supplied_targets_elem_of (T : list (Data * value A)) outputs y :
  y ∈ supplied_targets T outputs ↔
  ∃ o, o ∈ outputs ∧ dict_get T o = Some y ∧ is_none y = false.
Proof.
  unfold supplied_targets, has_target. rewrite list_elem_of_fmap.
  setoid_rewrite list_elem_of_filter. split.
  - intros (o & -> & Ht & Ho). exists o. destruct (dict_get T o) as [y|]; [|done].
    simpl. split_and!; [done..|]. by destruct (is_none y).
  - intros (o & Ho & Hy & Hn). exists o. rewrite Hy, Hn. done.
Qed.

Implicit Types (cache : gmap Data (value A)) (st : state (A := A) (W := W)).

Abbreviation compute_step' := (compute_step steps predict_op transform_op).
Abbreviation fit_step' := (fit_step steps fit_op predict_op transform_op).

(** One iteration of the loop of [fit] that completes has written to the
    output slots of its step only. *)
Lemma fit_step_frame T cache s st st' cache' k :
  fit_step' T cache s st = (st', Ok cache') →
  k ∉ step_outputs (steps s) → cache' !! k = cache !! k.
Proof.
  rewrite fit_step_eq. intros H Hk.
  destruct (gather cache (step_inputs (steps s))) as [Xs|]; [|done].
  assert (Hc : ∀ st0, compute_step' s Xs cache st0 = (st', Ok cache') →
                      cache' !! k = cache !! k).
  { intros st0. rewrite compute_step_eq.
    destruct (compute_pairs _ _ _ s Xs st0) as [st1 [p|e]] eqn:Hp; [|done].
    intros [= <- <-]. apply cache_update_ne.
    unfold compute_pairs, bind, call, raise, lift, ret in Hp.
    intros ([a b] & -> & Hin)%list_elem_of_fmap. apply Hk.
    destruct (has_predict (steps s)); [|destruct (has_transform (steps s))].
    - destruct (predict_op s Xs (world st0)) as [w [y|msg]]; simplify_eq.
      by apply elem_of_zip_l in Hin.
    - destruct (transform_op s Xs (world st0)) as [w [y|msg]]; simplify_eq.
      by apply elem_of_zip_l in Hin.
    - done. }
  destruct (has_fit (steps s)); [|by eapply Hc]. cbv zeta in H.
  destruct (fit_op s _ (world st)) as [w [[]|msg]]; [by eapply Hc|done].
Qed.

Lemma fit_loop_frame T l cache st st' cache' k :
  for_eachM (fit_step' T) l cache st = (st', Ok cache') →
  (∀ s, s ∈ l → k ∉ step_outputs (steps s)) → cache' !! k = cache !! k.
Proof.
  revert cache st. induction l as [|s l IH]; intros cache st.
  - by intros [= <- <-].
  - rewrite for_eachM_cons.
    destruct (fit_step' T cache s st) as [st1 [cache1|e]] eqn:Hs; [|done].
    intros Hl Hk. rewrite (IH _ _ Hl) by (intros s' ?; apply Hk; by right).
    eapply fit_step_frame; [done|]. apply Hk. left.
Qed.

(** The training call of one iteration is made on the values gathered from
    the cache the iteration starts with. *)
Lemma fit_step_gathered T cache s st st' r :
  fit_step' T cache s st = (st', r) →
  ∃ t, trace st' = trace st ++ t ∧
    (∀ s' args, CallFit s' args ∈ t →
       s' = s ∧ has_fit (steps s) = true ∧
       ∃ Xs, gather cache (step_inputs (steps s)) = Ok Xs ∧
             args = Xs ++ supplied_targets T (step_outputs (steps s))) ∧
    (∀ cache', r = Ok cache' →
       ∃ Xs, gather cache (step_inputs (steps s)) = Ok Xs ∧
             t = step_calls steps T s Xs).
Proof.
  rewrite fit_step_eq.
  destruct (gather cache (step_inputs (steps s))) as [Xs|e] eqn:HXs.
  2:{ intros ?; simplify_eq. exists [].
      rewrite app_nil_r. split_and!; [done|by intros ?? ?%elem_of_nil|done]. }
  unfold step_calls.
  assert (Hcc : ∀ s' Ys, CallFit (A := A) s' Ys ≠ computing_call steps s Xs).
  { intros s' Ys. unfold computing_call. by destruct (has_predict (steps s)). }
  destruct (has_fit (steps s)) eqn:Hfit; cbv zeta.
  - rewrite gather_targets_supplied.
    destruct (fit_op s _ (world st)) as [w [[]|msg]].
    + intros Hc. apply compute_step_trace in Hc as (_ & Hok & Hor). simpl in *.
      destruct Hor as [Hor|Hor].
      * exists [CallFit s (Xs ++ supplied_targets T (step_outputs (steps s)))].
        split_and!; [done| |].
        -- intros s' args [= -> ->]%list_elem_of_singleton. eauto.
        -- intros cache' ->. specialize (Hok _ eq_refl). rewrite Hok in Hor.
           apply (f_equal length) in Hor. rewrite !length_app in Hor. simpl in Hor. lia.
      * exists ([CallFit s (Xs ++ supplied_targets T (step_outputs (steps s)))]
                  ++ [computing_call steps s Xs]).
        split_and!; [by rewrite Hor, <-app_assoc| |by eauto].
        intros s' args [[= -> ->]%list_elem_of_singleton|Hin%list_elem_of_singleton]%elem_of_app;
          [eauto|]. by destruct (Hcc s' args).
    + intros ?; simplify_eq. simpl.
      exists [CallFit s (Xs ++ supplied_targets T (step_outputs (steps s)))].
      split_and!; [done| |done].
      intros s' args [= -> ->]%list_elem_of_singleton. eauto.
  - intros Hc. apply compute_step_trace in Hc as (_ & Hok & Hor).
    destruct Hor as [Hor|Hor].
    + exists []. rewrite app_nil_r. split_and!; [done|by intros ?? ?%elem_of_nil|].
      intros cache' ->. specialize (Hok _ eq_refl). rewrite Hok in Hor.
      apply (f_equal length) in Hor. rewrite !length_app in Hor. simpl in Hor. lia.
    + exists [computing_call steps s Xs]. split_and!; [done| |by eauto].
      intros s' args Hin%list_elem_of_singleton. by destruct (Hcc s' args).
Qed.

(** The whole loop of [fit]: each training call is made on the values
    gathered from the cache the loop holds when it arrives at the step. *)
Lemma fit_loop_gathered T l cache st st' r :
  for_eachM (fit_step' T) l cache st = (st', r) →
  ∃ t, trace st' = trace st ++ t ∧
    (∀ s args, CallFit s args ∈ t →
       has_fit (steps s) = true ∧
       ∃ l1 l2 st1 cache1 Xs,
         l = l1 ++ s :: l2 ∧
         for_eachM (fit_step' T) l1 cache st = (st1, Ok cache1) ∧
         gather cache1 (step_inputs (steps s)) = Ok Xs ∧
         args = Xs ++ supplied_targets T (step_outputs (steps s))) ∧
    (∀ cache', r = Ok cache' →
       ∃ Xss, length Xss = length l ∧
         t = concat (zip_with (step_calls steps T) l Xss) ∧
         ∀ l1 s l2, l = l1 ++ s :: l2 →
           ∃ st1 cache1 Xs,
             for_eachM (fit_step' T) l1 cache st = (st1, Ok cache1) ∧
             gather cache1 (step_inputs (steps s)) = Ok Xs ∧
             Xss !! length l1 = Some Xs).
Proof.
  revert cache st. induction l as [|s l IH]; intros cache st.
  - intros [= <- <-]. exists []. rewrite app_nil_r.
    split_and!; [done|by intros ?? ?%elem_of_nil|].
    intros _ _. exists []. split_and!; [done..|]. by intros [|??] ?? ?.
  - rewrite for_eachM_cons.
    destruct (fit_step' T cache s st) as [st1 [cache1|e]] eqn:Hs;
      pose proof (fit_step_gathered _ _ _ _ _ _ Hs) as (t1 & Ht1 & Hfit1 & Hok1).
    + intros Hl. destruct (IH _ _ Hl) as (t2 & Ht2 & Hfit2 & Hok2).
      exists (t1 ++ t2). split_and!; [by rewrite Ht2, Ht1, app_assoc| |].
      * intros s' args [Hin|Hin]%elem_of_app.
        -- destruct (Hfit1 _ _ Hin) as (-> & Hf & Xs & HXs & ->). split; [done|].
           by exists [], l, st, cache, Xs.
        -- destruct (Hfit2 _ _ Hin) as (Hf & l1 & l2 & st2 & cache2 & Xs & -> & Hl1 & HXs & ->).
           split; [done|]. exists (s :: l1), l2, st2, cache2, Xs.
           split_and!; [done| |done..]. by rewrite for_eachM_cons, Hs.
      * intros cache' Hr. destruct (Hok1 _ eq_refl) as (Xs & HXs & ->).
        destruct (Hok2 _ Hr) as (Xss & Hlen & -> & Hpos).
        exists (Xs :: Xss). split_and!; [by simpl; rewrite Hlen|done|].
        intros [|s0 l1] s' l2 Heq; simpl in Heq; injection Heq as ? ?; subst.
        -- by exists st, cache, Xs.
        -- destruct (Hpos l1 s' l2 eq_refl) as (st2 & cache2 & Xs' & Hl1 & HXs' & Hlk).
           exists st2, cache2, Xs'. split_and!; [|done..]. by rewrite for_eachM_cons, Hs.
    + intros ?; simplify_eq. exists t1. split_and!; [done| |done].
      intros s' args Hin. destruct (Hfit1 _ _ Hin) as (-> & Hf & Xs & HXs & ->).
      split; [done|]. by exists [], l, st, cache, Xs.
Qed.

(** C8: every training call that [fit] makes is made on a step that has
    the train capability, with the input values gathered from the cache the
    loop holds when it arrives at that step (for an input slot that no
    earlier step of the loop writes, the value supplied for it), followed by
    the targets of those of the step's output slots that have a target which
    is not None, in slot order; and when [fit] completes, its calls are,
    step by step in the resolved order, the training call if the step can
    train, then the computing call on the same gathered input values. *)
Theorem fit_trains_with_supplied_targets depth m input_data target_data
    (st st' : state (A := A) (W := W)) r :
  fit steps fit_op predict_op transform_op depth m input_data target_data st = (st', r) →
  ∃ t, trace st' = trace st ++ t ∧
    (∀ s args, CallFit s args ∈ t →
       has_fit (steps s) = true ∧
       ∃ N T ws l l1 l2 st1 cache1 Xs,
         normalize_given_data steps m input_data "input" = Ok N ∧
         normalize_given_data steps m target_data "target" = Ok T ∧
         get_required_steps steps depth (model_graph m) (dict_keys N) (dict_keys T)
           = (ws, Ok l) ∧
         l = l1 ++ s :: l2 ∧
         for_eachM (fit_step steps fit_op predict_op transform_op T) l1
           (cache_update ∅ (dict_items N))
           (mkState (world st) (trace st) (warned st ++ ws)) = (st1, Ok cache1) ∧
         gather cache1 (step_inputs (steps s)) = Ok Xs ∧
         (∀ i, i ∈ step_inputs (steps s) →
               (∀ s', s' ∈ l1 → i ∉ step_outputs (steps s')) →
               cache1 !! i = dict_get N i) ∧
         length Xs = length (step_inputs (steps s)) ∧
         args = Xs ++ supplied_targets T (step_outputs (steps s))) ∧
    (r = Ok () →
       ∃ N T ws l Xss,
         normalize_given_data steps m input_data "input" = Ok N ∧
         normalize_given_data steps m target_data "target" = Ok T ∧
         get_required_steps steps depth (model_graph m) (dict_keys N) (dict_keys T)
           = (ws, Ok l) ∧
         Forall2 (λ s Xs, length Xs = length (step_inputs (steps s))) l Xss ∧
         t = concat (zip_with (step_calls steps T) l Xss) ∧
         ∀ l1 s l2, l = l1 ++ s :: l2 →
           ∃ st1 cache1 Xs,
             for_eachM (fit_step steps fit_op predict_op transform_op T) l1
               (cache_update ∅ (dict_items N))
               (mkState (world st) (trace st) (warned st ++ ws)) = (st1, Ok cache1) ∧
             gather cache1 (step_inputs (steps s)) = Ok Xs ∧
             Xss !! length l1 = Some Xs) ∧
    (∀ (T : list (Data * value A)) outputs y,
       y ∈ supplied_targets T outputs ↔
       ∃ o, o ∈ outputs ∧ dict_get T o = Some y ∧ is_none y = false).
Proof.
  rewrite fit_eq. intros H.
  destruct (normalize_given_data steps m input_data "input") as [N|] eqn:HN.
  2:{ simplify_eq. exists []. rewrite app_nil_r.
      split_and!; [done|by intros ?? ?%elem_of_nil|done|apply supplied_targets_elem_of]. }
  destruct (normalize_given_data steps m target_data "target") as [T|] eqn:HT.
  2:{ simplify_eq. exists []. rewrite app_nil_r.
      split_and!; [done|by intros ?? ?%elem_of_nil|done|apply supplied_targets_elem_of]. }
  cbv zeta in H.
  destruct (get_required_steps _ _ _ _ _) as [ws [l|e]] eqn:Hres.
  2:{ simplify_eq. exists []. simpl. rewrite app_nil_r.
      split_and!; [done|by intros ?? ?%elem_of_nil|done|apply supplied_targets_elem_of]. }
  pose proof (normalize_given_data_NoDup steps m input_data "input" N HN) as HndN.
  destruct (for_eachM _ _ _ _) as [st1 [cache1|e]] eqn:Hloop;
    apply fit_loop_gathered in Hloop as (t & Ht & Hfit & Hok); simplify_eq;
    exists t; (split_and!; [done| | |apply supplied_targets_elem_of]).
  - intros s args Hin.
    destruct (Hfit _ _ Hin) as (Hf & l1 & l2 & st2 & cache2 & Xs & Hl & Hl1 & HXs & ->).
    split; [done|]. exists N, T, ws, l, l1, l2, st2, cache2, Xs.
    split_and!; [done..| |by eapply gather_length|done].
    intros i _ Hi. transitivity (cache_update ∅ (dict_items N) !! i).
    + eapply fit_loop_frame; [exact Hl1|exact Hi].
    + by apply cache_update_empty_lookup.
  - intros _. destruct (Hok _ eq_refl) as (Xss & Hlen & -> & Hpos).
    exists N, T, ws, l, Xss. split_and!; [done..| |done|done].
    apply Forall2_same_length_lookup_2; [done|].
    intros k s Xs Hs HXs.
    destruct (Hpos (take k l) s (drop (S k) l)) as (_ & c & Xs' & _ & Hg & Hlk).
    { by rewrite take_drop_middle. }
    rewrite length_take_le in Hlk by (apply lookup_lt_Some in Hs; lia).
    simplify_eq. by eapply gather_length.
  - intros s args Hin.
    destruct (Hfit _ _ Hin) as (Hf & l1 & l2 & st2 & cache2 & Xs & Hl & Hl1 & HXs & ->).
    split; [done|]. exists N, T, ws, l, l1, l2, st2, cache2, Xs.
    split_and!; [done..| |by eapply gather_length|done].
    intros i _ Hi. transitivity (cache_update ∅ (dict_items N) !! i).
    + eapply fit_loop_frame; [exact Hl1|exact Hi].
    + by apply cache_update_empty_lookup.
  - done.
Qed.


End FitCalls.

Lemma fit_trains_with_supplied_targets_witness :
  ∃ t, trace (mkState 3
       [CallFit 1 [VArray 5%Z]; CallTransform 1 [VArray 5%Z];
        CallFit 2 [VArray 5%Z]; CallPredict 2 [VArray 5%Z];
        CallFit 3 [VArray 6%Z; VArray 10%Z; VArray 7%Z];
        CallPredict 3 [VArray 6%Z; VArray 10%Z]] []) = trace Diamond.init ++ t ∧
    (∀ s args, CallFit s args ∈ t →
       has_fit (Diamond.steps s) = true ∧
       ∃ N T ws l l1 l2 st1 cache1 Xs,
         normalize_given_data Diamond.steps Diamond.model (GivenValue (VArray 5%Z)) "input" = Ok N ∧
         normalize_given_data Diamond.steps Diamond.model (GivenDict [(KStr "w", VArray 7%Z)]) "target" = Ok T ∧
         get_required_steps Diamond.steps 10 (model_graph Diamond.model) (dict_keys N) (dict_keys T)
           = (ws, Ok l) ∧
         l = l1 ++ s :: l2 ∧
         for_eachM (fit_step Diamond.steps Diamond.fit_op Diamond.predict_op Diamond.predict_op T) l1
           (cache_update ∅ (dict_items N))
           (mkState (world Diamond.init) (trace Diamond.init) (warned Diamond.init ++ ws)) = (st1, Ok cache1) ∧
         gather cache1 (step_inputs (Diamond.steps s)) = Ok Xs ∧
         (∀ i, i ∈ step_inputs (Diamond.steps s) →
               (∀ s', s' ∈ l1 → i ∉ step_outputs (Diamond.steps s')) →
               cache1 !! i = dict_get N i) ∧
         length Xs = length (step_inputs (Diamond.steps s)) ∧
         args = Xs ++ supplied_targets T (step_outputs (Diamond.steps s))) ∧
    (Ok () = Ok () →
       ∃ N T ws l Xss,
         normalize_given_data Diamond.steps Diamond.model (GivenValue (VArray 5%Z)) "input" = Ok N ∧
         normalize_given_data Diamond.steps Diamond.model (GivenDict [(KStr "w", VArray 7%Z)]) "target" = Ok T ∧
         get_required_steps Diamond.steps 10 (model_graph Diamond.model) (dict_keys N) (dict_keys T)
           = (ws, Ok l) ∧
         Forall2 (λ s Xs, length Xs = length (step_inputs (Diamond.steps s))) l Xss ∧
         t = concat (zip_with (step_calls Diamond.steps T) l Xss) ∧
         ∀ l1 s l2, l = l1 ++ s :: l2 →
           ∃ st1 cache1 Xs,
             for_eachM (fit_step Diamond.steps Diamond.fit_op Diamond.predict_op Diamond.predict_op T) l1
               (cache_update ∅ (dict_items N))
               (mkState (world Diamond.init) (trace Diamond.init) (warned Diamond.init ++ ws)) = (st1, Ok cache1) ∧
             gather cache1 (step_inputs (Diamond.steps s)) = Ok Xs ∧
             Xss !! length l1 = Some Xs) ∧
    (∀ (T : list (Data * value Z)) outputs y,
       y ∈ supplied_targets T outputs ↔
       ∃ o, o ∈ outputs ∧ dict_get T o = Some y ∧ is_none y = false).
Proof.
  apply (fit_trains_with_supplied_targets Diamond.steps Diamond.fit_op
           Diamond.predict_op Diamond.predict_op 10 Diamond.model
           (GivenValue (VArray 5%Z)) (GivenDict [(KStr "w", VArray 7%Z)])
           Diamond.init
           (mkState 3
           [CallFit 1 [VArray 5%Z]; CallTransform 1 [VArray 5%Z];
            CallFit 2 [VArray 5%Z]; CallPredict 2 [VArray 5%Z];
            CallFit 3 [VArray 6%Z; VArray 10%Z; VArray 7%Z];
            CallPredict 3 [VArray 6%Z; VArray 10%Z]] [])
           (Ok ())).
  vm_compute. reflexivity.
Defined.


Section C6.
Variable steps : nat → Step.

(** C6: when the step structure is acyclic and within the recursion depth,
    and two distinct steps reachable from the declared outputs have the same
    name, construction fails with DuplicateStepName; the error lists, once
    each, exactly the names carried by two distinct reachable steps. *)
Theorem duplicate_names_fail_construction rank depth ins outs s1 s2 :
  ranked steps rank →
  (∀ o, o ∈ outs → rank (data_step o) < depth) →
  reachable steps outs s1 → reachable steps outs s2 → s1 ≠ s2 →
  step_name (steps s1) = step_name (steps s2) →
  ∃ dups,
    Model_init steps depth ins outs = ([], Err (DuplicateStepName dups)) ∧
    step_name (steps s1) ∈ dups ∧
    NoDup dups ∧
    ∀ n, n ∈ dups ↔
         ∃ t1 t2, reachable steps outs t1 ∧ reachable steps outs t2 ∧ t1 ≠ t2 ∧
                  step_name (steps t1) = n ∧ step_name (steps t2) = n.
Proof.
  intros Hrank Hdepth Hs1 Hs2 Hne Hname.
  destruct (collect_all_total steps rank depth outs DiGraph.empty Hrank Hdepth)
    as [g0 Hwalk].
  destruct (collect_nodes _ _ _ _ Hwalk) as (_ & Hnd & Hnodes).
  destruct (add_edges_spec steps g0) as [Hn _].
  destruct (duplicated_names_spec (node_names steps (add_edges steps g0)))
    as [Hdnd Hdups].
  set (dups := duplicated_names (count_names (node_names steps (add_edges steps g0)))) in *.
  assert (Hchar : ∀ n, n ∈ dups ↔
    ∃ t1 t2, reachable steps outs t1 ∧ reachable steps outs t2 ∧ t1 ≠ t2 ∧
             step_name (steps t1) = n ∧ step_name (steps t2) = n).
  { intros n. rewrite Hdups. unfold node_names. rewrite Hn.
    rewrite (occurrences_fmap _ _ _ Hnd). by setoid_rewrite Hnodes. }
  assert (Hin : step_name (steps s1) ∈ dups).
  { apply Hchar. by exists s1, s2. }
  exists dups. split_and!; [|done..].
  unfold Model_init, build_graph. rewrite Hwalk. simpl. fold dups.
  destruct dups; [by apply elem_of_nil in Hin|done].
Qed.

End C6.

Lemma duplicate_names_fail_construction_witness :
  ∃ dups,
    Model_init Twins.steps 5 [Twins.x] [Twins.z] = ([], Err (DuplicateStepName dups)) ∧
    "S" ∈ dups.
Proof.
  destruct (duplicate_names_fail_construction Twins.steps (λ s, s) 5
              [Twins.x] [Twins.z] 1 2) as (dups & Hinit & Hin & _).
  - intros s i Hi.
    do 3 (destruct s as [|s]; [simpl in Hi; set_solver by (simpl; lia)|]).
    simpl in Hi. set_solver.
  - intros o ->%list_elem_of_singleton. simpl. lia.
  - exists Twins.z. split; [set_solver|]. apply rtc_once. exists Twins.y.
    simpl. set_solver.
  - exists Twins.z. split; [set_solver|]. apply rtc_refl.
  - lia.
  - reflexivity.
  - by exists dups.
Defined.

(** ** An input that the traversal does not reach *)

Lemma for_each_ext {X S} (body body' : S → X → result S) (l : list X) (s : S) :
  (∀ s x, x ∈ l → body s x = body' s x) →
  for_each body l s = for_each body' l s.
Proof.
  revert s. induction l as [|x l IH]; intros s Hext; [done|].
  simpl. rewrite (Hext s x) by left.
  destruct (body' s x); simpl; [|done]. apply IH. intros ???. apply Hext. by right.
Qed.

Lemma dict_set_fresh {K V} `{EqDecision K} (d : list (K * V)) k v :
  k ∉ dict_keys d → dict_set k v d = d ++ [(k, v)].
Proof.
  unfold dict_keys. induction d as [|[k0 v0] d IH]; csimpl; [done|].
  intros Hk. case_decide; [set_solver|]. f_equal. apply IH. set_solver.
Qed.

Section Unreached.
Variable steps : nat → Step.
Variable inputs : list Data.
Variable u : Data.

Lemma backtrack_unreached depth (R : gset nat) F o :
  (∀ d, rtc (descends steps (inputs ++ [u])) o d → d ≠ u) →
  backtrack steps depth (inputs ++ [u]) R F o = backtrack steps depth inputs R F o.
Proof.
  revert F o. induction depth as [|depth IH]; intros F o Hu; [done|].
  rewrite !backtrack_unfold.
  assert (Hou : o ≠ u) by (by apply Hu).
  destruct (decide (o ∈ inputs ++ [u])) as [Hin|Hin],
           (decide (o ∈ inputs)) as [Hin'|Hin']; [done|set_solver|set_solver|].
  destruct (decide (data_step o ∈ R)); [done|].
  apply for_each_ext. intros [acc Fa] i Hi. unfold backtrack_body.
  rewrite IH; [done|]. intros d Hd. apply Hu. by eapply rtc_l.
Qed.

Lemma backtrack_all_unreached depth outputs :
  ¬ reached steps (inputs ++ [u]) outputs u →
  backtrack_all steps depth (inputs ++ [u]) outputs =
  backtrack_all steps depth inputs outputs.
Proof.
  intros Hu. unfold backtrack_all. apply for_each_ext. intros [acc Fa] o Ho.
  rewrite backtrack_unreached; [done|].
  intros d Hd ->. apply Hu. by exists o.
Qed.

Lemma unused_warnings_snoc F :
  u ∉ F →
  unused_warnings (inputs ++ [u]) F =
  unused_warnings inputs F ++ [UnusedInput (data_name u)].
Proof.
  intros Hu. unfold unused_warnings.
  rewrite filter_app, fmap_app, filter_cons, filter_nil. by case_decide.
Qed.

(** The resolution with the unreached input: the same outcome, and once the
    backtracking is through, one more warning, for [u]. *)
Lemma get_required_steps_unreached depth g outputs :
  ¬ reached steps (inputs ++ [u]) outputs u →
  ∃ extra,
    get_required_steps steps depth g (inputs ++ [u]) outputs =
      ((get_required_steps steps depth g inputs outputs).1 ++ extra,
       (get_required_steps steps depth g inputs outputs).2) ∧
    (extra = [] ∨ extra = [UnusedInput (data_name u)]) ∧
    (∀ l, (get_required_steps steps depth g inputs outputs).2 = Ok l →
          extra = [UnusedInput (data_name u)]).
Proof.
  intros Hu. unfold get_required_steps.
  destruct (DiGraph.topological_sort g) as [sorted|e].
  2:{ exists []. split_and!; [done|by left|done]. }
  rewrite (backtrack_all_unreached _ _ Hu).
  destruct (backtrack_all steps depth inputs outputs) as [[R F]|e] eqn:Hbt.
  2:{ exists []. split_and!; [done|by left|done]. }
  assert (HuF : u ∉ F).
  { rewrite <-(backtrack_all_unreached _ _ Hu) in Hbt.
    apply backtrack_all_spec in Hbt as (_ & HF & _). rewrite HF. tauto. }
  rewrite (unused_warnings_snoc _ HuF).
  exists [UnusedInput (data_name u)].
  destruct (missing_inputs steps g R); (split_and!; [done|by right|done]).
Qed.

End Unreached.

Section Agreement.
Context {A W : Type}.
Variable steps : nat → Step.
Variable fit_op : nat → list (value A) → W → W * op_outcome unit.
Variable predict_op : nat → list (value A) → W → W * op_outcome (value A).
Variable transform_op : nat → list (value A) → W → W * op_outcome (value A).
Implicit Types (cache : gmap Data (value A)) (st : state (A := A) (W := W)).
Implicit Types (T : list (Data * value A)).

Abbreviation compute_step' := (compute_step steps predict_op transform_op).
Abbreviation predict_step' := (predict_step steps predict_op transform_op).
Abbreviation fit_step' := (fit_step steps fit_op predict_op transform_op).

Lemma agree_off_update u cache cache' (p : list (Data * value A)) :
  agree_off u cache cache' →
  agree_off u (cache_update cache p) (cache_update cache' p).
Proof. intros Hag k Hk. apply cache_update_agree. by apply Hag. Qed.

(** Two states with the same steps' state and the same calls so far. *)
Lemma compute_pairs_same_run s Xs st st2 :
  world st = world st2 → trace st = trace st2 →
  world (compute_pairs steps predict_op transform_op s Xs st).1 =
    world (compute_pairs steps predict_op transform_op s Xs st2).1 ∧
  trace (compute_pairs steps predict_op transform_op s Xs st).1 =
    trace (compute_pairs steps predict_op transform_op s Xs st2).1 ∧
  warned (compute_pairs steps predict_op transform_op s Xs st).1 = warned st ∧
  (compute_pairs steps predict_op transform_op s Xs st).2 =
    (compute_pairs steps predict_op transform_op s Xs st2).2.
Proof.
  destruct st as [w t wd], st2 as [w2 t2 wd2]. simpl. intros <- <-.
  unfold compute_pairs, bind, call, raise, lift, ret.
  destruct (has_predict (steps s)); [|destruct (has_transform (steps s))]; cbn.
  - by destruct (predict_op s Xs w) as [w' [y|msg]].
  - by destruct (transform_op s Xs w) as [w' [y|msg]].
  - done.
Qed.

Lemma compute_step_agree u cache cache' s Xs st st2 :
  agree_off u cache cache' →
  world st = world st2 → trace st = trace st2 →
  world (compute_step' s Xs cache st).1 = world (compute_step' s Xs cache' st2).1 ∧
  trace (compute_step' s Xs cache st).1 = trace (compute_step' s Xs cache' st2).1 ∧
  warned (compute_step' s Xs cache st).1 = warned st ∧
  outcomes_agree u (compute_step' s Xs cache st).2 (compute_step' s Xs cache' st2).2.
Proof.
  intros Hag Hw Ht. rewrite !compute_step_eq.
  destruct (compute_pairs_same_run s Xs st st2 Hw Ht) as (Hw' & Ht' & Hwd & Hr).
  destruct (compute_pairs _ _ _ s Xs st) as [st1 [p|e]],
           (compute_pairs _ _ _ s Xs st2) as [st1' [p'|e']]; simplify_eq/=; [|done].
  split_and!; [done..|]. by apply agree_off_update.
Qed.

Lemma predict_step_blind : cache_blind steps predict_step'.
Proof.
  intros u cache cache' s st st2 Hag Hin Hw Ht. rewrite !predict_step_eq.
  rewrite (gather_agree cache cache') by (intros i Hi; apply Hag; auto).
  destruct (gather cache' _) as [Xs|e]; [|done].
  by apply compute_step_agree.
Qed.

Lemma fit_step_blind T : cache_blind steps (fit_step' T).
Proof.
  intros u cache cache' s st st2 Hag Hin Hw Ht. rewrite !fit_step_eq.
  rewrite (gather_agree cache cache') by (intros i Hi; apply Hag; auto).
  destruct (gather cache' _) as [Xs|e]; [|done].
  destruct (has_fit (steps s)); [|by apply compute_step_agree]. cbv zeta.
  rewrite <-Hw.
  destruct (fit_op s _ (world st)) as [w [[]|msg]].
  - destruct (compute_step_agree u cache cache' s Xs
                (mkState w (trace st ++ [CallFit s (Xs ++ gather_targets T (step_outputs (steps s)))]) (warned st))
                (mkState w (trace st2 ++ [CallFit s (Xs ++ gather_targets T (step_outputs (steps s)))]) (warned st2))
                Hag) as (? & ? & ? & ?); [done|simpl; by rewrite Ht|].
    by split_and!.
  - simpl. by rewrite Ht.
Qed.

End Agreement.

Section LoopAgreement.
Context {A W : Type}.
Variable steps : nat → Step.
Variable body : gmap Data (value A) → nat → M (A := A) (W := W) (gmap Data (value A)).
Hypothesis body_blind : cache_blind steps body.

Lemma loop_agree u l cache cache' (st st2 : state (A := A) (W := W)) :
  agree_off u cache cache' →
  (∀ s i, s ∈ l → i ∈ step_inputs (steps s) → i ≠ u) →
  world st = world st2 → trace st = trace st2 →
  world (for_eachM body l cache st).1 = world (for_eachM body l cache' st2).1 ∧
  trace (for_eachM body l cache st).1 = trace (for_eachM body l cache' st2).1 ∧
  warned (for_eachM body l cache st).1 = warned st ∧
  outcomes_agree u (for_eachM body l cache st).2 (for_eachM body l cache' st2).2.
Proof using body_blind.
  revert cache cache' st st2. induction l as [|s l IH];
    intros cache cache' st st2 Hag Hin Hw Ht.
  - done.
  - rewrite !for_eachM_cons.
    destruct (body_blind u cache cache' s st st2 Hag) as (Hw1 & Ht1 & Hwd1 & Hr);
      [intros i Hi; eapply Hin; [left|done]|done..|].
    destruct (body cache s st) as [st1 [c1|e1]],
             (body cache' s st2) as [st1' [c2|e2]]; simpl in *; try done.
    destruct (IH c1 c2 st1 st1') as (? & ? & Hwd & ?); [done| |done..|].
    { intros s' i Hs'. apply Hin. by right. }
    split_and!; [done..|congruence|done].
Qed.

(** The loop on the cache with [u] added, from a state with more warnings:
    the same final state but for the warnings, and an outcome that agrees. *)
Lemma loop_with_unreached u v l cache (st st2 : state (A := A) (W := W)) extra :
  (∀ s i, s ∈ l → i ∈ step_inputs (steps s) → i ≠ u) →
  world st2 = world st → trace st2 = trace st → warned st2 = warned st ++ extra →
  (for_eachM body l (<[u:=v]> cache) st2).1 =
    mkState (world (for_eachM body l cache st).1) (trace (for_eachM body l cache st).1)
            (warned (for_eachM body l cache st).1 ++ extra) ∧
  outcomes_agree u (for_eachM body l (<[u:=v]> cache) st2).2
                   (for_eachM body l cache st).2.
Proof using body_blind.
  intros Hin Hw Ht Hwd.
  assert (Hag : agree_off u (<[u:=v]> cache) cache).
  { intros k Hk. by rewrite lookup_insert_ne. }
  assert (Hag' : agree_off u cache (<[u:=v]> cache)).
  { intros k Hk. by rewrite lookup_insert_ne. }
  destruct (loop_agree u l _ _ st2 st Hag Hin Hw Ht) as (Hw1 & Ht1 & Hwd1 & Hr).
  destruct (loop_agree u l _ _ st st2 Hag' Hin (eq_sym Hw) (eq_sym Ht))
    as (_ & _ & Hwd2 & _).
  split; [|done].
  destruct (for_eachM body l (<[u:=v]> cache) st2) as [[w1 t1 wd1] r1].
  simpl in *. rewrite Hwd2, <-Hwd, <-Hwd1, <-Hw1, <-Ht1. done.
Qed.

End LoopAgreement.

Section C7.
Context {A W : Type}.
Variable steps : nat → Step.
Variable fit_op : nat → list (value A) → W → W * op_outcome unit.
Variable predict_op : nat → list (value A) → W → W * op_outcome (value A).
Variable transform_op : nat → list (value A) → W → W * op_outcome (value A).

Lemma normalize_dict_snoc m (items : list (key * value A)) N u v :
  normalize_dict steps m items = Ok N →
  normalize_dict steps m (items ++ [(KData u, v)]) = Ok (dict_set u v N).
Proof.
  unfold normalize_dict. intros H. rewrite for_each_app, H. done.
Qed.

(** The steps of a resolution with the unreached input consume no [u]. *)
Lemma resolved_steps_avoid depth g inputs outputs u ws l :
  ¬ reached steps inputs outputs u →
  get_required_steps steps depth g inputs outputs = (ws, Ok l) →
  ∀ s i, s ∈ l → i ∈ step_inputs (steps s) → i ≠ u.
Proof.
  intros Hu (sorted & R & F & _ & Hbt & _ & _ & ->)%get_required_steps_Ok.
  apply backtrack_all_spec in Hbt as (HR & _ & _).
  intros s i [(d & (o & Ho & Hr) & Hno & <-)%HR _]%list_elem_of_filter Hi ->.
  apply Hu. exists o. split; [done|]. eapply rtc_r; [done|]. by split.
Qed.

(** The loops emit no warning: all warnings of a call are those of the
    resolution. *)
Lemma predict_loop_warned l (cache : gmap Data (value A))
    (st : state (A := A) (W := W)) :
  warned (for_eachM (predict_step steps predict_op transform_op) l cache st).1
  = warned st.
Proof.
  revert cache st. induction l as [|s l IH]; intros cache st; [done|].
  rewrite for_eachM_cons, predict_step_eq.
  destruct (gather cache (step_inputs (steps s))) as [Xs|]; [|done].
  destruct (compute_step steps predict_op transform_op s Xs cache st)
    as [st1 [c|e]] eqn:Hc; apply compute_step_trace in Hc as (Hw & _ & _);
    [by rewrite IH|done].
Qed.

Lemma predict_warned depth m (input_data : given A) outs_arg N outputs
    (st : state (A := A) (W := W)) :
  normalize_given_data steps m input_data "input" = Ok N →
  normalize_required_outputs steps m outs_arg = Ok outputs →
  warned (predict steps predict_op transform_op depth m input_data outs_arg st).1
  = warned st ++
    (get_required_steps steps depth (model_graph m) (dict_keys N) outputs).1.
Proof.
  intros HN Ho. rewrite predict_eq, HN, Ho. cbv zeta.
  destruct (get_required_steps _ _ _ _ _) as [ws [l|e]]; [|done]. simpl.
  pose proof (predict_loop_warned l (cache_update ∅ (dict_items N))
                (mkState (world st) (trace st) (warned st ++ ws))) as H.
  destruct (for_eachM _ _ _ _) as [st1 [cache|e]]; simpl in *; [|done].
  by destruct (gather cache outputs) as [[|x [|x' xs]]|].
Qed.

Lemma fit_warned depth m (input_data target_data : given A) N T
    (st : state (A := A) (W := W)) :
  normalize_given_data steps m input_data "input" = Ok N →
  normalize_given_data steps m target_data "target" = Ok T →
  warned (fit steps fit_op predict_op transform_op depth m input_data target_data st).1
  = warned st ++
    (get_required_steps steps depth (model_graph m) (dict_keys N) (dict_keys T)).1.
Proof.
  intros HN HT. rewrite fit_eq, HN, HT. cbv zeta.
  destruct (get_required_steps _ _ _ _ _) as [ws [l|e]]; [|done]. simpl.
  destruct (for_eachM _ _ _ _) as [st1 [cache|e]] eqn:Hloop;
    by apply fit_loop_trace in Hloop as (Hw & _).
Qed.

(** On an acyclic step structure, within the recursion depth, the
    resolution on the graph of a model does warn: with an unreached slot [u]
    added to distinct supplied slots, its warnings are those without [u]
    followed by one for [u], and they are, once each, the warnings for the
    supplied slots that are not reached. *)
Lemma unreached_input_warns rank depth0 outs g depth inputs outputs u :
  ranked steps rank →
  build_graph steps depth0 outs = Ok g →
  (∀ o, o ∈ outputs → rank (data_step o) < depth) →
  NoDup (inputs ++ [u]) →
  ¬ reached steps (inputs ++ [u]) outputs u →
  (get_required_steps steps depth g (inputs ++ [u]) outputs).1 =
    (get_required_steps steps depth g inputs outputs).1 ++ [UnusedInput (data_name u)] ∧
  ∃ unused,
    (get_required_steps steps depth g (inputs ++ [u]) outputs).1 =
      (λ i, UnusedInput (data_name i)) <$> unused ∧
    NoDup unused ∧
    ∀ i, i ∈ unused ↔
         i ∈ inputs ++ [u] ∧ ¬ reached steps (inputs ++ [u]) outputs i.
Proof.
  intros Hrank Hg Hdepth Hnd Hu.
  destruct (build_graph_Ok _ _ _ _ Hg) as (_ & _ & He).
  destruct (DiGraphFacts.topological_sort_complete rank g) as [sorted Hsort].
  { intros a b [_ (i & Hi & <-)]%He _ _. by apply Hrank. }
  destruct (backtrack_all_total steps rank depth (inputs ++ [u]) outputs Hrank Hdepth)
    as [[R F] Hbt].
  pose proof Hbt as Hbt'. rewrite (backtrack_all_unreached _ _ _ _ _ Hu) in Hbt'.
  destruct (backtrack_all_spec _ _ _ _ _ _ Hbt) as (_ & HF & _).
  assert (HuF : u ∉ F) by (rewrite HF; tauto).
  unfold get_required_steps. rewrite Hsort, Hbt, Hbt'.
  assert (Hfst : ∀ (ws : list warning) (r1 r2 : list warning * result (list nat)),
            r1.1 = ws → r2.1 = ws ++ [UnusedInput (data_name u)] →
            r2.1 = r1.1 ++ [UnusedInput (data_name u)]) by (by intros ??? -> ->).
  split.
  - rewrite (unused_warnings_snoc _ _ _ HuF).
    by destruct (missing_inputs steps g R).
  - exists (filter (λ i, i ∉ F) (inputs ++ [u])). split_and!.
    + by destruct (missing_inputs steps g R).
    + by apply NoDup_filter.
    + intros i. rewrite list_elem_of_filter, HF. tauto.
Qed.

(** C7: an input slot that the backtracking toward the requested outputs
    does not reach changes nothing of a call: [predict] with the slot added
    returns what [predict] without it returns, value or error, and leaves
    the same steps' state and the same method calls, and so does [fit].  The
    call does warn: on an acyclic step structure, within the recursion
    depth, the warnings of [predict] with the slot added are those of the
    call without it followed by one UnusedInput for the slot, and they are,
    once each, the warnings for the supplied slots that are not reached; the
    same holds of [fit].  (Whenever [predict] returns a value, and for every
    successful resolution, the same is true with no assumption.) *)
Theorem unused_input_changes_nothing depth m items outs_arg N outputs u v
    (st : state (A := A) (W := W)) :
  normalize_dict steps m items = Ok N →
  normalize_required_outputs steps m outs_arg = Ok outputs →
  u ∉ dict_keys N →
  ¬ reached steps (dict_keys N ++ [u]) outputs u →
  let without := predict steps predict_op transform_op depth m
                   (GivenDict items) outs_arg st in
  let with_u := predict steps predict_op transform_op depth m
                  (GivenDict (items ++ [(KData u, v)])) outs_arg st in
  with_u.2 = without.2 ∧
  world with_u.1 = world without.1 ∧
  trace with_u.1 = trace without.1 ∧
  (∀ x, without.2 = Ok x →
        warned with_u.1 = warned without.1 ++ [UnusedInput (data_name u)]) ∧
  (∀ ws l,
     get_required_steps steps depth (model_graph m) (dict_keys N ++ [u]) outputs
       = (ws, Ok l) →
     ∃ unused,
       ws = (λ i, UnusedInput (data_name i)) <$> unused ∧
       NoDup unused ∧
       ∀ i, i ∈ unused ↔
            i ∈ dict_keys N ++ [u] ∧ ¬ reached steps (dict_keys N ++ [u]) outputs i) ∧
  (∀ rank depth0 outs,
     ranked steps rank →
     build_graph steps depth0 outs = Ok (model_graph m) →
     (∀ o, o ∈ outputs → rank (data_step o) < depth) →
     warned with_u.1 = warned without.1 ++ [UnusedInput (data_name u)] ∧
     ∃ unused,
       warned with_u.1 = warned st ++ ((λ i, UnusedInput (data_name i)) <$> unused) ∧
       NoDup unused ∧
       ∀ i, i ∈ unused ↔
            i ∈ dict_keys N ++ [u] ∧ ¬ reached steps (dict_keys N ++ [u]) outputs i) ∧
  (∀ target_data T,
     normalize_given_data steps m target_data "target" = Ok T →
     ¬ reached steps (dict_keys N ++ [u]) (dict_keys T) u →
     let fit_without := fit steps fit_op predict_op transform_op depth m
                          (GivenDict items) target_data st in
     let fit_with_u := fit steps fit_op predict_op transform_op depth m
                         (GivenDict (items ++ [(KData u, v)])) target_data st in
     fit_with_u.2 = fit_without.2 ∧
     world fit_with_u.1 = world fit_without.1 ∧
     trace fit_with_u.1 = trace fit_without.1 ∧
     (fit_without.2 = Ok () →
      warned fit_with_u.1 = warned fit_without.1 ++ [UnusedInput (data_name u)]) ∧
     (∀ rank depth0 outs,
        ranked steps rank →
        build_graph steps depth0 outs = Ok (model_graph m) →
        (∀ o, o ∈ dict_keys T → rank (data_step o) < depth) →
        warned fit_with_u.1 = warned fit_without.1 ++ [UnusedInput (data_name u)] ∧
        ∃ unused,
          warned fit_with_u.1
            = warned st ++ ((λ i, UnusedInput (data_name i)) <$> unused) ∧
          NoDup unused ∧
          ∀ i, i ∈ unused ↔
               i ∈ dict_keys N ++ [u] ∧
               ¬ reached steps (dict_keys N ++ [u]) (dict_keys T) i)).
Proof.
  intros HN Hout Hfresh Hu without with_u.
  assert (Hkeys : dict_keys (N ++ [(u, v)]) = dict_keys N ++ [u])
    by (unfold dict_keys; by rewrite fmap_app).
  assert (HNu : normalize_given_data steps m (GivenDict (items ++ [(KData u, v)])) "input"
                = Ok (N ++ [(u, v)])).
  { simpl. by rewrite (normalize_dict_snoc _ _ _ u v HN), (dict_set_fresh N u v Hfresh). }
  assert (HN' : normalize_given_data steps m (GivenDict items) "input" = Ok N)
    by exact HN.
  assert (Hndu : NoDup (dict_keys N ++ [u])).
  { destruct (normalize_dict_spec _ _ _ _ HN) as [Hnd _].
    apply NoDup_app. split_and!; [done|set_solver|apply NoDup_singleton]. }
  assert (Hproduced : ∀ rank depth0 outs,
     ranked steps rank →
     build_graph steps depth0 outs = Ok (model_graph m) →
     (∀ o, o ∈ outputs → rank (data_step o) < depth) →
     warned with_u.1 = warned without.1 ++ [UnusedInput (data_name u)] ∧
     ∃ unused,
       warned with_u.1 = warned st ++ ((λ i, UnusedInput (data_name i)) <$> unused) ∧
       NoDup unused ∧
       ∀ i, i ∈ unused ↔
            i ∈ dict_keys N ++ [u] ∧ ¬ reached steps (dict_keys N ++ [u]) outputs i).
  { intros rank depth0 outs Hrank Hg Hdepth. unfold with_u, without.
    rewrite (predict_warned depth m _ outs_arg _ outputs st HNu Hout), Hkeys.
    rewrite (predict_warned depth m _ outs_arg _ outputs st HN' Hout).
    destruct (unreached_input_warns rank depth0 outs _ depth _ outputs u
                Hrank Hg Hdepth Hndu Hu) as (Hsnoc & unused & Hws & Hnd & Hmem).
    split; [by rewrite Hsnoc, app_assoc|].
    exists unused. by rewrite Hws. }
  assert (Hlast : ∀ ws l,
     get_required_steps steps depth (model_graph m) (dict_keys N ++ [u]) outputs
       = (ws, Ok l) →
     ∃ unused,
       ws = (λ i, UnusedInput (data_name i)) <$> unused ∧
       NoDup unused ∧
       ∀ i, i ∈ unused ↔
            i ∈ dict_keys N ++ [u] ∧ ¬ reached steps (dict_keys N ++ [u]) outputs i).
  { intros ws l (sorted & R & F & _ & Hbt & _ & -> & _)%get_required_steps_Ok.
    apply backtrack_all_spec in Hbt as (_ & HF & _).
    exists (filter (λ i, i ∉ F) (dict_keys N ++ [u])). split_and!; [done| |].
    - apply NoDup_filter, NoDup_app.
      destruct (normalize_dict_spec _ _ _ _ HN) as [Hnd _].
      split_and!; [done|set_solver|apply NoDup_singleton].
    - intros i. rewrite list_elem_of_filter, HF. tauto. }
  assert (Hcore : ∃ extra,
    with_u = (mkState (world without.1) (trace without.1) (warned without.1 ++ extra),
              without.2) ∧
    (∀ x, without.2 = Ok x → extra = [UnusedInput (data_name u)])).
  { unfold without, with_u. rewrite !predict_eq. simpl.
    rewrite (normalize_dict_snoc _ _ _ u v HN), HN, Hout.
    rewrite (dict_set_fresh N u v Hfresh), Hkeys.
    unfold dict_items. rewrite cache_update_snoc. cbv zeta.
    destruct (get_required_steps_unreached steps (dict_keys N) u depth (model_graph m)
                outputs Hu) as (extra & Hwith & _ & Hok).
    destruct (get_required_steps steps depth (model_graph m) (dict_keys N ++ [u]) outputs)
      as [ws' r'] eqn:Hres'.
    destruct (get_required_steps steps depth (model_graph m) (dict_keys N) outputs)
      as [ws [l|e]] eqn:Hres; simpl in Hwith; simplify_eq.
    2:{ exists extra. simpl. by rewrite app_assoc. }
    specialize (Hok l eq_refl). subst extra.
    pose proof (resolved_steps_avoid _ _ _ _ _ _ _ Hu Hres') as Hin.
    destruct (loop_with_unreached steps _ (predict_step_blind steps predict_op transform_op)
                u v l (cache_update ∅ N)
                (mkState (world st) (trace st) (warned st ++ ws))
                (mkState (world st) (trace st)
                   (warned st ++ ws ++ [UnusedInput (data_name u)]))
                [UnusedInput (data_name u)] Hin)
      as [Hst Hr]; [done..|simpl; by rewrite app_assoc|].
    destruct (for_eachM _ l (<[u:=v]> (cache_update ∅ N)) _) as [st1' [c1'|e1']],
             (for_eachM _ l (cache_update ∅ N) _) as [st1 [c1|e1]];
      simpl in *; try done; subst st1'.
    - assert (Hg : gather c1' outputs = gather c1 outputs).
      { apply gather_agree. intros o Ho. apply Hr. intros ->. apply Hu.
        exists u. split; [done|apply rtc_refl]. }
      rewrite Hg. exists [UnusedInput (data_name u)].
      by destruct (gather c1 outputs) as [[|x [|x' xs]]|].
    - exists [UnusedInput (data_name u)]. by subst e1'. }
  destruct Hcore as (extra & Hwith_u & Hextra).
  split_and!; [by rewrite Hwith_u..| |exact Hlast|exact Hproduced|].
  { intros x Hx. rewrite Hwith_u. simpl. by rewrite (Hextra x Hx). }
  intros target_data T HT HuT.
  set (fit_without := fit steps fit_op predict_op transform_op depth m
                        (GivenDict items) target_data st).
  set (fit_with_u := fit steps fit_op predict_op transform_op depth m
                       (GivenDict (items ++ [(KData u, v)])) target_data st).
  assert (Hfit : ∃ extra_f,
    fit_with_u = (mkState (world fit_without.1) (trace fit_without.1)
                          (warned fit_without.1 ++ extra_f), fit_without.2) ∧
    (fit_without.2 = Ok () → extra_f = [UnusedInput (data_name u)])).
  { unfold fit_without, fit_with_u. rewrite !fit_eq. simpl.
    rewrite (normalize_dict_snoc _ _ _ u v HN), HN, HT.
    rewrite (dict_set_fresh N u v Hfresh), Hkeys.
    unfold dict_items. rewrite cache_update_snoc. cbv zeta.
    destruct (get_required_steps_unreached steps (dict_keys N) u depth (model_graph m)
                (dict_keys T) HuT) as (extra_f & Hwith & _ & Hok).
    destruct (get_required_steps steps depth (model_graph m) (dict_keys N ++ [u])
                (dict_keys T)) as [ws' r'] eqn:Hres'.
    destruct (get_required_steps steps depth (model_graph m) (dict_keys N) (dict_keys T))
      as [ws [l|e]] eqn:Hres; simpl in Hwith; simplify_eq.
    2:{ exists extra_f. simpl. split; [by rewrite app_assoc|done]. }
    specialize (Hok l eq_refl). subst extra_f.
    pose proof (resolved_steps_avoid _ _ _ _ _ _ _ HuT Hres') as Hin.
    destruct (loop_with_unreached steps _
                (fit_step_blind steps fit_op predict_op transform_op T)
                u v l (cache_update ∅ N)
                (mkState (world st) (trace st) (warned st ++ ws))
                (mkState (world st) (trace st)
                   (warned st ++ ws ++ [UnusedInput (data_name u)]))
                [UnusedInput (data_name u)] Hin)
      as [Hst Hr]; [done..|simpl; by rewrite app_assoc|].
    destruct (for_eachM _ l (<[u:=v]> (cache_update ∅ N)) _) as [st1' [c1'|e1']],
             (for_eachM _ l (cache_update ∅ N) _) as [st1 [c1|e1]];
      simpl in *; try done; subst st1'.
    - by exists [UnusedInput (data_name u)].
    - exists [UnusedInput (data_name u)]. by subst e1'. }
  assert (Hfit_produced : ∀ rank depth0 outs,
     ranked steps rank →
     build_graph steps depth0 outs = Ok (model_graph m) →
     (∀ o, o ∈ dict_keys T → rank (data_step o) < depth) →
     warned fit_with_u.1 = warned fit_without.1 ++ [UnusedInput (data_name u)] ∧
     ∃ unused,
       warned fit_with_u.1
         = warned st ++ ((λ i, UnusedInput (data_name i)) <$> unused) ∧
       NoDup unused ∧
       ∀ i, i ∈ unused ↔
            i ∈ dict_keys N ++ [u] ∧
            ¬ reached steps (dict_keys N ++ [u]) (dict_keys T) i).
  { intros rank depth0 outs Hrank Hg Hdepth. unfold fit_with_u, fit_without.
    rewrite (fit_warned depth m _ target_data _ T st HNu HT), Hkeys.
    rewrite (fit_warned depth m _ target_data _ T st HN' HT).
    destruct (unreached_input_warns rank depth0 outs _ depth _ (dict_keys T) u
                Hrank Hg Hdepth Hndu HuT) as (Hsnoc & unused & Hws & Hnd & Hmem).
    split; [by rewrite Hsnoc, app_assoc|].
    exists unused. by rewrite Hws. }
  destruct Hfit as (extra_f & Hfit_with_u & Hextra_f_fit).
  split_and!; [by rewrite Hfit_with_u..| |exact Hfit_produced].
  intros Hx. by rewrite Hfit_with_u, (Hextra_f_fit Hx).
Qed.

End C7.

Lemma unused_input_changes_nothing_witness :
  (predict Diamond.steps Diamond.predict_op Diamond.predict_op 10 Diamond.model
     (GivenDict ([(KData Diamond.x, VArray 5%Z)] ++ [(KData Diamond.y, VArray 1%Z)]))
     (Some [KStr "z"]) Diamond.init).2
  = (predict Diamond.steps Diamond.predict_op Diamond.predict_op 10 Diamond.model
       (GivenDict [(KData Diamond.x, VArray 5%Z)]) (Some [KStr "z"]) Diamond.init).2 ∧
  warned (predict Diamond.steps Diamond.predict_op Diamond.predict_op 10 Diamond.model
            (GivenDict ([(KData Diamond.x, VArray 5%Z)] ++ [(KData Diamond.y, VArray 1%Z)]))
            (Some [KStr "z"]) Diamond.init).1
  = [UnusedInput "y"] ∧
  warned (fit Diamond.steps Diamond.fit_op Diamond.predict_op Diamond.predict_op 10
            Diamond.model
            (GivenDict ([(KData Diamond.x, VArray 5%Z)] ++ [(KData Diamond.y, VArray 1%Z)]))
            (GivenDict [(KStr "z", VNone)]) Diamond.init).1
  = [UnusedInput "y"].
Proof.
  assert (Hu : ¬ reached Diamond.steps
                 (dict_keys [(Diamond.x, VArray 5%Z)] ++ [Diamond.y])
                 [Diamond.z] Diamond.y).
  { intros (o & ->%list_elem_of_singleton & Hr).
    apply rtc_inv in Hr as [[=]|(d & [_ Hd] & Hr)].
    simpl in Hd. apply list_elem_of_singleton in Hd as ->.
    apply rtc_inv in Hr as [[=]|(d & [Hno _] & _)].
    apply Hno. unfold dict_keys. simpl. set_solver. }
  destruct (unused_input_changes_nothing Diamond.steps Diamond.fit_op Diamond.predict_op
              Diamond.predict_op
              10 Diamond.model [(KData Diamond.x, VArray 5%Z)] (Some [KStr "z"])
              [(Diamond.x, VArray 5%Z)] [Diamond.z] Diamond.y (VArray 1%Z) Diamond.init)
    as (Hsame & _ & _ & _ & _ & Hwarn & Hfit).
  - reflexivity.
  - vm_compute. reflexivity.
  - unfold dict_keys. simpl. set_solver.
  - exact Hu.
  - split; [exact Hsame|]. split.
    + destruct (Hwarn Diamond.rank 10 [Diamond.w] Diamond_ranked) as [Hw _].
      * vm_compute. reflexivity.
      * intros o ->%list_elem_of_singleton. simpl. unfold Diamond.rank. lia.
      * etrans; [exact Hw|]. vm_compute. reflexivity.
    + destruct (Hfit (GivenDict [(KStr "z", VNone)]) [(Diamond.z, VNone)])
        as (_ & _ & _ & _ & Hfwarn).
      * vm_compute. reflexivity.
      * exact Hu.
      * destruct (Hfwarn Diamond.rank 10 [Diamond.w] Diamond_ranked) as [Hw _].
        -- vm_compute. reflexivity.
        -- intros o ->%list_elem_of_singleton. simpl. unfold Diamond.rank. lia.
        -- etrans; [exact Hw|]. vm_compute. reflexivity.
Defined.

(** ** Construction on cyclic and on acyclic step structures *)

Section Construction.
Variable steps : nat → Step.

(** X1: when the producer of a declared output lies on a cycle of the step
    structure, construction ends with RecursionError whatever the recursion
    depth allowed: the collection walk never returns, and no
    topological order is asked for. *)
Theorem cyclic_structure_never_constructs depth ins outs o :
  o ∈ outs → on_cycle steps (data_step o) →
  Model_init steps depth ins outs = ([], Err RecursionError).
Proof.
  intros Ho Hcyc. unfold Model_init, build_graph.
  assert (Hwalk : ∀ g, for_each (collect_steps_from steps depth) outs g
                       = Err RecursionError).
  { induction outs as [|o' l IH]; intros g; [by apply elem_of_nil in Ho|].
    simpl. destruct (collect_steps_from steps depth g o') as [g'|e] eqn:Ho'; simpl.
    - apply elem_of_cons in Ho as [->|Ho]; [|by apply IH].
      by rewrite (collect_on_cycle _ _ _ _ Hcyc) in Ho'.
    - by rewrite (collect_error _ _ _ _ _ Ho'). }
  by rewrite Hwalk.
Qed.

(** X2: on an acyclic step structure, within the recursion depth,
    construction returns a model or raises DuplicateStepName or
    MissingInput: neither the recursion limit nor a cycle is met. *)
Theorem acyclic_structure_constructs rank depth ins outs :
  ranked steps rank →
  (∀ o, o ∈ outs → rank (data_step o) < depth) →
  ∃ ws r, Model_init steps depth ins outs = (ws, r) ∧
          ((∃ m, r = Ok m) ∨ (∃ names, r = Err (DuplicateStepName names)) ∨
           (∃ names, r = Err (MissingInput names))).
Proof.
  intros Hrank Hdepth. unfold Model_init.
  destruct (build_graph steps depth outs) as [g|e] eqn:Hg.
  - destruct (get_required_steps_total steps rank depth outs g depth ins outs
                Hrank Hg Hdepth)
      as (ws & r & -> & [[l ->]|[names ->]]); simpl; eauto 8.
  - unfold build_graph in Hg.
    destruct (collect_all_total steps rank depth outs DiGraph.empty Hrank Hdepth)
      as [g0 Hwalk].
    rewrite Hwalk in Hg. simpl in Hg.
    destruct (duplicated_names _); simplify_eq. eauto 8.
Qed.

End Construction.

Lemma cyclic_structure_never_constructs_witness :
  Model_init Loop.steps 1000 [] [Loop.b] = ([], Err RecursionError).
Proof.
  apply (cyclic_structure_never_constructs Loop.steps 1000 [] [Loop.b] Loop.b).
  - set_solver.
  - apply tc_l with 0; [|apply tc_once]; [exists Loop.b|exists Loop.a];
      simpl; set_solver.
Defined.

Lemma acyclic_structure_constructs_witness :
  ∃ ws r, Model_init Diamond.steps 10 [Diamond.x] [Diamond.w] = (ws, r) ∧
          ((∃ m, r = Ok m) ∨ (∃ names, r = Err (DuplicateStepName names)) ∨
           (∃ names, r = Err (MissingInput names))).
Proof.
  apply (acyclic_structure_constructs Diamond.steps Diamond.rank).
  - exact Diamond_ranked.
  - intros o ->%list_elem_of_singleton. simpl. unfold Diamond.rank. lia.
Defined.

(** ** Names, keys and requested outputs *)

Section for_each_keys.
Context {X S D : Type}.
Variable f : X → result D.
Variable g : S → X → D → S.

(** A loop that resolves each element before it extends its state stops at
    the first element that does not resolve. *)
Lemma for_each_first_error (l : list X) (s : S) :
  match for_each (λ s x, let* d := f x in Ok (g s x d)) l s with
  | Ok _ => Forall (λ x, ∃ d, f x = Ok d) l
  | Err e => ∃ l1 x l2, l = l1 ++ x :: l2 ∧
                        Forall (λ x, ∃ d, f x = Ok d) l1 ∧ f x = Err e
  end.
Proof.
  revert s. induction l as [|x l IH]; intros s; simpl; [constructor|].
  destruct (f x) as [d|e] eqn:Hx; simpl.
  - specialize (IH (g s x d)). destruct (for_each _ l _) as [s'|e].
    + constructor; [by exists d|done].
    + destruct IH as (l1 & x' & l2 & -> & Hl1 & Hx').
      exists (x :: l1), x', l2. split_and!; [done| |done].
      constructor; [by exists d|done].
  - exists [], x, l. split_and!; [done|constructor|done].
Qed.

End for_each_keys.

Section KeyFacts.
Context {A : Type}.
Variable steps : nat → Step.
Implicit Types (m : Model) (N : list (Data * value A)).

Lemma get_data_eq m name :
  get_data steps m name =
  match list_find (λ output, data_name output = name) (graph_slots steps m) with
  | Some (_, output) => Ok output
  | None => Err (UnknownDataName name)
  end.
Proof. reflexivity. Qed.

Lemma get_data_Err m name e :
  get_data steps m name = Err e →
  e = UnknownDataName name ∧ ∀ d, d ∈ graph_slots steps m → data_name d ≠ name.
Proof.
  rewrite get_data_eq. destruct (list_find _ _) as [[i d]|] eqn:Hf; intros ?; simplify_eq.
  split; [done|]. intros d Hd.
  rewrite list_find_None, Forall_forall in Hf. by apply Hf.
Qed.

Lemma resolve_key_Err m k e :
  resolve_key steps m k = Err e → refused steps m k e.
Proof.
  destruct k as [d|name|]; simpl; intros H; [done| |].
  - right. exists name. apply get_data_Err in H as [-> H]. done.
  - left. by simplify_eq.
Qed.

(** X3: [_get_data] returns the first output slot of that name in the
    order the graph's nodes and their outputs are scanned, and fails with
    UnknownDataName exactly when no output slot of a node has the name. *)
Theorem get_data_returns_first_match m name :
  match get_data steps m name with
  | Ok d =>
      data_name d = name ∧
      ∃ l1 l2, graph_slots steps m = l1 ++ d :: l2 ∧
               ∀ d', d' ∈ l1 → data_name d' ≠ name
  | Err e =>
      e = UnknownDataName name ∧
      ∀ d, d ∈ graph_slots steps m → data_name d ≠ name
  end.
Proof.
  destruct (get_data steps m name) as [d|e] eqn:Hg; [|by apply get_data_Err].
  rewrite get_data_eq in Hg.
  destruct (list_find _ _) as [[i d']|] eqn:Hf; simplify_eq.
  apply list_find_Some in Hf as (Hi & Hd & Hbefore). split; [done|].
  exists (take i (graph_slots steps m)), (drop (S i) (graph_slots steps m)).
  split.
  - by rewrite <-(take_drop_middle _ _ _ Hi) at 1.
  - intros d' [j Hj]%list_elem_of_lookup_1.
    apply lookup_take_Some in Hj as [Hj Hlt]. by eapply Hbefore.
Qed.

(** X4: when the output slots of the graph's nodes have pairwise distinct
    names, looking a slot up by its own name gives the slot back. *)
Theorem get_data_round_trip m d :
  NoDup (data_name <$> graph_slots steps m) →
  d ∈ graph_slots steps m →
  get_data steps m (data_name d) = Ok d.
Proof.
  intros Hnd Hd. rewrite get_data_eq.
  destruct (list_find _ _) as [[j d']|] eqn:Hf.
  - apply list_find_Some in Hf as (Hj & Hname & _). f_equal.
    apply list_elem_of_lookup_1 in Hd as [i Hi].
    assert (j = i) as ->.
    { eapply NoDup_lookup; [exact Hnd| |];
        rewrite list_lookup_fmap; [by rewrite Hj|by rewrite Hi; simpl; rewrite Hname]. }
    congruence.
  - rewrite list_find_None, Forall_forall in Hf. by destruct (Hf d Hd).
Qed.

Lemma values_for_snoc m d (items : list (key * value A)) k v :
  values_for steps m d (items ++ [(k, v)]) =
  values_for steps m d items ++ (if stands_for steps m d k then [v] else []).
Proof.
  unfold values_for. rewrite filter_app, fmap_app. f_equal.
  rewrite filter_cons, filter_nil. simpl. by destruct (stands_for steps m d k).
Qed.

(** X5: the dictionary [_normalize_dict] returns has pairwise distinct
    slots as keys, and holds for a slot the value of the last entry of the
    caller's dictionary whose key stands for the slot, by identity or by
    name; a slot no key stands for is absent. *)
Theorem normalize_dict_last_entry_wins m (items : list (key * value A)) N :
  normalize_dict steps m items = Ok N →
  NoDup (dict_keys N) ∧
  ∀ d, dict_get N d = last (values_for steps m d items).
Proof.
  unfold normalize_dict. intros H.
  pose (I := λ (seen : list (key * value A)) (N : list (Data * value A)),
    NoDup (dict_keys N) ∧ ∀ d, dict_get N d = last (values_for steps m d seen)).
  apply (for_each_invariant I _ _ _ _) in H; [done|by split; [constructor|]|].
  intros seen [k v] N1 N2 [Hnd Hget] _ Hb. simpl in Hb.
  destruct (resolve_key steps m k) as [d0|] eqn:Hk; simplify_eq/=.
  split; [by apply dict_keys_set_NoDup|].
  intros d. rewrite dict_get_set, values_for_snoc, Hget.
  unfold stands_for. rewrite Hk.
  destruct (decide (d0 = d)) as [->|Hne].
  - rewrite bool_decide_eq_true_2 by done. by rewrite last_snoc.
  - rewrite bool_decide_eq_false_2 by done. by rewrite app_nil_r.
Qed.

(** X6: [_normalize_dict] fails exactly when some key of the caller's
    dictionary is refused, with the error of the first such key: BadKeyType
    for a key that is neither a slot nor a string, UnknownDataName for a
    string that names no output slot of the graph. *)
Theorem normalize_dict_first_refused_key m (items : list (key * value A)) e :
  normalize_dict steps m items = Err e ↔
  ∃ items1 k v items2,
    items = items1 ++ (k, v) :: items2 ∧
    Forall (λ item, resolves steps m item.1) items1 ∧
    resolve_key steps m k = Err e ∧ refused steps m k e.
Proof.
  unfold normalize_dict.
  pose proof (for_each_first_error (λ item : key * value A, resolve_key steps m item.1)
                (λ N item k, dict_set k item.2 N) items []) as H.
  cbv beta in H. split.
  - intros He. rewrite He in H.
    destruct H as (items1 & [k v] & items2 & -> & H1 & Hk).
    exists items1, k, v, items2. split_and!; [done|done|done|].
    by apply resolve_key_Err.
  - intros (items1 & k & v & items2 & -> & H1 & Hk & _).
    destruct (for_each _ _ _) as [N|e'].
    + apply Forall_app in H as [_ H]. apply Forall_cons in H as [[d Hd] _].
      simpl in Hd. congruence.
    + destruct H as (l1 & [k' v'] & l2 & Heq & Hl1 & Hk'). simpl in Hk'.
      revert items1 H1 Heq. induction l1 as [|x l1 IH]; intros [|y items1] H1 Heq;
        simplify_eq/=.
      * congruence.
      * apply Forall_cons in H1 as [[d Hd] _]. simpl in Hd. congruence.
      * apply Forall_cons in Hl1 as [[d Hd] _]. simpl in Hd. congruence.
      * apply Forall_cons in Hl1 as [_ Hl1]. apply Forall_cons in H1 as [_ H1].
        by eapply IH.
Qed.

(** X7: with no [outputs] argument the requested outputs are the declared
    outputs; otherwise they are the slots the given keys stand for, one per
    key, in the order given and with repeats kept, and the first refused
    key gives the error. *)
Theorem normalize_required_outputs_in_order m :
  normalize_required_outputs steps m None = Ok (model_outputs m) ∧
  ∀ ks, match normalize_required_outputs steps m (Some ks) with
        | Ok outputs => Forall2 (λ k d, resolve_key steps m k = Ok d) ks outputs
        | Err e => ∃ ks1 k ks2, ks = ks1 ++ k :: ks2 ∧
                     Forall (resolves steps m) ks1 ∧
                     resolve_key steps m k = Err e ∧ refused steps m k e
        end.
Proof.
  split; [done|]. intros ks. simpl.
  destruct (for_each _ ks []) as [outputs|e] eqn:Hrun.
  - pose (I := λ (seen : list key) (ds : list Data),
      Forall2 (λ k d, resolve_key steps m k = Ok d) seen ds).
    apply (for_each_invariant I _ _ _ _) in Hrun; [done|constructor|].
    intros seen k ds1 ds2 HI _ Hb.
    destruct (resolve_key steps m k) as [d|] eqn:Hk; simplify_eq/=.
    apply Forall2_app; [done|]. by constructor.
  - pose proof (for_each_first_error (resolve_key steps m)
                  (λ (ds : list Data) (_ : key) d, ds ++ [d]) ks []) as H.
    cbv beta in H. rewrite Hrun in H. destruct H as (ks1 & k & ks2 & -> & H1 & Hk).
    exists ks1, k, ks2. split_and!; [done|done|done|by apply resolve_key_Err].
Qed.

End KeyFacts.

Lemma get_data_round_trip_witness :
  get_data Diamond.steps Diamond.model (data_name Diamond.y) = Ok Diamond.y.
Proof.
  apply (get_data_round_trip Diamond.steps Diamond.model Diamond.y).
  - vm_compute. repeat constructor; set_solver.
  - vm_compute. set_solver.
Defined.

Lemma normalize_dict_last_entry_wins_witness :
  NoDup (dict_keys [(Diamond.x, VArray 2%Z)]) ∧
  ∀ d, dict_get [(Diamond.x, VArray 2%Z)] d =
       last (values_for Diamond.steps Diamond.model d
               [(KData Diamond.x, VArray 1%Z); (KStr "x", VArray 2%Z)]).
Proof.
  apply (normalize_dict_last_entry_wins Diamond.steps Diamond.model
           [(KData Diamond.x, VArray 1%Z); (KStr "x", VArray 2%Z)]).
  vm_compute. reflexivity.
Defined.

(** ** What a call of [predict] does and returns *)


Section Run.
Context {A W : Type}.
Variable steps : nat → Step.
Variable fit_op : nat → list (value A) → W → W * op_outcome unit.
Variable predict_op : nat → list (value A) → W → W * op_outcome (value A).
Variable transform_op : nat → list (value A) → W → W * op_outcome (value A).
Implicit Types (cache : gmap Data (value A)) (st : state (A := A) (W := W)).
Implicit Types (N : list (Data * value A)).

Abbreviation compute_step' := (compute_step steps predict_op transform_op).
Abbreviation predict_step' := (predict_step steps predict_op transform_op).
Abbreviation predict' := (predict steps predict_op transform_op).
Abbreviation computing_op' := (computing_op steps predict_op transform_op).

(** [_compute_step], by what the step can do. *)
Lemma compute_step_cases s Xs cache st :
  compute_step' s Xs cache st =
  if computable steps s then
    match computing_op' s Xs (world st) with
    | (w, Returned y) =>
        (mkState w (trace st ++ [computing_call steps s Xs]) (warned st),
         Ok (cache_update cache (zip (step_outputs (steps s)) (listify y))))
    | (w, Raised msg) =>
        (mkState w (trace st ++ [computing_call steps s Xs]) (warned st),
         Err (StepRaised msg))
    end
  else (st, Err (UncomputableStep (step_name (steps s)))).
Proof.
  unfold compute_step, computable, computing_op, computing_call, bind, call, raise,
    lift, ret.
  destruct (has_predict (steps s)); [|destruct (has_transform (steps s))]; simpl.
  - by destruct (predict_op s Xs (world st)) as [w [y|msg]].
  - by destruct (transform_op s Xs (world st)) as [w [y|msg]].
  - done.
Qed.

Lemma zip_fst_take (slots : list Data) (ys : list (value A)) k :
  k ∈ (zip slots ys).*1 → k ∈ take (length ys) slots.
Proof.
  revert ys. induction slots as [|o slots IH]; intros [|y ys]; csimpl;
    try by intros ?%elem_of_nil.
  intros [->|Hin]%elem_of_cons; [left|right; by apply IH].
Qed.

(** X8: a computing call writes the values it yields over the step's
    output slots position by position, whatever the cache held there
    before (a value the caller supplied for such a slot included), writes
    nothing when it yields fewer values than there are slots for the slots
    beyond, and leaves every other slot of the cache as it was. *)
Theorem compute_step_overwrites_outputs s Xs cache st st' cache' :
  NoDup (step_outputs (steps s)) →
  compute_step' s Xs cache st = (st', Ok cache') →
  ∃ y, (computing_op' s Xs (world st)).2 = Returned y ∧
    (∀ j o v, step_outputs (steps s) !! j = Some o → listify y !! j = Some v →
       cache' !! o = Some v) ∧
    (∀ k, k ∉ take (length (listify y)) (step_outputs (steps s)) →
       cache' !! k = cache !! k).
Proof.
  intros Hnd. rewrite compute_step_cases.
  destruct (computable steps s); [|done].
  destruct (computing_op' s Xs (world st)) as [w [y|msg]]; intros ?; simplify_eq.
  exists y. split_and!; [done| |].
  - intros j o v Ho Hv. by eapply cache_update_zip_lookup.
  - intros k Hk. apply cache_update_ne. intros Hin. by apply Hk, zip_fst_take.
Qed.

Lemma computed_steps_computing_call s Xs :
  computed_steps [computing_call (A := A) steps s Xs] = [s].
Proof. unfold computing_call. by destruct (has_predict (steps s)). Qed.

Lemma computing_call_not_fit s Xs s' args :
  computing_call (A := A) steps s Xs ≠ CallFit s' args.
Proof. unfold computing_call. by destruct (has_predict (steps s)). Qed.

(** One iteration of the loop of [predict]. *)
Lemma predict_step_spec cache s st st' r :
  predict_step' cache s st = (st', r) →
  warned st' = warned st ∧
  match r with
  | Ok cache' =>
      ∃ Xs y, length Xs = length (step_inputs (steps s)) ∧
        computable steps s = true ∧
        trace st' = trace st ++ [computing_call steps s Xs] ∧
        cache' = cache_update cache (zip (step_outputs (steps s)) (listify y))
  | Err e =>
      trace st' = trace st ∨
      ∃ Xs, length Xs = length (step_inputs (steps s)) ∧
        computable steps s = true ∧
        trace st' = trace st ++ [computing_call steps s Xs]
  end.
Proof.
  rewrite predict_step_eq.
  destruct (gather cache (step_inputs (steps s))) as [Xs|e] eqn:HXs.
  2:{ intros ?; simplify_eq. split; [done|by left]. }
  apply gather_length in HXs. rewrite compute_step_cases.
  destruct (computable steps s) eqn:Hc.
  - destruct (computing_op' s Xs (world st)) as [w [y|msg]]; intros ?; simplify_eq;
      (split; [done|]).
    + by exists Xs, y.
    + right. by exists Xs.
  - intros ?; simplify_eq. split; [done|by left].
Qed.

(** The whole loop of [predict]. *)
Lemma predict_loop_spec l cache st st' r :
  for_eachM predict_step' l cache st = (st', r) →
  warned st' = warned st ∧
  ∃ t, trace st' = trace st ++ t ∧
    (∀ ev, ev ∈ t → ∃ s Xs, s ∈ l ∧ computable steps s = true ∧
       length Xs = length (step_inputs (steps s)) ∧
       ev = computing_call steps s Xs) ∧
    computed_steps t `prefix_of` l ∧
    (∀ cache', r = Ok cache' →
       computed_steps t = l ∧
       (∀ s, s ∈ l → computable steps s = true) ∧
       ∀ k, (∀ s, s ∈ l → k ∉ step_outputs (steps s)) → cache' !! k = cache !! k).
Proof.
  revert cache st. induction l as [|s l IH]; intros cache st.
  - intros [= <- <-]. split; [done|]. exists []. rewrite app_nil_r.
    split_and!; [done|by intros ? ?%elem_of_nil|done|].
    intros ? [= <-]. split_and!; [done|by intros ? ?%elem_of_nil|done].
  - rewrite for_eachM_cons.
    destruct (predict_step' cache s st) as [st1 [cache1|e]] eqn:Hs;
      apply predict_step_spec in Hs as [Hw1 Hs].
    + destruct Hs as (Xs & y & HXs & Hc & Ht1 & ->).
      intros (Hw2 & t2 & Ht2 & Hev2 & Hpre2 & Hok2)%IH.
      split; [congruence|]. exists ([computing_call steps s Xs] ++ t2).
      split_and!.
      * by rewrite Ht2, Ht1, <-app_assoc.
      * intros ev [->%list_elem_of_singleton|Hin]%elem_of_app.
        -- exists s, Xs. split_and!; [left|done..].
        -- destruct (Hev2 _ Hin) as (s' & Xs' & ? & ? & ? & ?).
           exists s', Xs'. split_and!; [by right|done..].
      * rewrite computed_steps_app, computed_steps_computing_call.
        by apply prefix_cons.
      * intros cache' Hr. destruct (Hok2 _ Hr) as (Hl & Hall & Hframe).
        rewrite computed_steps_app, computed_steps_computing_call, Hl.
        split_and!; [done| |].
        -- intros s' [->|?]%elem_of_cons; auto.
        -- intros k Hk. rewrite Hframe by (intros s' ?; apply Hk; by right).
           apply cache_update_ne.
           intros ([a b] & -> & Hin%elem_of_zip_l)%list_elem_of_fmap.
           by apply (Hk s); [left|].
    + intros ?; simplify_eq. split; [done|]. destruct Hs as [Ht|(Xs & HXs & Hc & Ht)].
      * exists []. rewrite app_nil_r.
        split_and!; [done|by intros ? ?%elem_of_nil|apply prefix_nil|done].
      * exists [computing_call steps s Xs].
        split_and!; [done| | |done].
        -- intros ev ->%list_elem_of_singleton. exists s, Xs. split_and!; [left|done..].
        -- rewrite computed_steps_computing_call. apply prefix_cons, prefix_nil.
Qed.


Lemma gather_Forall2 cache slots xs :
  gather cache slots = Ok xs → Forall2 (λ o x, cache !! o = Some x) slots xs.
Proof.
  revert xs. induction slots as [|i slots IH]; intros xs H.
  - inversion H. constructor.
  - rewrite gather_cons in H. destruct (cache !! i) as [x|] eqn:Hi; [|done].
    destruct (gather cache slots) as [xs'|]; simplify_eq/=.
    constructor; [done|by apply IH].
Qed.

(** X9: [predict] trains nothing: the calls it adds to the trace are
    computing calls only, on steps that can predict or transform, each with
    one argument per input slot of the step; the steps called are an initial
    part of the list the resolution returned, in its order, and all of the
    list when [predict] returns a value.  When the normalisation of the
    input data or of the requested outputs fails, or the resolution fails,
    no call is made, the steps' state is left alone and that error is the
    result. *)
Theorem predict_only_computes depth m input_data outs_arg st st' r :
  predict steps predict_op transform_op depth m input_data outs_arg st = (st', r) →
  ∃ t, trace st' = trace st ++ t ∧
    (∀ s args, CallFit s args ∉ t) ∧
    (∀ ev, ev ∈ t → ∃ s Xs, computable steps s = true ∧
       length Xs = length (step_inputs (steps s)) ∧
       ev = computing_call steps s Xs) ∧
    (∀ N outputs ws l,
      normalize_given_data steps m input_data "input" = Ok N →
      normalize_required_outputs steps m outs_arg = Ok outputs →
      get_required_steps steps depth (model_graph m) (dict_keys N) outputs = (ws, Ok l) →
      computed_steps t `prefix_of` l ∧
      (∀ x, r = Ok x → computed_steps t = l ∧ ∀ s, s ∈ l → computable steps s = true)) ∧
    (∀ e, normalize_given_data steps m input_data "input" = Err e →
          t = [] ∧ st' = st ∧ r = Err e) ∧
    (∀ N e,
      normalize_given_data steps m input_data "input" = Ok N →
      normalize_required_outputs steps m outs_arg = Err e →
      t = [] ∧ st' = st ∧ r = Err e) ∧
    (∀ N outputs ws e,
      normalize_given_data steps m input_data "input" = Ok N →
      normalize_required_outputs steps m outs_arg = Ok outputs →
      get_required_steps steps depth (model_graph m) (dict_keys N) outputs = (ws, Err e) →
      t = [] ∧ world st' = world st ∧ r = Err e).
Proof.
  rewrite predict_eq. intros H.
  destruct (normalize_given_data steps m input_data "input") as [N|e] eqn:HN.
  2:{ simplify_eq. exists []. rewrite app_nil_r.
      split_and!; [done|by intros ?? ?%elem_of_nil|by intros ? ?%elem_of_nil|done| |done..].
      by intros ? [= <-]. }
  destruct (normalize_required_outputs steps m outs_arg) as [outputs|e] eqn:Ho.
  2:{ simplify_eq. exists []. rewrite app_nil_r.
      split_and!; [done|by intros ?? ?%elem_of_nil|by intros ? ?%elem_of_nil|done..| |done].
      by intros ?? _ [= <-]. }
  cbv zeta in H.
  destruct (get_required_steps _ _ _ _ _) as [ws [l|e]] eqn:Hres.
  2:{ simplify_eq. exists []. rewrite app_nil_r.
      split_and!; [done|by intros ?? ?%elem_of_nil|by intros ? ?%elem_of_nil| |done..|].
      - intros ???? [= <-] [= <-] ?. congruence.
      - intros ???? [= <-] [= <-] Hr. rewrite Hres in Hr. by simplify_eq. }
  destruct (for_eachM _ _ _ _) as [st1 [cache|e]] eqn:Hloop;
    apply predict_loop_spec in Hloop as (_ & t & Ht & Hev & Hpre & Hok).
  - assert (st' = st1) as ->
      by (destruct (gather cache outputs) as [[|x [|x' xs]]|]; by simplify_eq).
    exists t. split_and!; [done| | | |done..|].
    + intros s args Hin. destruct (Hev _ Hin) as (s' & Xs & _ & _ & _ & Heq).
      symmetry in Heq. by apply computing_call_not_fit in Heq.
    + intros ev Hin. destruct (Hev _ Hin) as (s' & Xs & _ & ? & ? & ?). eauto.
    + intros ???? [= <-] [= <-] Hr. rewrite Hres in Hr. simplify_eq.
      split; [done|]. intros _ _. destruct (Hok _ eq_refl) as (? & ? & _). done.
    + intros ???? [= <-] [= <-] Hr. rewrite Hres in Hr. by simplify_eq.
  - simplify_eq. exists t. split_and!; [done| | | |done..|].
    + intros s args Hin. destruct (Hev _ Hin) as (s' & Xs & _ & _ & _ & Heq).
      symmetry in Heq. by apply computing_call_not_fit in Heq.
    + intros ev Hin. destruct (Hev _ Hin) as (s' & Xs & _ & ? & ? & ?). eauto.
    + intros ???? [= <-] [= <-] Hr. rewrite Hres in Hr. simplify_eq. done.
    + intros ???? [= <-] [= <-] Hr. rewrite Hres in Hr. by simplify_eq.
Qed.

(** X10: a value [predict] returns is shaped by the number of requested
    outputs: the bare value for one, else the list of the values in the
    order requested; and the value for a requested slot that is no output
    slot of a resolved step is the value the caller supplied for it. *)
Theorem predict_returns_computed_or_supplied depth m input_data outs_arg N outputs
    ws l st st' r :
  normalize_given_data steps m input_data "input" = Ok N →
  normalize_required_outputs steps m outs_arg = Ok outputs →
  get_required_steps steps depth (model_graph m) (dict_keys N) outputs = (ws, Ok l) →
  predict' depth m input_data outs_arg st = (st', Ok r) →
  ∃ xs, r = return_shape xs ∧
    Forall2 (λ o x, (∃ s, s ∈ l ∧ o ∈ step_outputs (steps s)) ∨ dict_get N o = Some x)
            outputs xs.
Proof.
  intros HN Ho Hres. rewrite predict_eq, HN, Ho. cbv zeta. rewrite Hres.
  destruct (for_eachM _ _ _ _) as [st1 [cache|e]] eqn:Hloop; [|done].
  apply predict_loop_spec in Hloop as (_ & t & _ & _ & _ & Hok).
  destruct (Hok _ eq_refl) as (_ & _ & Hframe).
  destruct (gather cache outputs) as [xs|e] eqn:Hg; [|done].
  intros Hr. exists xs. split.
  { destruct xs as [|x [|x' xs']]; by simplify_eq. }
  apply gather_Forall2 in Hg. eapply Forall2_impl; [exact Hg|].
  intros o x Hox. simpl in Hox.
  destruct (decide (Exists (λ s, o ∈ step_outputs (steps s)) l)) as [Hex|Hnex].
  - left. apply Exists_exists in Hex. done.
  - right. rewrite <-Hox, Hframe.
    + symmetry. apply cache_update_empty_lookup. by eapply normalize_given_data_NoDup.
    + intros s Hs Hin. apply Hnex, Exists_exists. by exists s.
Qed.

End Run.

Lemma compute_step_overwrites_outputs_witness :
  ∃ y, (computing_op Short.steps Short.predict_op Short.predict_op 1 [VArray 5%Z]
          (world Diamond.init)).2 = Returned y ∧
    (∀ j o v, step_outputs (Short.steps 1) !! j = Some o → listify y !! j = Some v →
       cache_update ∅ [(Short.y1, VArray 7%Z); (Short.y2, VArray 8%Z);
                       (Short.y1, VArray 1%Z)] !! o = Some v) ∧
    (∀ k, k ∉ take (length (listify y)) (step_outputs (Short.steps 1)) →
       cache_update ∅ [(Short.y1, VArray 7%Z); (Short.y2, VArray 8%Z);
                       (Short.y1, VArray 1%Z)] !! k
       = cache_update ∅ [(Short.y1, VArray 7%Z); (Short.y2, VArray 8%Z)] !! k).
Proof.
  apply (compute_step_overwrites_outputs Short.steps Short.predict_op Short.predict_op
           1 [VArray 5%Z]
           (cache_update ∅ [(Short.y1, VArray 7%Z); (Short.y2, VArray 8%Z)])
           Diamond.init (mkState 0 [CallPredict 1 [VArray 5%Z]] [])).
  - simpl. repeat constructor; set_solver.
  - vm_compute. reflexivity.
Defined.

Lemma predict_only_computes_witness :
  ∃ t, [CallTransform 1 [VArray 5%Z]; CallPredict 2 [VArray 5%Z];
        CallPredict 3 [VArray 6%Z; VArray 10%Z]] = [] ++ t ∧
    (∀ s args, CallFit s args ∉ t) ∧
    (∀ ev, ev ∈ t → ∃ s Xs, computable Diamond.steps s = true ∧
       length Xs = length (step_inputs (Diamond.steps s)) ∧
       ev = computing_call Diamond.steps s Xs) ∧
    (∀ N outputs ws l,
      normalize_given_data Diamond.steps Diamond.model
        (GivenDict [(KData Diamond.x, VArray 5%Z)]) "input" = Ok N →
      normalize_required_outputs Diamond.steps Diamond.model None = Ok outputs →
      get_required_steps Diamond.steps 10 (model_graph Diamond.model) (dict_keys N) outputs
        = (ws, Ok l) →
      computed_steps t `prefix_of` l ∧
      (∀ x, Ok (VArray 16%Z) = Ok x →
            computed_steps t = l ∧ ∀ s, s ∈ l → computable Diamond.steps s = true)) ∧
    (∀ e, normalize_given_data Diamond.steps Diamond.model
            (GivenDict [(KData Diamond.x, VArray 5%Z)]) "input" = Err e →
          t = [] ∧
          mkState 0 [CallTransform 1 [VArray 5%Z]; CallPredict 2 [VArray 5%Z];
                     CallPredict 3 [VArray 6%Z; VArray 10%Z]] [] = Diamond.init ∧
          Ok (VArray 16%Z) = Err e) ∧
    (∀ N e,
      normalize_given_data Diamond.steps Diamond.model
        (GivenDict [(KData Diamond.x, VArray 5%Z)]) "input" = Ok N →
      normalize_required_outputs Diamond.steps Diamond.model None = Err e →
      t = [] ∧
      mkState 0 [CallTransform 1 [VArray 5%Z]; CallPredict 2 [VArray 5%Z];
                 CallPredict 3 [VArray 6%Z; VArray 10%Z]] [] = Diamond.init ∧
      Ok (VArray 16%Z) = Err e) ∧
    (∀ N outputs ws e,
      normalize_given_data Diamond.steps Diamond.model
        (GivenDict [(KData Diamond.x, VArray 5%Z)]) "input" = Ok N →
      normalize_required_outputs Diamond.steps Diamond.model None = Ok outputs →
      get_required_steps Diamond.steps 10 (model_graph Diamond.model) (dict_keys N) outputs
        = (ws, Err e) →
      t = [] ∧ 0 = world Diamond.init ∧ Ok (VArray 16%Z) = Err e).
Proof.
  apply (predict_only_computes Diamond.steps Diamond.predict_op Diamond.predict_op 10
           Diamond.model (GivenDict [(KData Diamond.x, VArray 5%Z)]) None Diamond.init
           (mkState 0 [CallTransform 1 [VArray 5%Z]; CallPredict 2 [VArray 5%Z];
                       CallPredict 3 [VArray 6%Z; VArray 10%Z]] [])
           (Ok (VArray 16%Z))).
  vm_compute. reflexivity.
Defined.

Lemma predict_returns_computed_or_supplied_witness :
  ∃ xs, VList [VArray 9%Z; VArray 10%Z] = return_shape xs ∧
    Forall2 (λ o x, (∃ s, s ∈ [2] ∧ o ∈ step_outputs (Diamond.steps s)) ∨
                    dict_get [(Diamond.y, VArray 9%Z); (Diamond.x, VArray 5%Z)] o = Some x)
            [Diamond.y; Diamond.z] xs.
Proof.
  apply (predict_returns_computed_or_supplied Diamond.steps Diamond.predict_op
           Diamond.predict_op 10 Diamond.model
           (GivenDict [(KData Diamond.y, VArray 9%Z); (KData Diamond.x, VArray 5%Z)])
           (Some [KStr "y"; KStr "z"])
           [(Diamond.y, VArray 9%Z); (Diamond.x, VArray 5%Z)] [Diamond.y; Diamond.z]
           [] [2] Diamond.init
           (mkState 0 [CallPredict 2 [VArray 5%Z]] [])).
  - vm_compute. reflexivity.
  - vm_compute. reflexivity.
  - vm_compute. reflexivity.
  - vm_compute. reflexivity.
Defined.

Section Supplied.
Context {A W : Type}.
Variable steps : nat → Step.
Variable predict_op : nat → list (value A) → W → W * op_outcome (value A).
Variable transform_op : nat → list (value A) → W → W * op_outcome (value A).
Implicit Types (cache : gmap Data (value A)) (st : state (A := A) (W := W)).
Implicit Types (N : list (Data * value A)).

Abbreviation predict' := (predict steps predict_op transform_op).

(** Backtracking from supplied slots only requires nothing and finds them all. *)
Lemma backtrack_all_supplied depth inputs outputs :
  (∀ o, o ∈ outputs → o ∈ inputs) →
  backtrack_all steps (S depth) inputs outputs = Ok (∅, outputs).
Proof.
  unfold backtrack_all. intros Hsub.
  assert (Hgen : ∀ F0,
    for_each (λ '(all_required_steps, found) output,
                let* (more, found') :=
                  backtrack steps (S depth) inputs all_required_steps found output in
                Ok (all_required_steps ∪ more, found'))
             outputs (∅, F0) = Ok (∅, F0 ++ outputs)).
  { induction outputs as [|o outputs IH]; intros F0; [by rewrite app_nil_r|].
    csimpl. rewrite decide_True by (apply Hsub; left). csimpl.
    rewrite (left_id_L ∅ (∪)), IH by (intros ??; apply Hsub; by right).
    by rewrite <-app_assoc. }
  apply (Hgen []).
Qed.

Lemma filter_elem_of_empty (R : gset nat) (l : list nat) :
  R = ∅ → filter (λ s, s ∈ R) l = [].
Proof.
  intros ->. induction l as [|x l IH]; [done|].
  rewrite filter_cons, decide_False by set_solver. done.
Qed.

(** X11: when every requested output is supplied and the graph has a
    topological order, [predict] calls no step and leaves the steps' state
    alone; it returns the supplied values of the requested outputs, shaped
    as usual, and warns once for each supplied slot that is not requested. *)
Theorem predict_with_outputs_supplied depth m input_data outs_arg N outputs sorted st :
  DiGraph.topological_sort (model_graph m) = Ok sorted →
  normalize_given_data steps m input_data "input" = Ok N →
  normalize_required_outputs steps m outs_arg = Ok outputs →
  (∀ o, o ∈ outputs → o ∈ dict_keys N) →
  ∃ xs, Forall2 (λ o x, dict_get N o = Some x) outputs xs ∧
    predict' (S depth) m input_data outs_arg st =
      (mkState (world st) (trace st)
         (warned st ++ unused_warnings (dict_keys N) outputs),
       Ok (return_shape xs)).
Proof.
  intros Hsort HN Ho Hsub.
  assert (Hres : get_required_steps steps (S depth) (model_graph m) (dict_keys N) outputs
                 = (unused_warnings (dict_keys N) outputs, Ok [])).
  { unfold get_required_steps. rewrite Hsort, backtrack_all_supplied by done.
    unfold missing_inputs. rewrite elements_empty. simpl.
    by rewrite filter_elem_of_empty. }
  pose proof (normalize_given_data_NoDup steps m input_data "input" N HN) as Hnd.
  destruct (gather_Ok (cache_update ∅ (dict_items N)) outputs) as [xs Hg].
  { intros o Ho'. apply cache_update_elem_of. by apply Hsub. }
  exists xs. split.
  - apply gather_Forall2 in Hg. eapply Forall2_impl; [exact Hg|].
    intros o x Hox. simpl in Hox. by rewrite <-cache_update_empty_lookup.
  - rewrite predict_eq, HN, Ho. cbv zeta. rewrite Hres. simpl. rewrite Hg.
    by destruct xs as [|x [|x' xs']].
Qed.

End Supplied.

Lemma predict_with_outputs_supplied_witness :
  ∃ xs, Forall2 (λ o x, dict_get [(Diamond.w, VArray 9%Z); (Diamond.x, VArray 5%Z)] o
                        = Some x) [Diamond.w] xs ∧
    predict Diamond.steps Diamond.predict_op Diamond.predict_op 10 Diamond.model
      (GivenDict [(KStr "w", VArray 9%Z); (KData Diamond.x, VArray 5%Z)])
      (Some [KData Diamond.w]) Diamond.init =
      (mkState (world Diamond.init) (trace Diamond.init)
         (warned Diamond.init ++
          unused_warnings (dict_keys [(Diamond.w, VArray 9%Z); (Diamond.x, VArray 5%Z)])
            [Diamond.w]),
       Ok (return_shape xs)).
Proof.
  apply (predict_with_outputs_supplied Diamond.steps Diamond.predict_op Diamond.predict_op
           9 Diamond.model
           (GivenDict [(KStr "w", VArray 9%Z); (KData Diamond.x, VArray 5%Z)])
           (Some [KData Diamond.w])
           [(Diamond.w, VArray 9%Z); (Diamond.x, VArray 5%Z)] [Diamond.w]
           [0; 1; 2; 3] Diamond.init).
  - vm_compute. reflexivity.
  - vm_compute. reflexivity.
  - vm_compute. reflexivity.
  - intros o ->%list_elem_of_singleton. unfold dict_keys. simpl. set_solver.
Defined.

Section Repeat.
Context {A W : Type}.
Variable steps : nat → Step.
Variable predict_op : nat → list (value A) → W → W * op_outcome (value A).
Variable transform_op : nat → list (value A) → W → W * op_outcome (value A).
Implicit Types (cache : gmap Data (value A)) (st : state (A := A) (W := W)).

Abbreviation compute_step' := (compute_step steps predict_op transform_op).
Abbreviation predict_step' := (predict_step steps predict_op transform_op).
Abbreviation predict' := (predict steps predict_op transform_op).

(** A step of the loop reads the state at the steps' own state only. *)
Lemma predict_step_world cache s st st2 :
  world st = world st2 →
  world (predict_step' cache s st).1 = world (predict_step' cache s st2).1 ∧
  (predict_step' cache s st).2 = (predict_step' cache s st2).2.
Proof.
  intros Hw. rewrite !predict_step_eq.
  destruct (gather cache (step_inputs (steps s))) as [Xs|e]; [|done].
  rewrite !compute_step_cases, <-Hw.
  destruct (computable steps s); [|done].
  by destruct (computing_op _ _ _ _ _ _) as [w [y|msg]].
Qed.

Lemma predict_loop_world l cache st st2 :
  world st = world st2 →
  world (for_eachM predict_step' l cache st).1
    = world (for_eachM predict_step' l cache st2).1 ∧
  (for_eachM predict_step' l cache st).2 = (for_eachM predict_step' l cache st2).2.
Proof.
  revert cache st st2. induction l as [|s l IH]; intros cache st st2 Hw; [done|].
  rewrite !for_eachM_cons.
  destruct (predict_step_world cache s st st2 Hw) as [Hw1 Hr1].
  destruct (predict_step' cache s st) as [st1 r1], (predict_step' cache s st2) as [st1' r1'].
  simpl in *. subst r1'. destruct r1 as [cache1|e]; [by apply IH|done].
Qed.

(** What [predict] returns, and the steps' state it leaves, depend on the
    state it starts in through the steps' state only. *)
Lemma predict_world depth m input_data outs_arg st st2 :
  world st = world st2 →
  world (predict' depth m input_data outs_arg st).1
    = world (predict' depth m input_data outs_arg st2).1 ∧
  (predict' depth m input_data outs_arg st).2 = (predict' depth m input_data outs_arg st2).2.
Proof.
  intros Hw. rewrite !predict_eq.
  destruct (normalize_given_data steps m input_data "input") as [N|]; [|done].
  destruct (normalize_required_outputs steps m outs_arg) as [outputs|]; [|done].
  cbv zeta. destruct (get_required_steps _ _ _ _ _) as [ws [l|]]; [|done].
  set (st0 := mkState (world st) _ _). set (st0' := mkState (world st2) _ _).
  destruct (predict_loop_world l (cache_update ∅ (dict_items N)) st0 st0' Hw) as [Hw1 Hr1].
  destruct (for_eachM _ l _ st0) as [st1 r1], (for_eachM _ l _ st0') as [st1' r1'].
  simpl in *. subst r1'. destruct r1 as [cache|]; [|done].
  by destruct (gather cache outputs) as [[|x [|x' xs]]|].
Qed.

Hypothesis predict_stateless : stateless predict_op.
Hypothesis transform_stateless : stateless transform_op.

Lemma predict_step_stateless cache s st :
  world (predict_step' cache s st).1 = world st.
Proof using predict_stateless transform_stateless.
  rewrite predict_step_eq.
  destruct (gather cache (step_inputs (steps s))) as [Xs|e]; [|done].
  rewrite compute_step_cases. destruct (computable steps s); [|done].
  unfold computing_op.
  destruct (has_predict (steps s)).
  - pose proof (predict_stateless s Xs (world st)) as H.
    by destruct (predict_op s Xs (world st)) as [w [y|msg]].
  - pose proof (transform_stateless s Xs (world st)) as H.
    by destruct (transform_op s Xs (world st)) as [w [y|msg]].
Qed.

Lemma predict_loop_stateless l cache st :
  world (for_eachM predict_step' l cache st).1 = world st.
Proof using predict_stateless transform_stateless.
  revert cache st. induction l as [|s l IH]; intros cache st; [done|].
  rewrite for_eachM_cons. pose proof (predict_step_stateless cache s st) as H.
  destruct (predict_step' cache s st) as [st1 [cache1|e]]; [|done].
  rewrite IH. done.
Qed.

End Repeat.

Section Repeatable.
Context {A W : Type}.
Variable steps : nat → Step.
Variable predict_op : nat → list (value A) → W → W * op_outcome (value A).
Variable transform_op : nat → list (value A) → W → W * op_outcome (value A).

(** X12: [predict] keeps nothing of its own between calls: when the
    steps' predicting and transforming operations leave the steps' state
    alone, so does [predict], and calling it again with the same arguments
    gives the same result, value or error. *)
Theorem predict_is_repeatable depth m (input_data : given A) outs_arg
    (st : state (A := A) (W := W)) :
  stateless predict_op → stateless transform_op →
  world (predict steps predict_op transform_op depth m input_data outs_arg st).1
    = world st ∧
  (predict steps predict_op transform_op depth m input_data outs_arg
     (predict steps predict_op transform_op depth m input_data outs_arg st).1).2
    = (predict steps predict_op transform_op depth m input_data outs_arg st).2.
Proof.
  intros Hp Ht.
  assert (Hw : world (predict steps predict_op transform_op depth m input_data
                        outs_arg st).1 = world st).
  { rewrite predict_eq.
    destruct (normalize_given_data steps m input_data "input") as [N|]; [|done].
    destruct (normalize_required_outputs steps m outs_arg) as [outputs|]; [|done].
    cbv zeta. destruct (get_required_steps _ _ _ _ _) as [ws [l|]]; [|done].
    pose proof (predict_loop_stateless steps predict_op transform_op Hp Ht l
                  (cache_update ∅ (dict_items N))
                  (mkState (world st) (trace st) (warned st ++ ws))) as H.
    destruct (for_eachM _ _ _ _) as [st1 [cache|]]; [|done].
    by destruct (gather cache outputs) as [[|x [|x' xs]]|]. }
  split; [done|]. by apply predict_world.
Qed.

End Repeatable.

Lemma Diamond_predict_stateless : stateless Diamond.predict_op.
Proof. intros s Xs w. by do 3 (destruct s as [|s]; [done|]). Qed.

Lemma predict_is_repeatable_witness :
  world (predict Diamond.steps Diamond.predict_op Diamond.predict_op 10 Diamond.model
           (GivenValue (VArray 5%Z)) None Diamond.init).1 = world Diamond.init ∧
  (predict Diamond.steps Diamond.predict_op Diamond.predict_op 10 Diamond.model
     (GivenValue (VArray 5%Z)) None
     (predict Diamond.steps Diamond.predict_op Diamond.predict_op 10 Diamond.model
        (GivenValue (VArray 5%Z)) None Diamond.init).1).2
  = (predict Diamond.steps Diamond.predict_op Diamond.predict_op 10 Diamond.model
       (GivenValue (VArray 5%Z)) None Diamond.init).2.
Proof.
  apply (predict_is_repeatable Diamond.steps Diamond.predict_op Diamond.predict_op 10
           Diamond.model (GivenValue (VArray 5%Z)) None Diamond.init).
  - exact Diamond_predict_stateless.
  - exact Diamond_predict_stateless.
Defined.

Section Keys.
Context {A W : Type}.
Variable steps : nat → Step.
Variable fit_op : nat → list (value A) → W → W * op_outcome unit.
Variable predict_op : nat → list (value A) → W → W * op_outcome (value A).
Variable transform_op : nat → list (value A) → W → W * op_outcome (value A).

Lemma for_each_Forall2 {X S} (body body' : S → X → result S) (l l' : list X) (s : S) :
  Forall2 (λ x x', ∀ s, body s x = body' s x') l l' →
  for_each body l s = for_each body' l' s.
Proof.
  intros H. revert s. induction H as [|x x' l l' Hx _ IH]; intros s; simpl; [done|].
  rewrite Hx. destruct (body' s x'); simpl; [apply IH|done].
Qed.

Lemma normalize_dict_same_entries m (items items' : list (key * value A)) :
  Forall2 (same_entry steps m) items items' →
  normalize_dict steps m items = normalize_dict steps m items'.
Proof.
  intros H. apply for_each_Forall2. eapply Forall2_impl; [exact H|].
  intros [k v] [k' v'] [Hk Hv] N. simpl in *. by rewrite Hk, Hv.
Qed.

(** With distinct names, a name resolves to the slot that carries it. *)
Lemma resolve_key_own_name m d :
  NoDup (data_name <$> graph_slots steps m) →
  d ∈ graph_slots steps m →
  resolve_key steps m (KStr (data_name d)) = Ok d.
Proof.
  intros Hnd Hd. simpl. rewrite get_data_eq.
  destruct (list_find _ _) as [[j d']|] eqn:Hf.
  - apply list_find_Some in Hf as (Hj & Hname & _). f_equal.
    apply list_elem_of_lookup_1 in Hd as [i Hi].
    assert (j = i) as ->; [|congruence].
    eapply NoDup_lookup; [exact Hnd| |];
      rewrite list_lookup_fmap; [by rewrite Hj|by rewrite Hi; simpl; rewrite Hname].
  - rewrite list_find_None, Forall_forall in Hf. by destruct (Hf d Hd).
Qed.

Lemma same_slot_resolves m k k' :
  NoDup (data_name <$> graph_slots steps m) →
  same_slot steps m k k' → resolve_key steps m k = resolve_key steps m k'.
Proof.
  intros Hnd [k0|d Hd|d Hd]; [done| |];
    rewrite (resolve_key_own_name m d Hnd Hd); done.
Qed.

Lemma normalize_given_data_same m (data data' : given A) kind :
  NoDup (data_name <$> graph_slots steps m) →
  same_data steps m data data' →
  normalize_given_data steps m data kind = normalize_given_data steps m data' kind.
Proof.
  intros Hnd. destruct data as [items|v], data' as [items'|v']; simpl; try done.
  - intros H. apply normalize_dict_same_entries.
    eapply Forall2_impl; [exact H|].
    intros [k x] [k' x'] [Hk Hx]. split; [|done]. by apply same_slot_resolves.
  - by intros ->.
Qed.

Lemma normalize_required_outputs_same m outputs outputs' :
  NoDup (data_name <$> graph_slots steps m) →
  same_outputs steps m outputs outputs' →
  normalize_required_outputs steps m outputs
    = normalize_required_outputs steps m outputs'.
Proof.
  intros Hnd. destruct outputs as [ks|], outputs' as [ks'|]; simpl; try done.
  intros H. apply for_each_Forall2. eapply Forall2_impl; [exact H|].
  intros k k' Hk ds. simpl. by rewrite (same_slot_resolves m k k' Hnd Hk).
Qed.

(** X13: when the output slots of the graph's nodes have pairwise distinct
    names, a slot of the graph may be written as the slot or as its name,
    in the keys of a data dictionary (input or target) and in the requested
    outputs alike: two calls of [predict], and two calls of [fit], whose
    arguments differ in this only (positional data and an omitted [outputs]
    argument being the same in both) do the same calls, leave the same
    state and warnings and return the same. *)
Theorem keys_by_name_or_slot depth m (input_data input_data' : given A)
    (target_data target_data' : given A) (outs_arg outs_arg' : option (list key))
    (st : state (A := A) (W := W)) :
  NoDup (data_name <$> graph_slots steps m) →
  same_data steps m input_data input_data' →
  same_data steps m target_data target_data' →
  same_outputs steps m outs_arg outs_arg' →
  predict steps predict_op transform_op depth m input_data outs_arg st
    = predict steps predict_op transform_op depth m input_data' outs_arg' st ∧
  fit steps fit_op predict_op transform_op depth m input_data target_data st
    = fit steps fit_op predict_op transform_op depth m input_data' target_data' st.
Proof.
  intros Hnd Hi Ht Ho. split.
  - rewrite !predict_eq.
    by rewrite (normalize_given_data_same m _ _ "input" Hnd Hi),
               (normalize_required_outputs_same m _ _ Hnd Ho).
  - rewrite !fit_eq.
    by rewrite (normalize_given_data_same m _ _ "input" Hnd Hi),
               (normalize_given_data_same m _ _ "target" Hnd Ht).
Qed.

End Keys.

Lemma keys_by_name_or_slot_witness :
  predict Diamond.steps Diamond.predict_op Diamond.predict_op 10 Diamond.model
    (GivenDict [(KStr "x", VArray 5%Z)]) (Some [KStr "w"]) Diamond.init
  = predict Diamond.steps Diamond.predict_op Diamond.predict_op 10 Diamond.model
      (GivenDict [(KData Diamond.x, VArray 5%Z)]) (Some [KData Diamond.w]) Diamond.init ∧
  fit Diamond.steps Diamond.fit_op Diamond.predict_op Diamond.predict_op 10 Diamond.model
    (GivenDict [(KStr "x", VArray 5%Z)]) (GivenDict [(KStr "w", VNone)]) Diamond.init
  = fit Diamond.steps Diamond.fit_op Diamond.predict_op Diamond.predict_op 10 Diamond.model
      (GivenDict [(KData Diamond.x, VArray 5%Z)]) (GivenDict [(KData Diamond.w, VNone)])
      Diamond.init.
Proof.
  apply (keys_by_name_or_slot Diamond.steps Diamond.fit_op Diamond.predict_op
           Diamond.predict_op 10 Diamond.model
           (GivenDict [(KStr "x", VArray 5%Z)]) (GivenDict [(KData Diamond.x, VArray 5%Z)])
           (GivenDict [(KStr "w", VNone)]) (GivenDict [(KData Diamond.w, VNone)])
           (Some [KStr "w"]) (Some [KData Diamond.w])).
  - vm_compute. repeat constructor; set_solver.
  - constructor; [|constructor]. split; [|done].
    apply (name_then_slot Diamond.steps Diamond.model Diamond.x).
    vm_compute. set_solver.
  - constructor; [|constructor]. split; [|done].
    apply (name_then_slot Diamond.steps Diamond.model Diamond.w).
    vm_compute. set_solver.
  - constructor; [|constructor].
    apply (name_then_slot Diamond.steps Diamond.model Diamond.w).
    vm_compute. set_solver.
Defined.

(** ** The model that construction stores *)

Section Stored.
Variable steps : nat → Step.
Implicit Types (inputs outputs : list Data) (g : DiGraph.t).

(** A step that has to run is one the collection walk arrives at. *)
Lemma required_reachable inputs outputs s :
  required steps inputs outputs s → reachable steps outputs s.
Proof.
  intros (d & (o & Ho & Hr) & _ & <-). exists o. split; [done|].
  clear Ho. revert d Hr. apply rtc_ind_r; [done|].
  intros d i _ [_ Hi] IH. eapply rtc_r; [exact IH|]. by exists i.
Qed.

(** Supplying more and asking for less cannot require more. *)
Lemma required_antitone inputs inputs' outputs outputs' s :
  (∀ i, i ∈ inputs → i ∈ inputs') →
  (∀ o, o ∈ outputs' → o ∈ outputs) →
  required steps inputs' outputs' s → required steps inputs outputs s.
Proof.
  intros Hin Hout (d & (o & Ho & Hr) & Hd & <-). exists d. split_and!; [|auto|done].
  exists o. split; [auto|].
  eapply rtc_subrel; [|exact Hr]. intros a b [Ha Hb]. split; auto.
Qed.

Lemma filter_sublist_impl {X} (P Q : X → Prop) `{!∀ x, Decision (P x)}
    `{!∀ x, Decision (Q x)} (l : list X) :
  (∀ x, P x → Q x) → filter P l `sublist_of` filter Q l.
Proof.
  intros HPQ. induction l as [|x l IH]; [done|].
  rewrite !filter_cons. destruct (decide (P x)) as [HP|HP].
  - rewrite decide_True by auto. by apply sublist_skip.
  - destruct (decide (Q x)); [by apply sublist_cons|done].
Qed.

(** X14: what a constructed model stores.  The graph's nodes are, once
    each, the steps the declared outputs depend on, its edges are the
    producer-to-consumer pairs among them, no two nodes share a name and no
    edges form a cycle; the stored steps are, once each, the steps that have
    to run for the declared inputs and outputs, and each of them that has an
    output slot consumes some slot. *)
Theorem constructed_model_invariants depth ins outs ws m :
  Model_init steps depth ins outs = (ws, Ok m) →
  model_inputs m = ins ∧ model_outputs m = outs ∧
  NoDup (DiGraph.nodes (model_graph m)) ∧
  (∀ s, s ∈ DiGraph.nodes (model_graph m) ↔ reachable steps outs s) ∧
  (∀ u v, (u, v) ∈ DiGraph.edges (model_graph m) ↔
          v ∈ DiGraph.nodes (model_graph m) ∧ feeds steps u v) ∧
  (∀ s1 s2, s1 ∈ DiGraph.nodes (model_graph m) → s2 ∈ DiGraph.nodes (model_graph m) →
            step_name (steps s1) = step_name (steps s2) → s1 = s2) ∧
  ¬ DiGraphRel.cyclic (model_graph m) ∧
  NoDup (model_steps m) ∧
  (∀ s, s ∈ model_steps m ↔ required steps ins outs s) ∧
  (∀ s, s ∈ model_steps m → step_outputs (steps s) ≠ [] → step_inputs (steps s) ≠ []).
Proof.
  intros (Hi & Ho & Hg & Hres)%Model_init_Ok.
  destruct (build_graph_Ok _ _ _ _ Hg) as (Hnd & Hn & He).
  apply get_required_steps_Ok in Hres as (sorted & R & F & Hsort & Hbt & Hmiss & _ & Hl).
  destruct (DiGraphFacts.topological_sort_sound _ _ Hsort) as (Hmem & Hnds & _).
  destruct (backtrack_all_spec _ _ _ _ _ _ Hbt) as (HR & _ & _).
  split_and!; [done..| | | | |].
  - intros s1 s2 H1 H2 Hname. destruct (decide (s1 = s2)) as [|Hne]; [done|exfalso].
    unfold build_graph in Hg.
    destruct (for_each _ outs DiGraph.empty) as [g0|] eqn:Hwalk; simplify_eq/=.
    destruct (duplicated_names _) eqn:Hdup; [|done].
    injection Hg as Hg. rewrite Hg in Hdup.
    destruct (duplicated_names_spec (node_names steps (model_graph m))) as [_ Hd].
    assert (Hin : step_name (steps s1) ∈ duplicated_names
                    (count_names (node_names steps (model_graph m)))).
    { apply Hd. unfold node_names. apply occurrences_fmap; [done|].
      by exists s1, s2. }
    rewrite Hdup in Hin. by apply elem_of_nil in Hin.
  - intros Hcyc. by rewrite (DiGraphFacts.topological_sort_cyclic _ Hcyc) in Hsort.
  - rewrite Hl. by apply NoDup_filter.
  - intros s. rewrite Hl, list_elem_of_filter, HR, Hmem, Hn. split; [by intros [? _]|].
    intros Hs. split; [done|]. by eapply required_reachable.
  - intros s. rewrite Hl, list_elem_of_filter. intros [Hs _] Hout Hnil.
    destruct (step_outputs (steps s)) as [|d ds] eqn:Hd; [done|].
    assert (Hdeg : DiGraph.in_degree (model_graph m) s ≠ 0).
    { intros Hdeg.
      assert (Hin : d ∈ missing_inputs steps (model_graph m) R).
      { apply missing_inputs_elem_of. exists s. rewrite Hd. split_and!; [done..|left]. }
      rewrite Hmiss in Hin. by apply elem_of_nil in Hin. }
    unfold DiGraph.in_degree, DiGraph.predecessors in Hdeg. rewrite length_fmap in Hdeg.
    destruct (filter _ (DiGraph.edges (model_graph m))) as [|[u v] rest] eqn:Hf; [done|].
    assert (Huv : (u, v) ∈ filter (λ e, e.2 = s) (DiGraph.edges (model_graph m)))
      by (rewrite Hf; left).
    apply list_elem_of_filter in Huv as [Hv Huv]. simpl in Hv. subst v.
    apply He in Huv as [_ (i & Hi' & _)]. rewrite Hnil in Hi'. by apply elem_of_nil in Hi'.
Qed.

(** X15: on one graph, supplying more slots and requesting fewer outputs
    never adds a step: the steps resolved for the larger supply and the
    smaller request are a sublist of the steps resolved for the other, in
    the same relative order. *)
Theorem more_supplied_fewer_steps depth depth' g inputs inputs' outputs outputs'
    ws ws' l l' :
  (∀ i, i ∈ inputs → i ∈ inputs') →
  (∀ o, o ∈ outputs' → o ∈ outputs) →
  get_required_steps steps depth g inputs outputs = (ws, Ok l) →
  get_required_steps steps depth' g inputs' outputs' = (ws', Ok l') →
  l' `sublist_of` l.
Proof.
  intros Hin Hout
    (sorted & R & F & Hsort & Hbt & _ & _ & ->)%get_required_steps_Ok
    (sorted' & R' & F' & Hsort' & Hbt' & _ & _ & ->)%get_required_steps_Ok.
  rewrite Hsort in Hsort'. simplify_eq.
  destruct (backtrack_all_spec _ _ _ _ _ _ Hbt) as (HR & _ & _).
  destruct (backtrack_all_spec _ _ _ _ _ _ Hbt') as (HR' & _ & _).
  apply filter_sublist_impl. intros s. rewrite HR, HR'.
  by apply required_antitone.
Qed.

End Stored.

Lemma constructed_model_invariants_witness :
  model_inputs Diamond.model = [Diamond.x] ∧ model_outputs Diamond.model = [Diamond.w] ∧
  NoDup (DiGraph.nodes (model_graph Diamond.model)) ∧
  (∀ s, s ∈ DiGraph.nodes (model_graph Diamond.model)
        ↔ reachable Diamond.steps [Diamond.w] s) ∧
  (∀ u v, (u, v) ∈ DiGraph.edges (model_graph Diamond.model) ↔
          v ∈ DiGraph.nodes (model_graph Diamond.model) ∧ feeds Diamond.steps u v) ∧
  (∀ s1 s2, s1 ∈ DiGraph.nodes (model_graph Diamond.model) →
            s2 ∈ DiGraph.nodes (model_graph Diamond.model) →
            step_name (Diamond.steps s1) = step_name (Diamond.steps s2) → s1 = s2) ∧
  ¬ DiGraphRel.cyclic (model_graph Diamond.model) ∧
  NoDup (model_steps Diamond.model) ∧
  (∀ s, s ∈ model_steps Diamond.model ↔ required Diamond.steps [Diamond.x] [Diamond.w] s) ∧
  (∀ s, s ∈ model_steps Diamond.model → step_outputs (Diamond.steps s) ≠ [] →
        step_inputs (Diamond.steps s) ≠ []).
Proof.
  apply (constructed_model_invariants Diamond.steps 10 [Diamond.x] [Diamond.w] []
           Diamond.model).
  vm_compute. reflexivity.
Defined.

Lemma more_supplied_fewer_steps_witness : [2; 3] `sublist_of` [1; 2; 3].
Proof.
  apply (more_supplied_fewer_steps Diamond.steps 10 10 (model_graph Diamond.model)
           [Diamond.x] [Diamond.x; Diamond.y] [Diamond.w] [Diamond.w] [] [] [1; 2; 3] [2; 3]).
  - set_solver.
  - done.
  - vm_compute. reflexivity.
  - vm_compute. reflexivity.
Defined.

Section StoredSteps.
Context {A W : Type}.
Variable steps : nat → Step.
Variable fit_op : nat → list (value A) → W → W * op_outcome unit.
Variable predict_op : nat → list (value A) → W → W * op_outcome (value A).
Variable transform_op : nat → list (value A) → W → W * op_outcome (value A).
Implicit Types (st : state (A := A) (W := W)) (N : list (Data * value A)).

(** The resolution reads its inputs and outputs as sets, and its result
    does not depend on the recursion depth it was given. *)
Lemma get_required_steps_same depth depth' g inputs inputs' outputs outputs' ws ws' l l' :
  (∀ i, i ∈ inputs ↔ i ∈ inputs') →
  (∀ o, o ∈ outputs ↔ o ∈ outputs') →
  get_required_steps steps depth g inputs outputs = (ws, Ok l) →
  get_required_steps steps depth' g inputs' outputs' = (ws', Ok l') →
  l = l'.
Proof.
  intros Hin Hout
    (sorted & R & F & Hsort & Hbt & _ & _ & ->)%get_required_steps_Ok
    (sorted' & R' & F' & Hsort' & Hbt' & _ & _ & ->)%get_required_steps_Ok.
  rewrite Hsort in Hsort'. simplify_eq.
  destruct (backtrack_all_spec _ _ _ _ _ _ Hbt) as (HR & _ & _).
  destruct (backtrack_all_spec _ _ _ _ _ _ Hbt') as (HR' & _ & _).
  assert (R = R') as ->; [|done].
  apply set_eq. intros s. rewrite HR, HR'.
  split; apply required_antitone; intros ?; by (apply Hin || apply Hout).
Qed.

(** The keys of normalised positional data are the declared slots. *)
Lemma normalize_positional_keys m (v : value A) kind N d :
  normalize_given_data steps m (GivenValue v) kind = Ok N →
  d ∈ dict_keys N ↔
  d ∈ (if decide (kind = "input") then model_inputs m else model_outputs m).
Proof.
  simpl. rewrite normalize_list_spec.
  set (dataobjs := if decide (kind = "input") then model_inputs m else model_outputs m).
  destruct (_ && _).
  - intros [= <-]. rewrite dict_of_keys_elem_of, fst_zip; [done|].
    by rewrite length_replicate.
  - case_decide as Hlen; [|done]. intros [= <-].
    rewrite dict_of_keys_elem_of, fst_zip; [done|]. by rewrite Hlen.
Qed.

(** X16: the steps a model stores at construction are the steps a
    positional call runs: a [predict] on positional input data with no
    [outputs] argument that returns a value, and a [fit] on positional input
    and target data that completes, have computed the stored steps, each
    once, in the stored order. *)
Theorem positional_call_runs_stored_steps depth0 ins outs ws0 m depth (v y : value A) st :
  Model_init steps depth0 ins outs = (ws0, Ok m) →
  (∀ st' r,
     predict steps predict_op transform_op depth m (GivenValue v) None st = (st', Ok r) →
     ∃ t, trace st' = trace st ++ t ∧ computed_steps t = model_steps m) ∧
  (∀ st',
     fit steps fit_op predict_op transform_op depth m (GivenValue v) (GivenValue y) st
       = (st', Ok ()) →
     ∃ t, trace st' = trace st ++ t ∧ computed_steps t = model_steps m).
Proof.
  intros (Hi & Ho & _ & Hres0)%Model_init_Ok. split.
  - intros st' r. rewrite predict_eq.
    destruct (normalize_given_data steps m (GivenValue v) "input") as [N|] eqn:HN; [|done].
    simpl normalize_required_outputs. cbv iota zeta.
    destruct (get_required_steps steps depth _ (dict_keys N) _) as [ws [l|]] eqn:Hres;
      [|done].
    assert (l = model_steps m) as ->.
    { eapply get_required_steps_same; [| |exact Hres|exact Hres0].
      - intros i. rewrite (normalize_positional_keys _ _ _ _ _ HN), Hi. done.
      - intros o. by rewrite Ho. }
    destruct (for_eachM _ _ _ _) as [st1 [cache|]] eqn:Hloop; [|done].
    apply predict_loop_spec in Hloop as (_ & t & Ht & _ & _ & Hok).
    destruct (Hok _ eq_refl) as (Hl & _). simpl in Ht.
    intros Hr. exists t. split; [|done].
    destruct (gather cache (model_outputs m)) as [[|x [|x' xs']]|]; by simplify_eq.
  - intros st'. rewrite fit_eq.
    destruct (normalize_given_data steps m (GivenValue v) "input") as [N|] eqn:HN; [|done].
    destruct (normalize_given_data steps m (GivenValue y) "target") as [T|] eqn:HT; [|done].
    cbv zeta.
    destruct (get_required_steps steps depth _ (dict_keys N) _) as [ws [l|]] eqn:Hres;
      [|done].
    assert (l = model_steps m) as ->.
    { eapply get_required_steps_same; [| |exact Hres|exact Hres0].
      - intros i. rewrite (normalize_positional_keys _ _ _ _ _ HN), Hi. done.
      - intros o. rewrite (normalize_positional_keys _ _ _ _ _ HT), Ho. done. }
    destruct (for_eachM _ _ _ _) as [st1 [cache|]] eqn:Hloop; [|done].
    apply fit_loop_trace in Hloop as (_ & t & Ht & _ & Hok).
    destruct (Hok _ eq_refl) as (Xss & HXss & ->). simpl in Ht.
    intros [= <-]. eexists. split; [exact Ht|].
    apply computed_steps_loop. symmetry. by eapply Forall2_length.
Qed.

End StoredSteps.

Lemma positional_call_runs_stored_steps_witness :
  (∃ t, [CallTransform 1 [VArray 5%Z]; CallPredict 2 [VArray 5%Z];
         CallPredict 3 [VArray 6%Z; VArray 10%Z]] = trace Diamond.init ++ t ∧
        computed_steps t = model_steps Diamond.model) ∧
  (∃ t, [CallFit 1 [VArray 5%Z]; CallTransform 1 [VArray 5%Z];
         CallFit 2 [VArray 5%Z]; CallPredict 2 [VArray 5%Z];
         CallFit 3 [VArray 6%Z; VArray 10%Z];
         CallPredict 3 [VArray 6%Z; VArray 10%Z]] = trace Diamond.init ++ t ∧
        computed_steps t = model_steps Diamond.model).
Proof.
  destruct (positional_call_runs_stored_steps Diamond.steps Diamond.fit_op
              Diamond.predict_op Diamond.predict_op 10 [Diamond.x] [Diamond.w] []
              Diamond.model 10 (VArray 5%Z) VNone Diamond.init) as [Hpredict Hfit].
  { vm_compute. reflexivity. }
  split.
  - apply (Hpredict (mkState 0 [CallTransform 1 [VArray 5%Z]; CallPredict 2 [VArray 5%Z];
                                CallPredict 3 [VArray 6%Z; VArray 10%Z]] [])
                    (VArray 16%Z)).
    vm_compute. reflexivity.
  - apply (Hfit (mkState 3 [CallFit 1 [VArray 5%Z]; CallTransform 1 [VArray 5%Z];
                            CallFit 2 [VArray 5%Z]; CallPredict 2 [VArray 5%Z];
                            CallFit 3 [VArray 6%Z; VArray 10%Z];
                            CallPredict 3 [VArray 6%Z; VArray 10%Z]] [])).
    vm_compute. reflexivity.
Defined.
